(** * Page allocation simulator: buddy allocator with a two-list LRU reclaimer

    A shallow embedding of [simulator.py] and the verification of its
    specification.  The Python classes [BuddySystem] and [LRU] become
    records, their methods become functions that pass the object explicitly,
    and Python exceptions become the [Err] results of a small error monad. *)

From stdpp Require Import gmap list.

Local Open Scope nat_scope.

(** ** Python exceptions as results *)

Inductive exn := ValueError | KeyError | IndexError | UnboundLocalError.

Inductive result (A : Type) :=
| Ok (a : A)
| Err (e : exn).
Arguments Ok {_} _.
Arguments Err {_} _.

#[global] Instance result_ret : MRet result := λ A, Ok.
#[global] Instance result_bind : MBind result :=
  λ A B f m, match m with Ok a => f a | Err e => Err e end.

#[global] Instance exn_eq_dec : EqDecision exn.
Proof. solve_decision. Defined.

(** ** Data model *)

(** An LRU node is the tuple [(page_id, seqno, num)]. *)
Definition node : Type := Z * nat * nat.

Definition page_id_of (nd : node) : Z := nd.1.1.
Definition seqno_of (nd : node) : nat := nd.1.2.
Definition num_of (nd : node) : nat := nd.2.

(** [buddy_lists !! i] holds the start ids of the free blocks of [2^i] pages;
    [pages !! p] is [-1] for a free page and the owning seqno otherwise;
    [allocated_pages] maps a seqno to its list of page ids. *)
Record BuddySystem := mkBuddySystem {
  buddy_count : nat;
  buddy_lists : list (list nat);
  pages : list Z;
  allocated_pages : gmap nat (list Z)
}.

(** The [LRU] object keeps a reference to the buddy system; the main loop
    uses the same object, so the single copy lives in this record. *)
Record LRU := mkLRU {
  active_list : list node;
  inactive_list : list node;
  size_active : nat;
  size_inactive : nat;
  buddy_system : BuddySystem
}.

Definition set_buddy_lists (ls : list (list nat)) (b : BuddySystem) : BuddySystem :=
  mkBuddySystem (buddy_count b) ls (pages b) (allocated_pages b).
Definition set_pages (ps : list Z) (b : BuddySystem) : BuddySystem :=
  mkBuddySystem (buddy_count b) (buddy_lists b) ps (allocated_pages b).
Definition set_allocated_pages (m : gmap nat (list Z)) (b : BuddySystem) : BuddySystem :=
  mkBuddySystem (buddy_count b) (buddy_lists b) (pages b) m.

Definition set_active_list (l : list node) (r : LRU) : LRU :=
  mkLRU l (inactive_list r) (size_active r) (size_inactive r) (buddy_system r).
Definition set_inactive_list (l : list node) (r : LRU) : LRU :=
  mkLRU (active_list r) l (size_active r) (size_inactive r) (buddy_system r).
Definition set_buddy_system (b : BuddySystem) (r : LRU) : LRU :=
  mkLRU (active_list r) (inactive_list r) (size_active r) (size_inactive r) b.

(** ** BuddySystem *)

(** [BuddySystem.__init__].  [int(math.log2(MAX_PAGENO))] is [Nat.log2]
    (the float logarithm is exact at the page counts of a simulation), and
    [math.log2 0] raises [ValueError]. *)
Definition BuddySystem_init (MAX_PAGENO : nat) : result BuddySystem :=
  if decide (MAX_PAGENO = 0) then Err ValueError
  else
    let count := Nat.log2 MAX_PAGENO + 1 in
    Ok (mkBuddySystem count
          (<[count - 1 := [0]]> (replicate count []))
          (replicate MAX_PAGENO (-1)%Z)
          ∅).

(** [self.buddy_lists[j].append(x)] *)
Definition append_at (j x : nat) (lists : list (list nat)) : result (list (list nat)) :=
  match lists !! j with
  | Some l => Ok (<[j := l ++ [x]]> lists)
  | None => Err IndexError
  end.

(** [bin(length)[2:][::-1]]: the binary digits, least significant first. *)
Fixpoint pos_bits (p : positive) : list bool :=
  match p with
  | xH => [true]
  | xO q => false :: pos_bits q
  | xI q => true :: pos_bits q
  end.

Definition bin_rev (n : nat) : list bool :=
  match N.of_nat n with
  | N0 => [false]
  | Npos p => pos_bits p
  end.

(** The loop of [partition_and_return] over the digit positions [j]. *)
Fixpoint partition_loop (bits : list bool) (j start_id : nat)
    (lists : list (list nat)) : result (list (list nat)) :=
  match bits with
  | [] => Ok lists
  | b :: bits' =>
      if b then
        lists' ← append_at j start_id lists;
        partition_loop bits' (S j) (start_id + 2 ^ j) lists'
      else partition_loop bits' (S j) start_id lists
  end.

Definition partition_and_return (start_id length : nat)
    (lists : list (list nat)) : result (list (list nat)) :=
  partition_loop (bin_rev length) 0 start_id lists.

(** [for i in range(self.buddy_count): self.buddy_lists[i] = []] *)
Fixpoint clear_lists (idxs : list nat) (lists : list (list nat))
    : result (list (list nat)) :=
  match idxs with
  | [] => Ok lists
  | i :: idxs' =>
      if decide (i < length lists) then clear_lists idxs' (<[i := []]> lists)
      else Err IndexError
  end.

(** The scan of [update_buddy_lists] over the page array, carrying the
    locals [p1], [p2] and [started]. *)
Fixpoint scan_pages (ps : list Z) (p1 p2 : nat) (started : bool)
    (lists : list (list nat)) : result (nat * nat * bool * list (list nat)) :=
  match ps with
  | [] => Ok (p1, p2, started, lists)
  | v :: ps' =>
      if bool_decide (v < 0)%Z then scan_pages ps' p1 (p2 + 1) true lists
      else if started then
        lists' ← partition_and_return p1 (p2 - p1) lists;
        scan_pages ps' (p2 + 1) (p2 + 1) started lists'
      else scan_pages ps' (p1 + 1) (p2 + 1) started lists
  end.

Definition rebuild_lists (count : nat) (ps : list Z) (lists : list (list nat))
    : result (list (list nat)) :=
  lists0 ← clear_lists (seq 0 count) lists;
  '(p1, p2, started, lists1) ← scan_pages ps 0 0 false lists0;
  if (started : bool) then partition_and_return p1 (p2 - p1) lists1
  else Ok lists1.

Definition update_buddy_lists (b : BuddySystem) : result BuddySystem :=
  lists ← rebuild_lists (buddy_count b) (pages b) (buddy_lists b);
  Ok (set_buddy_lists lists b).

(** [count_free_pages] *)
Definition count_free_pages (b : BuddySystem) : nat :=
  length (filter (λ s : Z, s = (-1)%Z) (pages b)).

(** [access]: an empty list is falsy, like a missing key. *)
Definition access (seqno num : nat) (b : BuddySystem) : Z :=
  match allocated_pages b !! seqno with
  | Some alloc_ids =>
      match alloc_ids !! num with
      | Some p => p
      | None => (-1)%Z
      end
  | None => (-1)%Z
  end.

(** The search of [request_pages] for the first non-empty list among the
    orders [idxs]; the result is the order and the popped start id. *)
Fixpoint find_block (idxs : list nat) (lists : list (list nat))
    : result (option (nat * nat * list (list nat))) :=
  match idxs with
  | [] => Ok None
  | i :: idxs' =>
      match lists !! i with
      | None => Err IndexError
      | Some [] => find_block idxs' lists
      | Some (s :: rest) => Ok (Some (i, s, <[i := rest]> lists))
      end
  end.

(** [for p in range(start, start + num): self.pages[p] = seqno; alloc_ids.append(p)] *)
Fixpoint mark_pages (ps : list nat) (seqno : nat) (pgs : list Z) (alloc_ids : list Z)
    : result (list Z * list Z) :=
  match ps with
  | [] => Ok (pgs, alloc_ids)
  | p :: ps' =>
      if decide (p < length pgs) then
        mark_pages ps' seqno (<[p := Z.of_nat seqno]> pgs) (alloc_ids ++ [Z.of_nat p])
      else Err IndexError
  end.

(** The discontinuous allocation loop, with its counter [rest_length]. *)
Fixpoint scatter_pages (idxs : list nat) (rest_length : Z) (seqno : nat)
    (pgs : list Z) (alloc_ids : list Z) : list Z * list Z :=
  match idxs with
  | [] => (pgs, alloc_ids)
  | i :: idxs' =>
      match pgs !! i with
      | Some v =>
          if bool_decide (v = (-1)%Z) then
            let pgs' := <[i := Z.of_nat seqno]> pgs in
            let alloc_ids' := alloc_ids ++ [Z.of_nat i] in
            if bool_decide (rest_length - 1 = 0)%Z then (pgs', alloc_ids')
            else scatter_pages idxs' (rest_length - 1) seqno pgs' alloc_ids'
          else scatter_pages idxs' rest_length seqno pgs alloc_ids
      | None => (pgs, alloc_ids)
      end
  end.

(** [request_pages]; [math.log2 0] raises [ValueError], and
    [math.ceil(math.log2(num))] is [Nat.log2_up num] for [num >= 1] (again
    up to the precision of the float logarithm, which is exact at the sizes
    of a simulation). *)
Definition request_pages (seqno num : nat) (b : BuddySystem)
    : result (list Z * BuddySystem) :=
  if decide (num = 0) then Err ValueError
  else
    let idx := Nat.log2_up num in
    found ← find_block (seq idx (buddy_count b - idx)) (buddy_lists b);
    '(pgs, alloc_ids, lists) ←
      match found with
      | Some (i, alloc_start_id, lists) =>
          '(pgs, alloc_ids) ← mark_pages (seq alloc_start_id num) seqno (pages b) [];
          Ok (pgs, alloc_ids, lists)
      | None =>
          let '(pgs, alloc_ids) :=
            scatter_pages (seq 0 (length (pages b))) (Z.of_nat num) seqno (pages b) [] in
          Ok (pgs, alloc_ids, buddy_lists b)
      end;
    b' ← update_buddy_lists (set_pages pgs (set_buddy_lists lists b));
    Ok (alloc_ids, b').

(** [allocate(page_ids, seqno)] with [idx=None] *)
Definition allocate (page_ids : list Z) (seqno : nat) (b : BuddySystem) : BuddySystem :=
  set_allocated_pages (<[seqno := page_ids]> (allocated_pages b)) b.

(** [allocate(page_ids, seqno, idx)]: the right-hand side [page_ids[-1]] is
    evaluated first, then the dictionary entry, then the list position. *)
Definition allocate_at (page_ids : list Z) (seqno idx : nat) (b : BuddySystem)
    : result BuddySystem :=
  match last page_ids with
  | None => Err IndexError
  | Some p =>
      match allocated_pages b !! seqno with
      | None => Err KeyError
      | Some l =>
          if decide (idx < length l) then
            Ok (set_allocated_pages (<[seqno := <[idx := p]> l]> (allocated_pages b)) b)
          else Err IndexError
      end
  end.

(** [deallocate] *)
Definition deallocate (seqno num : nat) (b : BuddySystem) : result (Z * BuddySystem) :=
  let page_id := access seqno num b in
  b1 ←
    (if bool_decide (0 ≤ page_id)%Z then
       if decide (Z.to_nat page_id < length (pages b)) then
         let pgs := <[Z.to_nat page_id := (-1)%Z]> (pages b) in
         let m := alter (λ l, <[num := (-1)%Z]> l) seqno (allocated_pages b) in
         Ok (set_allocated_pages m (set_pages pgs b))
       else Err IndexError
     else Ok b);
  b2 ← update_buddy_lists b1;
  Ok (page_id, b2).

(** ** LRU *)

Definition LRU_init (b : BuddySystem) (size_active size_inactive : nat) : LRU :=
  mkLRU [] [] size_active size_inactive b.

(** [find_index]: [(0, i)] in the inactive list, [(1, i)] in the active
    list, [(-1, -1)] when absent. *)
Fixpoint find_pos (page_id : Z) (l : list node) (i : nat) : option nat :=
  match l with
  | [] => None
  | nd :: l' => if bool_decide (page_id_of nd = page_id) then Some i
                else find_pos page_id l' (S i)
  end.

Definition find_index (page_id : Z) (r : LRU) : Z * Z :=
  match find_pos page_id (inactive_list r) 0 with
  | Some i => (0, Z.of_nat i)%Z
  | None =>
      match find_pos page_id (active_list r) 0 with
      | Some i => (1, Z.of_nat i)%Z
      | None => (-1, -1)%Z
      end
  end.

(** [list.remove(x)]: drops the first element equal to [x]. *)
Fixpoint remove_first (x : node) (l : list node) : list node :=
  match l with
  | [] => []
  | y :: l' => if decide (y = x) then l' else y :: remove_first x l'
  end.

(** [for node in l: if node[0] == page_id: l.remove(node)]: the iterator
    is a position [i] into the list being mutated.  Each round advances [i]
    and the list never grows, so [length l] rounds suffice. *)
Fixpoint delete_loop (fuel i : nat) (page_id : Z) (l : list node) : list node :=
  match fuel with
  | 0 => l
  | S fuel' =>
      match l !! i with
      | None => l
      | Some nd =>
          if bool_decide (page_id_of nd = page_id) then
            delete_loop fuel' (S i) page_id (remove_first nd l)
          else delete_loop fuel' (S i) page_id l
      end
  end.

Definition delete_in (page_id : Z) (l : list node) : list node :=
  delete_loop (length l) 0 page_id l.

(** [delete] *)
Definition delete (page_id : Z) (r : LRU) : LRU :=
  set_active_list (delete_in page_id (active_list r))
    (set_inactive_list (delete_in page_id (inactive_list r)) r).

(** [reclaim] *)
Definition reclaim (page_id : Z) (seqno num : nat) (r : LRU) : result LRU :=
  let r1 := delete page_id r in
  '(_, b) ← deallocate seqno num (buddy_system r1);
  Ok (set_buddy_system b r1).

(** [list.pop(0)] and [list.pop(idx)] *)
Definition pop_at (idx : nat) (l : list node) : result (node * list node) :=
  match l !! idx with
  | Some nd => Ok (nd, base.delete idx l)
  | None => Err IndexError
  end.

(** The eviction loop of [insert_inactive], [k] rounds. *)
Fixpoint evict_loop (k : nat) (r : LRU) : result LRU :=
  match k with
  | 0 => Ok r
  | S k' =>
      '(nd, l) ← pop_at 0 (inactive_list r);
      r1 ← reclaim (page_id_of nd) (seqno_of nd) (num_of nd) (set_inactive_list l r);
      evict_loop k' r1
  end.

(** [insert_inactive] *)
Definition insert_inactive (page_id : Z) (seqno num : nat) (r : LRU) : result LRU :=
  let r1 := set_inactive_list (inactive_list r ++ [(page_id, seqno, num)]) r in
  if decide (size_inactive r1 < length (inactive_list r1)) then
    evict_loop (length (inactive_list r1) - size_inactive r1) r1
  else Ok r1.

(** The demotion loop of [promote], [k] rounds. *)
Fixpoint demote_loop (k : nat) (r : LRU) : result LRU :=
  match k with
  | 0 => Ok r
  | S k' =>
      '(nd, l) ← pop_at 0 (active_list r);
      r1 ← insert_inactive (page_id_of nd) (seqno_of nd) (num_of nd) (set_active_list l r);
      demote_loop k' r1
  end.

(** [promote] *)
Definition promote (page_id : Z) (r : LRU) : result LRU :=
  let '(list_id, idx) := find_index page_id r in
  if bool_decide (list_id = 0)%Z then
    '(nd, l) ← pop_at (Z.to_nat idx) (inactive_list r);
    let r1 := set_active_list (active_list r ++ [nd]) (set_inactive_list l r) in
    if decide (size_active r1 < length (active_list r1)) then
      demote_loop (length (active_list r1) - size_active r1) r1
    else Ok r1
  else Ok r.

(** [reclaim_n_pages]: the locals [(page_id, seqno, num)] persist across
    rounds; they are unbound until a first node has been popped. *)
Fixpoint reclaim_loop (n : nat) (locals : option node) (r : LRU) : result LRU :=
  match n with
  | 0 => Ok r
  | S n' =>
      let '(locals', r1) :=
        match inactive_list r with
        | nd :: l => (Some nd, set_inactive_list l r)
        | [] =>
            match active_list r with
            | nd :: l => (Some nd, set_active_list l r)
            | [] => (locals, r)
            end
        end in
      match locals' with
      | None => Err UnboundLocalError
      | Some nd =>
          r2 ← reclaim (page_id_of nd) (seqno_of nd) (num_of nd) r1;
          reclaim_loop n' locals' r2
      end
  end.

Definition reclaim_n_pages (n : nat) (r : LRU) : result LRU :=
  reclaim_loop n None r.

(** ** The main loop *)

(** A trace record: the action and two non-negative integers. *)
Inductive action := A | X | F.

#[global] Instance action_eq_dec : EqDecision action.
Proof. solve_decision. Defined.

Record instr := mkInstr { act : action; seqno : nat; num : nat }.

(** [for idx, p_id in enumerate(page_ids): insert_inactive(p_id, seqno, idx)].
    [page_ids] is the very list stored in [allocated_pages[seqno]], which
    [deallocate] mutates during the loop, so each round reads the stored
    list. *)
Fixpoint insert_pages (idxs : list nat) (seqno : nat) (r : LRU) : result LRU :=
  match idxs with
  | [] => Ok r
  | idx :: idxs' =>
      match allocated_pages (buddy_system r) !! seqno ≫= (λ l, l !! idx) with
      | Some p_id =>
          r1 ← insert_inactive p_id seqno idx r;
          insert_pages idxs' seqno r1
      | None => Ok r
      end
  end.

(** The opening shared by the [A] branch and the page-fault branch:
    [n_pages = k - count_free_pages()], then [request_pages(seqno, k)], after
    [reclaim_n_pages(n_pages)] when [n_pages > 0]. *)
Definition reclaim_and_request (seqno k : nat) (r : LRU) : result (list Z * LRU) :=
  let free := count_free_pages (buddy_system r) in
  r1 ← (if decide (k ≤ free) then Ok r else reclaim_n_pages (k - free) r);
  '(page_ids, b) ← request_pages seqno k (buddy_system r1);
  Ok (page_ids, set_buddy_system b r1).

(** The [else] branch of action [X]: request one page, overwrite position
    [num] of the record, insert the page into the inactive list. *)
Definition page_fault (seqno num : nat) (r : LRU) : result LRU :=
  '(page_ids, r1) ← reclaim_and_request seqno 1 r;
  b ← allocate_at page_ids seqno num (buddy_system r1);
  match last page_ids with
  | Some p => insert_inactive p seqno num (set_buddy_system b r1)
  | None => Err IndexError
  end.

(** The body of the main loop for one instruction. *)
Definition step (r : LRU) (i : instr) : result LRU :=
  match act i with
  | A =>
      '(page_ids, r1) ← reclaim_and_request (seqno i) (num i) r;
      let r2 := set_buddy_system (allocate page_ids (seqno i) (buddy_system r1)) r1 in
      insert_pages (seq 0 (length page_ids)) (seqno i) r2
  | X =>
      let page_id := access (seqno i) (num i) (buddy_system r) in
      if bool_decide (0 ≤ page_id)%Z then promote page_id r
      else page_fault (seqno i) (num i) r
  | F =>
      '(page_id, b) ← deallocate (seqno i) (num i) (buddy_system r);
      Ok (delete page_id (set_buddy_system b r))
  end.

(** The main loop; an exception ends the run. *)
Fixpoint run (r : LRU) (trace : list instr) : result LRU :=
  match trace with
  | [] => Ok r
  | i :: trace' => r1 ← step r i; run r1 trace'
  end.

(** [BuddySystem(MAX_PAGENO)] and [LRU(buddy_system, size_active,
    size_inactive)], then the trace. *)
Definition simulator (MAX_PAGENO size_active size_inactive : nat) : result LRU :=
  b ← BuddySystem_init MAX_PAGENO;
  Ok (LRU_init b size_active size_inactive).

Definition simulate (MAX_PAGENO size_active size_inactive : nat)
    (trace : list instr) : result LRU :=
  r ← simulator MAX_PAGENO size_active size_inactive;
  run r trace.

(** ** The placement rule of the free-list rebuild, as the specification words it *)

(** Slot [p] of the page array holds the free marker. *)
Definition free_at (ps : list Z) (p : nat) : Prop := ps !! p = Some (-1)%Z.

#[global] Instance free_at_dec ps p : Decision (free_at ps p).
Proof. unfold free_at. apply _. Defined.

(** A maximal run of free slots starts at a free slot that has no free
    slot to its left, and extends over the free slots that follow. *)
Definition run_start (ps : list Z) (s : nat) : Prop :=
  free_at ps s ∧ (s = 0 ∨ ¬ free_at ps (s - 1)).

#[global] Instance run_start_dec ps s : Decision (run_start ps s).
Proof. unfold run_start. apply _. Defined.

Fixpoint free_prefix (ps : list Z) : nat :=
  match ps with
  | v :: ps' => if decide (v = (-1)%Z) then S (free_prefix ps') else 0
  | [] => 0
  end.

Definition run_length (ps : list Z) (s : nat) : nat := free_prefix (drop s ps).

(** The maximal free runs [(S, L)], from left to right. *)
Definition free_runs (ps : list Z) : list (nat * nat) :=
  (λ s, (s, run_length ps s)) <$> filter (run_start ps) (seq 0 (length ps)).

(** The positions of the set bits of [len], least significant first. *)
Definition set_bits (len : nat) : list nat :=
  filter (λ j, Nat.testbit len j = true) (seq 0 len).

(** One chunk per order, each starting right after the previous one. *)
Fixpoint place (orders : list nat) (addr : nat) : list (nat * nat) :=
  match orders with
  | [] => []
  | j :: orders' => (j, addr) :: place orders' (addr + 2 ^ j)
  end.

(** The chunks [(order, start id)] of the run of length [len] at [s]. *)
Definition chunks (run : nat * nat) : list (nat * nat) :=
  place (set_bits run.2) run.1.

(** Registering a block appends its start id to the list of its order. *)
Definition register_block (lists : list (list nat)) (c : nat * nat) : list (list nat) :=
  alter (λ l, l ++ [c.2]) c.1 lists.

Definition register_all (cs : list (nat * nat)) (lists : list (list nat))
    : list (list nat) :=
  foldl register_block lists cs.

Definition placement (count : nat) (ps : list Z) : list (list nat) :=
  register_all (free_runs ps ≫= chunks) (replicate count []).

(** The pages of a block [(order, start id)], and the blocks and pages that
    a family of free lists records. *)
Definition block_range (c : nat * nat) : list nat := seq c.2 (2 ^ c.1).

Fixpoint blocks_from (i : nat) (lists : list (list nat)) : list (nat * nat) :=
  match lists with
  | [] => []
  | l :: lists' => ((λ s, (i, s)) <$> l) ++ blocks_from (S i) lists'
  end.

Definition blocks (lists : list (list nat)) : list (nat * nat) := blocks_from 0 lists.

Definition covered (lists : list (list nat)) : list nat := blocks lists ≫= block_range.

(** Auxiliary views of the code's loops, used in the proofs: the orders
    that [partition_loop] registers, and the runs that [scan_pages] closes
    when it is at position [p2] with the current run open at [p1]. *)
Fixpoint orders_of (bits : list bool) (j : nat) : list nat :=
  match bits with
  | [] => []
  | b :: bits' => if b then j :: orders_of bits' (S j) else orders_of bits' (S j)
  end.

Definition close_run (p1 p2 : nat) : list (nat * nat) :=
  if decide (p1 < p2) then [(p1, p2 - p1)] else [].

Fixpoint runs_acc (ps : list Z) (p1 p2 : nat) : list (nat * nat) :=
  match ps with
  | [] => close_run p1 p2
  | v :: ps' =>
      if decide (v = (-1)%Z) then runs_acc ps' p1 (S p2)
      else close_run p1 p2 ++ runs_acc ps' (S p2) (S p2)
  end.

(** The final [if started] of [update_buddy_lists]. *)
Definition finish_scan (st : nat * nat * bool * list (list nat))
    : result (list (list nat)) :=
  let '(p1, p2, started, lists1) := st in
  if (started : bool) then partition_and_return p1 (p2 - p1) lists1 else Ok lists1.

(** The indices of the free slots, in increasing order. *)
Definition free_ids (ps : list Z) : list nat := filter (free_at ps) (seq 0 (length ps)).

(** ** Invariants of the simulator state *)

(** The sizes fixed by the constructor, and slots that hold the free marker
    or a seqno. *)
Definition shape (MAX : nat) (b : BuddySystem) : Prop :=
  0 < MAX ∧ length (pages b) = MAX ∧ buddy_count b = Nat.log2 MAX + 1 ∧
  length (buddy_lists b) = buddy_count b ∧ Forall (λ v, (-1 ≤ v)%Z) (pages b).

(** Every page of every registered block is free. *)
Definition blocks_free (b : BuddySystem) : Prop :=
  ∀ c p, c ∈ blocks (buddy_lists b) → p ∈ block_range c → free_at (pages b) p.

(** The recorded page ids are the sentinel or indices of the page array. *)
Definition ids_in_range (b : BuddySystem) : Prop :=
  ∀ s l p, allocated_pages b !! s = Some l → p ∈ l →
    (-1 ≤ p < Z.of_nat (length (pages b)))%Z.

Definition bs_ok (MAX : nat) (b : BuddySystem) : Prop :=
  shape MAX b ∧ blocks_free b ∧ ids_in_range b.

(** The free lists are the rebuild of the current page array. *)
Definition synced (b : BuddySystem) : Prop :=
  buddy_lists b = placement (buddy_count b) (pages b).

Definition capacity (r : LRU) : Prop :=
  length (active_list r) ≤ size_active r ∧ length (inactive_list r) ≤ size_inactive r.

Definition safe (MAX : nat) (r : LRU) : Prop :=
  bs_ok MAX (buddy_system r) ∧ capacity r.

(** The partition invariant: the pages of the registered blocks are
    exactly the free slots, and none is covered twice. *)
Definition partition_invariant (b : BuddySystem) : Prop :=
  NoDup (covered (buddy_lists b)) ∧
  ∀ p, p ∈ covered (buddy_lists b) ↔ free_at (pages b) p.

(** The effect of [update_buddy_lists] and of the first half of
    [deallocate], as pure functions. *)
Definition rebuilt (b : BuddySystem) : BuddySystem :=
  set_buddy_lists (placement (buddy_count b) (pages b)) b.

Definition freed (seqno num : nat) (b : BuddySystem) : BuddySystem :=
  let page_id := access seqno num b in
  if bool_decide (0 ≤ page_id)%Z then
    set_allocated_pages
      (alter (λ l, <[num := (-1)%Z]> l) seqno (allocated_pages b))
      (set_pages (<[Z.to_nat page_id := (-1)%Z]> (pages b)) b)
  else b.

Definition reclaimed (page_id : Z) (seqno num : nat) (r : LRU) : LRU :=
  set_buddy_system (rebuilt (freed seqno num (buddy_system r))) (delete page_id r).

Definition nodes (r : LRU) : list node := inactive_list r ++ active_list r.

(** [self.pages[p] = seqno] for every [p] of [idl]. *)
Definition mark_all (seqno : nat) (idl : list nat) (ps : list Z) : list Z :=
  foldl (λ pg p, <[p := Z.of_nat seqno]> pg) ps idl.

(** What [request_pages] leaves behind: the returned ids are distinct
    slots that were free, now owned by [seqno]; nothing else changed but the
    rebuilt free lists. *)
Definition requested (seqno num : nat) (ids : list Z) (b b' : BuddySystem) : Prop :=
  ∃ idl : list nat,
    ids = Z.of_nat <$> idl ∧ NoDup idl ∧ Forall (free_at (pages b)) idl ∧
    length idl ≤ num ∧
    (length idl = num ∨ ∀ p, ¬ free_at (pages b') p) ∧
    b' = rebuilt (set_pages (mark_all seqno idl (pages b)) b).

(** The effect of [insert_inactive] on a state within capacity: the node is
    appended, and the head is evicted when the list was full. *)
Definition inserted (page_id : Z) (seqno num : nat) (r : LRU) : LRU :=
  if decide (length (inactive_list r) < size_inactive r) then
    set_inactive_list (inactive_list r ++ [(page_id, seqno, num)]) r
  else
    match inactive_list r ++ [(page_id, seqno, num)] with
    | nd :: l =>
        reclaimed (page_id_of nd) (seqno_of nd) (num_of nd) (set_inactive_list l r)
    | [] => r
    end.

(** The effect of [promote] on a state within capacity: the node moves to
    the tail of the active list, whose head is demoted when it was full. *)
Definition promoted (page_id : Z) (r : LRU) : LRU :=
  match find_pos page_id (inactive_list r) 0 with
  | None => r
  | Some i =>
      match inactive_list r !! i with
      | None => r
      | Some nd =>
          let inactive' := base.delete i (inactive_list r) in
          let active' := active_list r ++ [nd] in
          if decide (size_active r < length active') then
            match active' with
            | hd :: tl => set_inactive_list (inactive' ++ [hd]) (set_active_list tl r)
            | [] => r
            end
          else set_inactive_list inactive' (set_active_list active' r)
      end
  end.

(** An operation that never lengthens either list nor changes the capacities. *)
Definition shrinks (r r' : LRU) : Prop :=
  size_active r' = size_active r ∧ size_inactive r' = size_inactive r ∧
  length (active_list r') ≤ length (active_list r) ∧
  length (inactive_list r') ≤ length (inactive_list r).

(** Between events the free lists are those of the last rebuild, or still
    those of the constructor when nothing was allocated yet. *)
Definition tidy (b : BuddySystem) : Prop :=
  synced b ∨ allocated_pages b = ∅.

(** Reading a component off the outcome of a run. *)
#[global] Instance result_fmap : FMap result :=
  λ A B f m, match m with Ok a => Ok (f a) | Err e => Err e end.

(** ** The residency invariant *)

(** Position [num] of the allocation record of [seqno] holds [p]. *)
Definition entry (b : BuddySystem) (s n : nat) (p : Z) : Prop :=
  ∃ l, allocated_pages b !! s = Some l ∧ l !! n = Some p.

(** The residency/LRU invariant of the specification: a page id recorded as
    a non-sentinel entry is the page id of exactly one node of the two
    lists; a sentinel entry has no node, neither one for its position nor
    one carrying the sentinel. *)
Definition residency_invariant (r : LRU) : Prop :=
  (∀ s n p, entry (buddy_system r) s n p → (0 ≤ p)%Z →
     length (filter (λ nd, page_id_of nd = p) (nodes r)) = 1) ∧
  (∀ s n, entry (buddy_system r) s n (-1)%Z →
     ∀ nd, nd ∈ nodes r →
       page_id_of nd ≠ (-1)%Z ∧ ¬ (seqno_of nd = s ∧ num_of nd = n)).

(** The link between the nodes [L] of the two lists, the allocation record
    and the page array.  [pend] marks the positions whose page is recorded
    but whose node is still to be inserted by the loop of the [A] branch. *)
Record linked (pend : nat → nat → Prop) (L : list node) (b : BuddySystem) : Prop := {
  lk_nodup : NoDup (page_id_of <$> L);
  lk_node : ∀ p s n, (p, s, n) ∈ L → (0 ≤ p)%Z ∧ entry b s n p ∧ ¬ pend s n;
  lk_entry : ∀ s n p, entry b s n p → (0 ≤ p)%Z → pend s n ∨ (p, s, n) ∈ L;
  lk_pend : ∀ s n p, entry b s n p → pend s n → (0 ≤ p)%Z;
  lk_owner : ∀ s n p, entry b s n p → (0 ≤ p)%Z →
               pages b !! Z.to_nat p = Some (Z.of_nat s);
  lk_inj : ∀ s n s' n' p, entry b s n p → entry b s' n' p → (0 ≤ p)%Z →
             s = s' ∧ n = n';
  lk_leak : ∀ p v, pages b !! p = Some v → (0 ≤ v)%Z →
              ∃ n, entry b (Z.to_nat v) n (Z.of_nat p)
}.

Definition no_pending : nat → nat → Prop := λ _ _, False.

Definition consistent (MAX : nat) (r : LRU) : Prop :=
  safe MAX r ∧ tidy (buddy_system r) ∧ linked no_pending (nodes r) (buddy_system r).

(** The seqnos that the Allocate events of a trace name. *)
Definition allocated_seqnos (trace : list instr) : list nat :=
  seqno <$> filter (λ i, act i = A) trace.

(** Every Allocate event names a seqno that was not allocated before. *)
Definition fresh_allocs (trace : list instr) : Prop := NoDup (allocated_seqnos trace).

(** The positions [k .. len - 1] of the record of [s], whose nodes the loop
    of the [A] branch has still to insert. *)
Definition pending (s k len : nat) : nat → nat → Prop :=
  λ s' n', s' = s ∧ k ≤ n' < len.

(** Two buddy systems record the same seqnos. *)
Definition same_keys (b b' : BuddySystem) : Prop :=
  ∀ s, allocated_pages b' !! s = None ↔ allocated_pages b !! s = None.

(** What a completed page fault on [(s, n)] does: one page [q] is obtained
    (after reclaiming when no page was free), written at position [n] of the
    record of [s], and inserted into the inactive list. *)
Definition fault_completes (r : LRU) (s n : nat) : Prop :=
  ∃ q r1 b r',
    reclaim_and_request s 1 r = Ok ([q], r1) ∧ (0 ≤ q)%Z ∧
    allocate_at [q] s n (buddy_system r1) = Ok b ∧ entry b s n q ∧
    pages b !! Z.to_nat q = Some (Z.of_nat s) ∧
    insert_inactive q s n (set_buddy_system b r1) = Ok r' ∧
    step r (mkInstr X s n) = Ok r'.

(** ** Further parts of the source *)

(** [LRU.delete_old]: the node that [find_index] reports is popped. *)
Definition delete_old (page_id : Z) (r : LRU) : result LRU :=
  let '(list_id, idx) := find_index page_id r in
  if bool_decide (list_id = 0)%Z then
    '(_, l) ← pop_at (Z.to_nat idx) (inactive_list r);
    Ok (set_inactive_list l r)
  else if bool_decide (list_id = 1)%Z then
    '(_, l) ← pop_at (Z.to_nat idx) (active_list r);
    Ok (set_active_list l r)
  else Ok r.

(** [deallocate(seqno, idx)] for every [idx] of [idxs], in order. *)
Fixpoint deallocate_all (idxs : list nat) (seqno : nat) (b : BuddySystem)
    : result BuddySystem :=
  match idxs with
  | [] => Ok b
  | idx :: idxs' =>
      '(_, b1) ← deallocate seqno idx b;
      deallocate_all idxs' seqno b1
  end.

(** The number of pages that the free lists stand for: [2^i] for every
    start id of the list of order [i]. *)
Fixpoint capacity_from (i : nat) (lists : list (list nat)) : nat :=
  match lists with
  | [] => 0
  | l :: lists' => length l * 2 ^ i + capacity_from (S i) lists'
  end.

(** The number of slots of a page array that hold the free marker. *)
Definition free_count (ps : list Z) : nat :=
  length (filter (λ s : Z, s = (-1)%Z) ps).

(** * Proofs *)

Lemma bind_Ok {A B} (m : result A) (f : A → result B) (y : B) :
  m ≫= f = Ok y ↔ ∃ x, m = Ok x ∧ f x = Ok y.
Proof.
  destruct m as [a|e]; simpl.
  - split; [eauto | intros (x & [= <-] & ?); done].
  - split; [done | intros (x & ? & ?); done].
Qed.

Ltac inv_bind H :=
  let x := fresh "x" in
  let Hx := fresh "Hx" in
  apply bind_Ok in H; destruct H as (x & Hx & H).

(** ** Binary digits *)

Lemma pos_bits_testbit p k :
  pos_bits p !! k = Some true ↔ Nat.testbit (Pos.to_nat p) k = true.
Proof.
  revert k. induction p as [p IH|p IH|]; intros k.
  - rewrite Pos2Nat.inj_xI. replace (S (2 * Pos.to_nat p)) with (2 * Pos.to_nat p + 1) by lia.
    destruct k as [|k]; simpl pos_bits.
    + rewrite Nat.testbit_odd_0. done.
    + rewrite Nat.testbit_odd_succ by lia. apply IH.
  - rewrite Pos2Nat.inj_xO.
    destruct k as [|k]; simpl pos_bits.
    + rewrite Nat.testbit_even_0. done.
    + rewrite Nat.testbit_even_succ by lia. apply IH.
  - destruct k as [|k]; simpl pos_bits; [done|].
    change (Pos.to_nat 1) with 1. simpl Nat.testbit.
    rewrite Nat.bits_0. by destruct k.
Qed.

Lemma pos_bits_length p : length (pos_bits p) ≤ Pos.to_nat p.
Proof.
  induction p as [p IH|p IH|]; simpl length.
  - rewrite Pos2Nat.inj_xI. lia.
  - rewrite Pos2Nat.inj_xO. pose proof (Pos2Nat.is_pos p). lia.
  - done.
Qed.

Lemma bin_rev_testbit len k :
  bin_rev len !! k = Some true ↔ Nat.testbit len k = true.
Proof.
  unfold bin_rev. destruct (N.of_nat len) as [|p] eqn:E.
  - assert (len = 0) as -> by lia. rewrite Nat.bits_0.
    destruct k as [|[|k]]; done.
  - assert (len = Pos.to_nat p) as -> by lia. apply pos_bits_testbit.
Qed.

Lemma bin_rev_bound len k : bin_rev len !! k = Some true → k < len.
Proof.
  unfold bin_rev. destruct (N.of_nat len) as [|p] eqn:E.
  - destruct k as [|[|k]]; done.
  - intros H%lookup_lt_Some. pose proof (pos_bits_length p). lia.
Qed.

Lemma testbit_pow2_le len j : Nat.testbit len j = true → 2 ^ j ≤ len.
Proof.
  intros H%Nat.testbit_true.
  destruct (decide (2 ^ j ≤ len)) as [|Hlt]; [done|].
  rewrite Nat.div_small in H by lia. done.
Qed.

Lemma orders_of_no_true bits j :
  (∀ k, bits !! k ≠ Some true) → orders_of bits j = [].
Proof.
  revert j. induction bits as [|b bits IH]; intros j H; [done|].
  destruct b; [by specialize (H 0)|]. simpl. apply IH. intros k. apply (H (S k)).
Qed.

Lemma orders_of_filter bits j0 n (P : nat → Prop) `{!∀ j, Decision (P j)} :
  (∀ k, P (j0 + k) ↔ bits !! k = Some true) →
  (∀ k, bits !! k = Some true → k < n) →
  orders_of bits j0 = filter P (seq j0 n).
Proof.
  revert bits j0. induction n as [|n IH]; intros bits j0 HP Hn.
  - apply orders_of_no_true. intros k Hk. apply Hn in Hk. lia.
  - simpl seq. rewrite filter_cons. destruct bits as [|b bits].
    + rewrite decide_False; last by (rewrite <-(Nat.add_0_r j0), HP).
      simpl. apply (IH [] (S j0)); [|done].
      intros k. replace (S j0 + k) with (j0 + S k) by lia. rewrite HP. done.
    + assert (Hrec : orders_of bits (S j0) = filter P (seq (S j0) n)).
      { apply IH.
        - intros k. replace (S j0 + k) with (j0 + S k) by lia. rewrite HP. done.
        - intros k Hk. specialize (Hn (S k) Hk). lia. }
      simpl. rewrite <-Hrec. destruct b.
      * rewrite decide_True; [done|]. rewrite <-(Nat.add_0_r j0), HP. done.
      * rewrite decide_False; [done|]. rewrite <-(Nat.add_0_r j0), HP. done.
Qed.

Lemma orders_of_bin_rev len : orders_of (bin_rev len) 0 = set_bits len.
Proof.
  unfold set_bits. apply orders_of_filter.
  - intros k. simpl. symmetry. apply bin_rev_testbit.
  - apply bin_rev_bound.
Qed.

Lemma set_bits_bound len j : j ∈ set_bits len → 2 ^ j ≤ len.
Proof.
  unfold set_bits. intros [H _]%list_elem_of_filter. by apply testbit_pow2_le.
Qed.

(** ** Registering blocks *)

Lemma register_all_length cs lists : length (register_all cs lists) = length lists.
Proof.
  revert lists. induction cs as [|c cs IH]; intros lists; [done|].
  simpl. rewrite IH. unfold register_block. by rewrite length_alter.
Qed.

Lemma register_all_app cs1 cs2 lists :
  register_all (cs1 ++ cs2) lists = register_all cs2 (register_all cs1 lists).
Proof. apply foldl_app. Qed.

Lemma register_all_lookup cs lists i :
  register_all cs lists !! i
  = (λ l, l ++ (snd <$> filter (λ c, c.1 = i) cs)) <$> lists !! i.
Proof.
  revert lists. induction cs as [|c cs IH]; intros lists.
  - simpl. destruct (lists !! i); simpl; [|done]. by rewrite app_nil_r.
  - change (register_all (c :: cs) lists) with (register_all cs (register_block lists c)).
    rewrite IH. unfold register_block. rewrite filter_cons.
    destruct (decide (c.1 = i)) as [<-|Hne].
    + rewrite list_lookup_alter_eq. destruct (lists !! c.1); simpl; [|done].
      by rewrite <-app_assoc.
    + by rewrite list_lookup_alter_ne.
Qed.

Lemma placement_lookup count ps i :
  i < count →
  placement count ps !! i
  = Some (snd <$> filter (λ c, c.1 = i) (free_runs ps ≫= chunks)).
Proof.
  intros Hi. unfold placement. rewrite register_all_lookup.
  by rewrite lookup_replicate_2.
Qed.

Lemma append_at_register j x lists :
  j < length lists → append_at j x lists = Ok (register_block lists (j, x)).
Proof.
  intros Hj. unfold append_at, register_block. simpl.
  destruct (lookup_lt_is_Some_2 lists j Hj) as [l Hl]. rewrite Hl. f_equal.
  apply list_eq. intros i. destruct (decide (i = j)) as [->|Hne].
  - rewrite list_lookup_insert_eq by done. rewrite list_lookup_alter_eq, Hl. done.
  - rewrite list_lookup_insert_ne by done. rewrite list_lookup_alter_ne by done. done.
Qed.

Lemma partition_loop_spec bits j start_id lists :
  (∀ k, bits !! k = Some true → j + k < length lists) →
  partition_loop bits j start_id lists
  = Ok (register_all (place (orders_of bits j) start_id) lists).
Proof.
  revert j start_id lists. induction bits as [|b bits IH]; intros j start_id lists Hb; [done|].
  assert (Hrec : ∀ k, bits !! k = Some true → S j + k < length lists).
  { intros k Hk. specialize (Hb (S k) Hk). lia. }
  destruct b; simpl.
  - rewrite append_at_register by (specialize (Hb 0 eq_refl); lia). simpl.
    apply IH. unfold register_block. rewrite length_alter. done.
  - by apply IH.
Qed.

Lemma partition_and_return_spec start_id len lists :
  (len = 0 ∨ Nat.log2 len < length lists) →
  partition_and_return start_id len lists
  = Ok (register_all (chunks (start_id, len)) lists).
Proof.
  intros Hlen. unfold partition_and_return, chunks. simpl.
  rewrite <-orders_of_bin_rev. apply partition_loop_spec.
  intros k Hk. simpl. apply bin_rev_testbit, testbit_pow2_le in Hk.
  assert (2 ^ k ≠ 0) by (apply Nat.pow_nonzero; lia).
  destruct Hlen as [->|Hlen]; [lia|].
  apply Nat.log2_le_pow2 in Hk; lia.
Qed.

(** ** The chunks of a run cover it exactly *)

Lemma place_cover orders addr :
  place orders addr ≫= block_range = seq addr (sum_list ((λ j, 2 ^ j) <$> orders)).
Proof.
  revert addr. induction orders as [|j orders IH]; intros addr; [done|].
  simpl place. rewrite bind_cons, IH. unfold block_range at 1. simpl.
  by rewrite seq_app.
Qed.

Lemma orders_of_sum p j :
  sum_list ((λ j, 2 ^ j) <$> orders_of (pos_bits p) j) = 2 ^ j * Pos.to_nat p.
Proof.
  revert j. induction p as [p IH|p IH|]; intros j; simpl.
  - rewrite IH, Pos2Nat.inj_xI, Nat.pow_succ_r'. lia.
  - rewrite IH, Pos2Nat.inj_xO, Nat.pow_succ_r'. lia.
  - change (Pos.to_nat 1) with 1. lia.
Qed.

Lemma set_bits_sum len : sum_list ((λ j, 2 ^ j) <$> set_bits len) = len.
Proof.
  rewrite <-orders_of_bin_rev. unfold bin_rev.
  destruct (N.of_nat len) as [|p] eqn:E.
  - simpl. lia.
  - rewrite orders_of_sum. simpl. lia.
Qed.

Lemma chunks_cover s len : chunks (s, len) ≫= block_range = seq s len.
Proof. unfold chunks. simpl. by rewrite place_cover, set_bits_sum. Qed.

Lemma chunks_order_bound s len c : c ∈ chunks (s, len) → 2 ^ c.1 ≤ len.
Proof.
  unfold chunks. simpl. generalize (set_bits_bound len).
  generalize (set_bits len) as orders. intros orders. revert s.
  induction orders as [|j orders IH]; intros s Hb; simpl.
  - by intros ?%elem_of_nil.
  - intros [->|Hc]%elem_of_cons.
    + apply Hb. left.
    + eapply IH; [|done]. intros j' Hj'. apply Hb. by right.
Qed.

(** ** The scan of the page array *)

Lemma clear_lists_seq i k (rest : list (list nat)) :
  k ≤ length rest →
  clear_lists (seq i k) (replicate i [] ++ rest)
  = Ok (replicate (i + k) [] ++ drop k rest).
Proof.
  revert i rest. induction k as [|k IH]; intros i rest Hlen; simpl.
  - by rewrite Nat.add_0_r.
  - destruct rest as [|x rest]; [simpl in Hlen; lia|].
    rewrite decide_True by (rewrite length_app, length_replicate; simpl; lia).
    rewrite insert_app_r_alt by (rewrite length_replicate; lia).
    rewrite length_replicate, Nat.sub_diag. simpl.
    replace (replicate i [] ++ [] :: rest) with (replicate (S i) (@nil nat) ++ rest).
    + rewrite IH by (simpl in Hlen; lia). by replace (S i + k) with (i + S k) by lia.
    + rewrite replicate_S_end, <-app_assoc. done.
Qed.

Lemma clear_lists_all count (lists : list (list nat)) :
  length lists = count → clear_lists (seq 0 count) lists = Ok (replicate count []).
Proof.
  intros Hlen. pose proof (clear_lists_seq 0 count lists) as H. simpl in H.
  rewrite H by lia. rewrite drop_ge by lia. by rewrite app_nil_r.
Qed.

Lemma close_run_register p1 p2 bound lists :
  p1 ≤ p2 → p2 ≤ bound → Nat.log2 bound < length lists →
  partition_and_return p1 (p2 - p1) lists
  = Ok (register_all (close_run p1 p2 ≫= chunks) lists).
Proof.
  intros H1 H2 Hb. unfold close_run. case_decide.
  - rewrite bind_singleton. apply partition_and_return_spec. right.
    eapply Nat.le_lt_trans; [|done]. apply Nat.log2_le_mono. lia.
  - replace (p2 - p1) with 0 by lia. done.
Qed.

Lemma scan_pages_spec ps p1 p2 started bound lists :
  Forall (λ v, (-1 ≤ v)%Z) ps →
  p1 ≤ p2 → (started = false → p1 = p2) →
  p2 + length ps ≤ bound → Nat.log2 bound < length lists →
  scan_pages ps p1 p2 started lists ≫= finish_scan
  = Ok (register_all (runs_acc ps p1 p2 ≫= chunks) lists).
Proof.
  revert p1 p2 started lists.
  induction ps as [|v ps IH]; intros p1 p2 started lists Hps H12 Hst Hb Hlen.
  - simpl. destruct started.
    + apply (close_run_register _ _ bound); simpl in *; lia.
    + rewrite Hst by done. unfold close_run. rewrite decide_False by lia. done.
  - apply Forall_cons in Hps as [Hv Hps]. simpl in Hb. simpl scan_pages. simpl runs_acc.
    case_bool_decide as Hneg.
    + rewrite decide_True by lia. rewrite Nat.add_1_r.
      apply IH; [done|lia|done|lia|done].
    + rewrite decide_False by lia. rewrite !Nat.add_1_r, bind_app, register_all_app.
      destruct started.
      * rewrite (close_run_register _ _ bound) by lia. simpl.
        apply IH; [done|lia|done|lia|by rewrite register_all_length].
      * rewrite Hst by done. unfold close_run at 1. rewrite decide_False by lia. simpl.
        apply IH; [done|lia|done|lia|done].
Qed.

Lemma rebuild_lists_runs_acc count ps lists :
  Forall (λ v, (-1 ≤ v)%Z) ps →
  length lists = count → Nat.log2 (length ps) < count →
  rebuild_lists count ps lists
  = Ok (register_all (runs_acc ps 0 0 ≫= chunks) (replicate count [])).
Proof.
  intros Hps Hlen Hlog. unfold rebuild_lists.
  rewrite clear_lists_all by done. simpl.
  rewrite <-(scan_pages_spec ps 0 0 false (length ps) (replicate count [])); try done.
  by rewrite length_replicate.
Qed.

(** ** The runs closed by the scan are the maximal free runs *)

Lemma filter_none {A} (P : A → Prop) `{!∀ x, Decision (P x)} (l : list A) :
  (∀ x, x ∈ l → ¬ P x) → filter P l = [].
Proof.
  induction l as [|x l IH]; intros Hall; [done|].
  rewrite filter_cons, decide_False by (apply Hall; left).
  apply IH. intros y Hy. apply Hall. by right.
Qed.

Lemma free_prefix_spec (l : list Z) n :
  (∀ i, i < n → l !! i = Some (-1)%Z) → l !! n ≠ Some (-1)%Z → free_prefix l = n.
Proof.
  revert l. induction n as [|n IH]; intros l Hfree Hend.
  - destruct l as [|v l]; [done|]. simpl. rewrite decide_False; [done|].
    intros ->. by apply Hend.
  - destruct l as [|v l]; [by specialize (Hfree 0 ltac:(lia))|].
    simpl. rewrite decide_True.
    + f_equal. apply IH; [|done]. intros i Hi. apply (Hfree (S i)). lia.
    + specialize (Hfree 0 ltac:(lia)). by injection Hfree.
Qed.

Lemma run_length_spec ps p1 p2 :
  p1 ≤ p2 → (∀ q, p1 ≤ q < p2 → free_at ps q) → ¬ free_at ps p2 →
  run_length ps p1 = p2 - p1.
Proof.
  intros H12 Hfree Hend. unfold run_length. apply free_prefix_spec.
  - intros i Hi. rewrite lookup_drop. apply Hfree. lia.
  - rewrite lookup_drop. by replace (p1 + (p2 - p1)) with p2 by lia.
Qed.

Lemma filter_run_start_open ps p1 p2 :
  p1 < p2 → (∀ q, p1 ≤ q < p2 → free_at ps q) → (p1 = 0 ∨ ¬ free_at ps (p1 - 1)) →
  filter (run_start ps) (seq p1 (p2 - p1)) = [p1].
Proof.
  intros H12 Hfree Hleft.
  replace (p2 - p1) with (S (p2 - S p1)) by lia. simpl seq.
  rewrite filter_cons, decide_True.
  - f_equal. apply filter_none. intros q Hq%elem_of_seq [_ [->|Hq']]; [lia|].
    apply Hq', Hfree. lia.
  - split; [apply Hfree; lia | done].
Qed.

Lemma close_run_free_runs ps p1 p2 :
  p1 ≤ p2 → (∀ q, p1 ≤ q < p2 → free_at ps q) → (p1 = 0 ∨ ¬ free_at ps (p1 - 1)) →
  ¬ free_at ps p2 →
  close_run p1 p2
  = (λ s, (s, run_length ps s)) <$> filter (run_start ps) (seq p1 (p2 - p1)).
Proof.
  intros H12 Hfree Hleft Hend. unfold close_run. case_decide.
  - rewrite filter_run_start_open by done. simpl.
    by rewrite (run_length_spec ps p1 p2).
  - by replace (p2 - p1) with 0 by lia.
Qed.

Lemma runs_acc_free_runs pre ps p1 :
  p1 ≤ length pre →
  (∀ q, p1 ≤ q < length pre → free_at pre q) →
  (p1 = 0 ∨ ¬ free_at pre (p1 - 1)) →
  runs_acc ps p1 (length pre)
  = (λ s, (s, run_length (pre ++ ps) s))
      <$> filter (run_start (pre ++ ps)) (seq p1 (length pre - p1 + length ps)).
Proof.
  revert pre p1. induction ps as [|v ps IH]; intros pre p1 H12 Hfree Hleft.
  - rewrite app_nil_r, Nat.add_0_r. simpl.
    apply close_run_free_runs; try done.
    unfold free_at. by rewrite lookup_ge_None_2.
  - assert (Hpre : ∀ q, q < length pre → free_at (pre ++ v :: ps) q ↔ free_at pre q).
    { intros q Hq. unfold free_at. by rewrite lookup_app_l. }
    assert (Hv : free_at (pre ++ v :: ps) (length pre) ↔ v = (-1)%Z).
    { unfold free_at. rewrite list_lookup_middle by done.
      split; [by intros [= ->] | by intros ->]. }
    assert (Hleft' : p1 = 0 ∨ ¬ free_at (pre ++ v :: ps) (p1 - 1)).
    { destruct Hleft as [?|Hleft]; [by left|].
      destruct (decide (p1 = 0)); [by left|right]. rewrite Hpre by lia. done. }
    simpl runs_acc. case_decide as Hfv.
    + specialize (IH (pre ++ [v]) p1). rewrite length_app in IH. simpl in IH.
      rewrite Nat.add_1_r in IH. rewrite IH.
      * rewrite <-app_assoc. simpl. do 3 f_equal. lia.
      * lia.
      * intros q Hq. destruct (decide (q = length pre)) as [->|].
        -- unfold free_at. rewrite list_lookup_middle by done. by subst.
        -- unfold free_at. rewrite lookup_app_l by lia. apply Hfree. lia.
      * destruct Hleft as [?|Hleft]; [by left|].
        destruct (decide (p1 = 0)); [by left|right].
        unfold free_at. rewrite lookup_app_l by lia. done.
    + specialize (IH (pre ++ [v]) (S (length pre))). rewrite length_app in IH. simpl in IH.
      rewrite Nat.add_1_r, Nat.sub_diag in IH. simpl in IH. rewrite IH.
      * replace (length pre - p1 + S (length ps))
          with ((length pre - p1) + (1 + length ps)) by lia.
        rewrite seq_app, filter_app, fmap_app.
        replace (p1 + (length pre - p1)) with (length pre) by lia.
        f_equal.
        -- apply close_run_free_runs; try done.
           ++ intros q Hq. apply Hpre; [lia|]. by apply Hfree.
           ++ by rewrite Hv.
        -- simpl seq. rewrite filter_cons, decide_False.
           ++ by rewrite <-app_assoc.
           ++ intros [Hf _]. by apply Hfv, Hv.
      * lia.
      * intros q Hq. lia.
      * right. simpl. rewrite Nat.sub_0_r. unfold free_at.
        rewrite list_lookup_middle by done. by intros [= ->].
Qed.

Lemma runs_acc_eq_free_runs ps : runs_acc ps 0 0 = free_runs ps.
Proof.
  pose proof (runs_acc_free_runs [] ps 0) as H. simpl in H.
  rewrite H; [done|lia| |by left]. intros q Hq. lia.
Qed.

(** The rebuild realises the placement rule. *)
Lemma rebuild_lists_placement count ps lists :
  Forall (λ v, (-1 ≤ v)%Z) ps →
  length lists = count → Nat.log2 (length ps) < count →
  rebuild_lists count ps lists = Ok (placement count ps).
Proof.
  intros. unfold placement. rewrite <-runs_acc_eq_free_runs.
  by apply rebuild_lists_runs_acc.
Qed.

(** ** The registered blocks cover the free pages *)

Lemma blocks_from_alter i j x lists :
  j < length lists →
  blocks_from i (alter (λ l, l ++ [x]) j lists) ≡ₚ blocks_from i lists ++ [(i + j, x)].
Proof.
  revert i j. induction lists as [|l lists IH]; intros i j Hj; simpl in Hj; [lia|].
  destruct j as [|j]; simpl.
  - rewrite fmap_app, Nat.add_0_r. simpl. rewrite <-!app_assoc.
    apply Permutation_app_head, Permutation_app_comm.
  - change (list_alter ?f j lists) with (alter f j lists).
    rewrite IH by lia. rewrite <-app_assoc. by replace (S i + j) with (i + S j) by lia.
Qed.

Lemma blocks_register_all cs lists :
  (∀ c, c ∈ cs → c.1 < length lists) →
  blocks (register_all cs lists) ≡ₚ blocks lists ++ cs.
Proof.
  revert lists. induction cs as [|c cs IH]; intros lists Hcs; simpl.
  - by rewrite app_nil_r.
  - rewrite IH.
    + unfold blocks, register_block. rewrite blocks_from_alter by (apply Hcs; left).
      destruct c as [j s]. simpl. by rewrite <-app_assoc.
    + intros c' Hc'. unfold register_block. rewrite length_alter. apply Hcs. by right.
Qed.

Lemma blocks_from_replicate i count : blocks_from i (replicate count []) = [].
Proof. revert i. induction count as [|count IH]; intros i; simpl; [done|apply IH]. Qed.

Lemma bind_bind {A B C} (f : A → list B) (g : B → list C) (l : list A) :
  (l ≫= f) ≫= g = l ≫= (λ x, f x ≫= g).
Proof.
  induction l as [|x l IH]; [done|].
  by rewrite !bind_cons, bind_app, IH.
Qed.

Lemma runs_acc_cover pre ps p1 :
  p1 ≤ length pre →
  runs_acc ps p1 (length pre) ≫= (λ r, seq r.1 r.2)
  = seq p1 (length pre - p1) ++ filter (free_at (pre ++ ps)) (seq (length pre) (length ps)).
Proof.
  revert pre p1. induction ps as [|v ps IH]; intros pre p1 H12.
  - simpl. unfold close_run. rewrite app_nil_r. case_decide.
    + by rewrite bind_singleton.
    + by replace (length pre - p1) with 0 by lia.
  - assert (Hv : free_at (pre ++ v :: ps) (length pre) ↔ v = (-1)%Z).
    { unfold free_at. rewrite list_lookup_middle by done.
      split; [by intros [= ->] | by intros ->]. }
    simpl runs_acc. simpl seq. rewrite filter_cons. case_decide as Hfv.
    + rewrite decide_True by by apply Hv.
      specialize (IH (pre ++ [v]) p1). rewrite length_app in IH. simpl in IH.
      rewrite Nat.add_1_r in IH. rewrite IH by lia.
      rewrite <-app_assoc. simpl.
      replace (S (length pre) - p1) with ((length pre - p1) + 1) by lia.
      rewrite seq_app, <-app_assoc. simpl.
      by replace (p1 + (length pre - p1)) with (length pre) by lia.
    + rewrite decide_False by (by rewrite Hv).
      specialize (IH (pre ++ [v]) (S (length pre))). rewrite length_app in IH. simpl in IH.
      rewrite Nat.add_1_r, Nat.sub_diag in IH. rewrite bind_app, IH by lia.
      rewrite <-app_assoc. simpl. f_equal.
      unfold close_run. case_decide.
      * by rewrite bind_singleton.
      * by replace (length pre - p1) with 0 by lia.
Qed.

Lemma free_runs_cover ps : free_runs ps ≫= (λ r, seq r.1 r.2) = free_ids ps.
Proof.
  rewrite <-runs_acc_eq_free_runs. pose proof (runs_acc_cover [] ps 0) as H.
  simpl in H. by rewrite H.
Qed.

Lemma free_runs_bound ps r : r ∈ free_runs ps → r.1 + r.2 ≤ length ps.
Proof.
  intros Hr.
  assert (Hin : ∀ p, p ∈ seq r.1 r.2 → p ∈ free_ids ps).
  { intros p Hp. rewrite <-free_runs_cover. apply list_elem_of_bind. eauto. }
  destruct (decide (r.2 = 0)) as [H0|H0].
  - apply list_elem_of_fmap in Hr as (s & -> & Hs). simpl in *.
    apply list_elem_of_filter in Hs as [_ Hs%elem_of_seq]. lia.
  - specialize (Hin (r.1 + r.2 - 1)).
    rewrite elem_of_seq in Hin. unfold free_ids in Hin.
    rewrite list_elem_of_filter, elem_of_seq in Hin. lia.
Qed.

Lemma placement_covered count ps :
  Nat.log2 (length ps) < count →
  covered (placement count ps) ≡ₚ free_ids ps.
Proof.
  intros Hlog. unfold covered, placement. rewrite blocks_register_all.
  - unfold blocks. rewrite blocks_from_replicate. simpl.
    rewrite bind_bind, <-free_runs_cover.
    rewrite (list_bind_ext (λ r, chunks r ≫= block_range) (λ r, seq r.1 r.2)
               (free_runs ps) (free_runs ps)); [done| |done].
    intros [s len]. apply chunks_cover.
  - intros c [[s len] [Hc Hr]]%list_elem_of_bind. rewrite length_replicate.
    apply chunks_order_bound in Hc. apply free_runs_bound in Hr. simpl in Hr.
    assert (2 ^ c.1 ≠ 0) by (apply Nat.pow_nonzero; lia).
    assert (c.1 ≤ Nat.log2 (length ps)); [|lia].
    apply Nat.log2_le_pow2; lia.
Qed.

(** ** BuddySystem: rebuild and deallocation *)

Lemma placement_length count ps : length (placement count ps) = count.
Proof. unfold placement. by rewrite register_all_length, length_replicate. Qed.

Lemma shape_log2 MAX b : shape MAX b → Nat.log2 (length (pages b)) < buddy_count b.
Proof. intros (? & -> & -> & _). lia. Qed.

Lemma update_buddy_lists_spec MAX b :
  shape MAX b → update_buddy_lists b = Ok (rebuilt b).
Proof.
  intros Hs. unfold update_buddy_lists.
  rewrite rebuild_lists_placement; [done|apply Hs..|by eapply shape_log2].
Qed.

Lemma rebuilt_shape MAX b : shape MAX b → shape MAX (rebuilt b).
Proof.
  intros (? & ? & ? & ? & ?). repeat split; try done.
  simpl. apply placement_length.
Qed.

Lemma rebuilt_synced b : synced (rebuilt b).
Proof. done. Qed.

Lemma synced_partition MAX b : shape MAX b → synced b → partition_invariant b.
Proof.
  intros Hs Hsync. pose proof (shape_log2 _ _ Hs) as Hlog.
  unfold partition_invariant. rewrite Hsync.
  split.
  - rewrite placement_covered by done. apply NoDup_filter, NoDup_seq.
  - intros p. rewrite placement_covered by done. unfold free_ids.
    rewrite list_elem_of_filter, elem_of_seq. split; [by intros [? _]|].
    intros Hp. split; [done|]. apply lookup_lt_Some in Hp. lia.
Qed.

Lemma synced_blocks_free MAX b : shape MAX b → synced b → blocks_free b.
Proof.
  intros Hs Hsync c p Hc Hp.
  apply (synced_partition MAX b Hs Hsync). apply list_elem_of_bind. eauto.
Qed.

Lemma rebuilt_ok MAX b : shape MAX b → ids_in_range b → bs_ok MAX (rebuilt b).
Proof.
  intros Hs Hids. split; [by apply rebuilt_shape|]. split; [|done].
  eapply synced_blocks_free; [by apply rebuilt_shape|done].
Qed.

Lemma access_nonneg s n b :
  (0 ≤ access s n b)%Z →
  ∃ l, allocated_pages b !! s = Some l ∧ l !! n = Some (access s n b).
Proof.
  unfold access. destruct (allocated_pages b !! s) as [l|]; [|lia].
  destruct (l !! n) as [p|] eqn:E; [|lia]. eauto.
Qed.

Lemma freed_shape MAX s n b : shape MAX b → shape MAX (freed s n b).
Proof.
  intros (? & ? & ? & ? & Hall). unfold freed. case_bool_decide; [|done].
  repeat split; simpl; try done.
  - by rewrite length_insert.
  - apply Forall_insert; [done|lia].
Qed.

Lemma freed_ids_in_range s n b : ids_in_range b → ids_in_range (freed s n b).
Proof.
  intros Hids. unfold freed. case_bool_decide; [|done].
  intros s' l p. simpl. rewrite length_insert. intros Hl Hp.
  destruct (decide (s' = s)) as [->|Hne].
  - rewrite lookup_alter_eq in Hl.
    destruct (allocated_pages b !! s) as [l0|] eqn:E; [|done].
    injection Hl as <-.
    apply list_elem_of_lookup in Hp as [i Hi].
    apply list_lookup_insert_Some in Hi as [(_ & Hpe & _)|[_ Hi]].
    + subst p. pose proof (Hids s l0) as Hr.
      destruct (access_nonneg s n b) as (l1 & Hl1 & Hn); [done|].
      rewrite E in Hl1. injection Hl1 as <-.
      specialize (Hr _ E (list_elem_of_lookup_2 _ _ _ Hn)). lia.
    + eapply Hids; [done|]. by eapply list_elem_of_lookup_2.
  - rewrite lookup_alter_ne in Hl by done. by eapply Hids.
Qed.

Lemma deallocate_spec MAX s n b :
  bs_ok MAX b → deallocate s n b = Ok (access s n b, rebuilt (freed s n b)).
Proof.
  intros (Hs & _ & Hids). unfold deallocate.
  assert (Hb1 : (if bool_decide (0 ≤ access s n b)%Z then
                   if decide (Z.to_nat (access s n b) < length (pages b)) then
                     Ok (set_allocated_pages
                           (alter (λ l, <[n := (-1)%Z]> l) s (allocated_pages b))
                           (set_pages (<[Z.to_nat (access s n b) := (-1)%Z]> (pages b)) b))
                   else Err IndexError
                 else Ok b) = Ok (freed s n b)).
  { unfold freed. case_bool_decide as Hp; [|done].
    destruct (access_nonneg s n b Hp) as (l & Hl & Hn).
    specialize (Hids s l _ Hl (list_elem_of_lookup_2 _ _ _ Hn)).
    rewrite decide_True by lia. done. }
  rewrite Hb1. simpl.
  rewrite (update_buddy_lists_spec MAX) by by apply freed_shape. done.
Qed.

Lemma deallocated_ok MAX s n b : bs_ok MAX b → bs_ok MAX (rebuilt (freed s n b)).
Proof.
  intros (Hs & _ & Hids). apply rebuilt_ok; [by apply freed_shape|by apply freed_ids_in_range].
Qed.

(** ** BuddySystem: requests *)

Lemma mark_all_cons s p idl ps :
  mark_all s (p :: idl) ps = mark_all s idl (<[p := Z.of_nat s]> ps).
Proof. done. Qed.

Lemma mark_all_length s idl ps : length (mark_all s idl ps) = length ps.
Proof.
  revert ps. induction idl as [|p idl IH]; intros ps; [done|].
  by rewrite mark_all_cons, IH, length_insert.
Qed.

Lemma mark_all_lookup s idl ps q :
  q < length ps →
  mark_all s idl ps !! q = if decide (q ∈ idl) then Some (Z.of_nat s) else ps !! q.
Proof.
  revert ps. induction idl as [|p idl IH]; intros ps Hq; [done|].
  rewrite mark_all_cons, IH by by rewrite length_insert.
  destruct (decide (q ∈ idl)) as [Hin|Hin].
  - rewrite decide_True; [done|by right].
  - destruct (decide (q = p)) as [->|Hne].
    + rewrite decide_True by left. by rewrite list_lookup_insert_eq.
    + rewrite decide_False by (by intros [?|?]%elem_of_cons).
      by rewrite list_lookup_insert_ne.
Qed.

Lemma mark_all_Forall s idl ps :
  Forall (λ v, (-1 ≤ v)%Z) ps → Forall (λ v, (-1 ≤ v)%Z) (mark_all s idl ps).
Proof.
  revert ps. induction idl as [|p idl IH]; intros ps Hps; [done|].
  rewrite mark_all_cons. apply IH. apply Forall_insert; [done|lia].
Qed.

Lemma find_block_spec idxs lists :
  (∀ i, i ∈ idxs → i < length lists) →
  find_block idxs lists = Ok None ∨
  ∃ i s rest, find_block idxs lists = Ok (Some (i, s, <[i := rest]> lists)) ∧
              i ∈ idxs ∧ lists !! i = Some (s :: rest).
Proof.
  induction idxs as [|i idxs IH]; intros Hlen; [by left|].
  simpl. destruct (lookup_lt_is_Some_2 lists i) as [l Hl]; [apply Hlen; left|].
  rewrite Hl. destruct l as [|s rest].
  - destruct IH as [IH|(i' & s & rest & IH & Hi' & Hl')].
    + intros j Hj. apply Hlen. by right.
    + by left.
    + right. exists i', s, rest. split_and!; [done|by right|done].
  - right. exists i, s, rest. split_and!; [done|left|done].
Qed.

Lemma mark_pages_spec idl s pgs acc :
  (∀ p, p ∈ idl → p < length pgs) →
  mark_pages idl s pgs acc = Ok (mark_all s idl pgs, acc ++ (Z.of_nat <$> idl)).
Proof.
  revert pgs acc. induction idl as [|p idl IH]; intros pgs acc Hlen; simpl.
  - by rewrite app_nil_r.
  - rewrite decide_True by (apply Hlen; left).
    rewrite IH.
    + by rewrite <-app_assoc.
    + intros q Hq. rewrite length_insert. apply Hlen. by right.
Qed.

Lemma scatter_pages_spec idxs rest s pgs acc :
  NoDup idxs → (∀ i, i ∈ idxs → i < length pgs) → (1 ≤ rest)%Z →
  ∃ idl, scatter_pages idxs rest s pgs acc
           = (mark_all s idl pgs, acc ++ (Z.of_nat <$> idl)) ∧
         NoDup idl ∧ Forall (free_at pgs) idl ∧ (Z.of_nat (length idl) ≤ rest)%Z ∧
         (Z.of_nat (length idl) = rest ∨
          ∀ i, i ∈ idxs → ¬ free_at (mark_all s idl pgs) i).
Proof.
  revert rest pgs acc. induction idxs as [|i idxs IH]; intros rest pgs acc Hnd Hlen Hrest.
  - exists []. simpl. rewrite app_nil_r. split_and!; try done.
    + lia.
    + right. by intros i ?%elem_of_nil.
  - apply NoDup_cons in Hnd as [Hi Hnd]. simpl.
    destruct (lookup_lt_is_Some_2 pgs i) as [v Hv]; [apply Hlen; left|].
    rewrite Hv. case_bool_decide as Hfree.
    + subst v. case_bool_decide as Hlast.
      * exists [i]. simpl.
        split; [done|]. split; [apply NoDup_singleton|].
        split; [by apply Forall_singleton|]. split; [lia|left; lia].
      * destruct (IH (rest - 1)%Z (<[i := Z.of_nat s]> pgs) (acc ++ [Z.of_nat i]))
          as (idl & Heq & Hnd' & Hfree' & Hlen' & Hend); [done| |lia|].
        { intros j Hj. rewrite length_insert. apply Hlen. by right. }
        assert (Hnotin : i ∉ idl).
        { intros Hin. rewrite Forall_forall in Hfree'. specialize (Hfree' i Hin).
          unfold free_at in Hfree'. rewrite list_lookup_insert_eq in Hfree'; [|by eapply lookup_lt_Some].
          injection Hfree' as ?. lia. }
        exists (i :: idl). rewrite Heq, mark_all_cons, <-app_assoc. simpl.
        split; [done|]. split; [by apply NoDup_cons|]. split; [|split; [lia|]].
        -- apply Forall_cons. split; [done|].
           rewrite Forall_forall in Hfree' |- *. intros j Hj. specialize (Hfree' j Hj).
           unfold free_at in *. rewrite list_lookup_insert_ne in Hfree'; [done|].
           intros ->. done.
        -- destruct Hend as [Hend|Hend]; [left; lia|right].
           intros j [->|Hj]%elem_of_cons; [|by apply Hend].
           unfold free_at.
           assert (i < length pgs) by (by eapply lookup_lt_Some).
           rewrite mark_all_lookup by by rewrite length_insert.
           rewrite decide_False by done.
           rewrite list_lookup_insert_eq by done.
           intros [= ?]. lia.
    + destruct (IH rest pgs acc) as (idl & Heq & Hnd' & Hfree' & Hlen' & Hend); [done| |lia|].
      { intros j Hj. apply Hlen. by right. }
      exists idl. do 4 (split; [done|]).
      destruct Hend as [Hend|Hend]; [by left|right].
      intros j [->|Hj]%elem_of_cons; [|by apply Hend].
      unfold free_at. rewrite mark_all_lookup by (by eapply lookup_lt_Some).
      case_decide; [intros [= ?]; lia|]. rewrite Hv. by intros [= ?].
Qed.

Lemma blocks_from_lookup k lists i l s :
  lists !! i = Some l → s ∈ l → (k + i, s) ∈ blocks_from k lists.
Proof.
  revert k i. induction lists as [|l0 lists IH]; intros k i Hi Hs; [done|].
  simpl. apply elem_of_app. destruct i as [|i].
  - injection Hi as ->. left. rewrite Nat.add_0_r. apply list_elem_of_fmap. eauto.
  - right. replace (k + S i) with (S k + i) by lia. by apply IH.
Qed.

Lemma log2_up_pow2 n : 1 ≤ n → n ≤ 2 ^ Nat.log2_up n.
Proof.
  intros Hn. destruct (decide (n = 1)) as [->|Hne]; [done|].
  apply Nat.log2_up_spec. lia.
Qed.

Lemma marked_shape MAX s idl b :
  shape MAX b → shape MAX (set_pages (mark_all s idl (pages b)) b).
Proof.
  intros (? & ? & ? & ? & ?). repeat split; simpl; try done.
  - by rewrite mark_all_length.
  - by apply mark_all_Forall.
Qed.

Lemma request_pages_spec MAX s num b :
  bs_ok MAX b → 1 ≤ num →
  ∃ ids b', request_pages s num b = Ok (ids, b') ∧ requested s num ids b b'.
Proof.
  intros (Hs & Hfree & Hids) Hnum. unfold request_pages.
  rewrite decide_False by lia.
  assert (Hlen : length (buddy_lists b) = buddy_count b) by apply Hs.
  destruct (find_block_spec (seq (Nat.log2_up num) (buddy_count b - Nat.log2_up num))
              (buddy_lists b)) as [Hnone|(i & start & rest & Hsome & Hi & Hl)].
  { intros i Hi%elem_of_seq. lia. }
  - rewrite Hnone. simpl.
    destruct (scatter_pages_spec (seq 0 (length (pages b))) (Z.of_nat num) s (pages b) [])
      as (idl & Heq & Hnd & Hfr & Hle & Hend).
    { apply NoDup_seq. } { intros i Hi%elem_of_seq. lia. } { lia. }
    rewrite Heq. simpl.
    rewrite (update_buddy_lists_spec MAX) by (by apply (marked_shape MAX s idl b)).
    simpl. eexists _, _. split; [done|]. exists idl.
    split; [done|]. split; [done|]. split; [done|]. split; [lia|]. split; [|done].
    destruct Hend as [Hend|Hend]; [left; lia|right].
    intros p Hp. simpl in Hp. apply (Hend p); [|done].
    apply elem_of_seq. apply lookup_lt_Some in Hp. rewrite mark_all_length in Hp. lia.
  - rewrite Hsome. simpl.
    apply elem_of_seq in Hi.
    assert (Hrange : ∀ p, p ∈ seq start num → free_at (pages b) p).
    { intros p Hp%elem_of_seq. apply (Hfree (i, start)).
      - apply (blocks_from_lookup 0 _ _ _ _ Hl). left.
      - apply elem_of_seq. simpl.
        pose proof (log2_up_pow2 num Hnum).
        assert (2 ^ Nat.log2_up num ≤ 2 ^ i) by (apply Nat.pow_le_mono_r; lia).
        lia. }
    rewrite mark_pages_spec.
    2:{ intros p Hp. apply Hrange in Hp. by eapply lookup_lt_Some. }
    simpl.
    rewrite (update_buddy_lists_spec MAX).
    2:{ apply (marked_shape MAX s (seq start num)
                 (set_buddy_lists (<[i:=rest]> (buddy_lists b)) b)).
        destruct Hs as (? & ? & ? & ? & ?). repeat split; simpl; try done.
        by rewrite length_insert. }
    simpl. eexists _, _. split; [done|]. exists (seq start num).
    split; [done|]. split; [apply NoDup_seq|]. split; [by apply Forall_forall|].
    rewrite length_seq. split; [done|]. split; [by left|done].
Qed.

Lemma requested_ok MAX s num ids b b' :
  bs_ok MAX b → requested s num ids b b' →
  bs_ok MAX b' ∧ synced b' ∧ allocated_pages b' = allocated_pages b ∧
  Forall (λ p, (0 ≤ p < Z.of_nat (length (pages b')))%Z) ids.
Proof.
  intros (Hs & Hfree & Hids) (idl & -> & Hnd & Hfr & _ & _ & ->).
  split; [|split; [done|split; [done|]]].
  - apply rebuilt_ok; [by apply marked_shape|].
    intros s' l p. simpl. rewrite mark_all_length. apply Hids.
  - simpl. rewrite mark_all_length. apply Forall_fmap.
    eapply Forall_impl; [done|]. intros p Hp%lookup_lt_Some. simpl. lia.
Qed.

(** ** LRU: deletion, reclaiming, insertion, promotion *)

Lemma remove_first_length x l : length (remove_first x l) ≤ length l.
Proof.
  induction l as [|y l IH]; [done|]. simpl. case_decide; simpl; lia.
Qed.

Lemma remove_first_absent x l : x ∉ l → remove_first x l = l.
Proof.
  induction l as [|y l IH]; [done|]. intros Hx. simpl.
  rewrite decide_False by (intros ->; apply Hx; left).
  f_equal. apply IH. intros ?. apply Hx. by right.
Qed.

Lemma delete_loop_length fuel i p l : length (delete_loop fuel i p l) ≤ length l.
Proof.
  revert i l. induction fuel as [|fuel IH]; intros i l; [done|].
  simpl. destruct (l !! i) as [nd|]; [|done].
  case_bool_decide; [|apply IH].
  etrans; [apply IH|apply remove_first_length].
Qed.

Lemma delete_loop_absent fuel i p l :
  (∀ nd, nd ∈ l → page_id_of nd ≠ p) → delete_loop fuel i p l = l.
Proof.
  revert i. induction fuel as [|fuel IH]; intros i Hl; [done|].
  simpl. destruct (l !! i) as [nd|] eqn:E; [|done].
  rewrite bool_decide_eq_false_2; [by apply IH|].
  apply Hl. by eapply list_elem_of_lookup_2.
Qed.

(** [length l] rounds are enough: more fuel does not change the result. *)
Lemma delete_loop_fuel fuel k i p l :
  length l ≤ fuel + i →
  delete_loop (fuel + k) i p l = delete_loop fuel i p l.
Proof.
  revert i l. induction fuel as [|fuel IH]; intros i l Hlen.
  - simpl. destruct k as [|k]; [done|]. simpl.
    by rewrite lookup_ge_None_2 by lia.
  - simpl. destruct (l !! i) as [nd|]; [|done].
    case_bool_decide; apply IH; [|lia].
    pose proof (remove_first_length nd l). lia.
Qed.

Lemma delete_in_length p l : length (delete_in p l) ≤ length l.
Proof. apply delete_loop_length. Qed.

Lemma delete_in_absent p l :
  (∀ nd, nd ∈ l → page_id_of nd ≠ p) → delete_in p l = l.
Proof. apply delete_loop_absent. Qed.

Lemma delete_absent p r :
  (∀ nd, nd ∈ nodes r → page_id_of nd ≠ p) → delete p r = r.
Proof.
  intros Hr. unfold delete, nodes in *. destruct r as [act ina sa si b]. simpl in *.
  unfold set_active_list, set_inactive_list. simpl.
  rewrite !delete_in_absent; [done|..].
  - intros nd Hnd. apply Hr, elem_of_app. by left.
  - intros nd Hnd. apply Hr, elem_of_app. by right.
Qed.

Lemma reclaim_spec MAX p s n r :
  bs_ok MAX (buddy_system r) → reclaim p s n r = Ok (reclaimed p s n r).
Proof.
  intros Hok. unfold reclaim. simpl.
  by rewrite (deallocate_spec MAX).
Qed.

Lemma reclaimed_bs_ok MAX p s n r :
  bs_ok MAX (buddy_system r) → bs_ok MAX (buddy_system (reclaimed p s n r)).
Proof. intros Hok. simpl. by apply deallocated_ok. Qed.

Lemma reclaimed_inactive_length p s n r :
  length (inactive_list (reclaimed p s n r)) ≤ length (inactive_list r).
Proof. simpl. apply delete_in_length. Qed.

Lemma reclaimed_active_length p s n r :
  length (active_list (reclaimed p s n r)) ≤ length (active_list r).
Proof. simpl. apply delete_in_length. Qed.

Lemma insert_inactive_room p s n r :
  length (inactive_list r) < size_inactive r →
  insert_inactive p s n r
  = Ok (set_inactive_list (inactive_list r ++ [(p, s, n)]) r).
Proof.
  intros Hlen. unfold insert_inactive. simpl.
  rewrite decide_False; [done|]. rewrite length_app. simpl. lia.
Qed.

Lemma insert_inactive_spec MAX p s n r :
  bs_ok MAX (buddy_system r) → length (inactive_list r) ≤ size_inactive r →
  insert_inactive p s n r = Ok (inserted p s n r).
Proof.
  intros Hok Hcap. unfold inserted. case_decide as Hlt.
  - by apply insert_inactive_room.
  - unfold insert_inactive. simpl. rewrite length_app. simpl.
    rewrite decide_True by lia.
    replace (length (inactive_list r) + 1 - size_inactive r) with 1 by lia.
    destruct (inactive_list r ++ [(p, s, n)]) as [|nd l] eqn:E.
    { by destruct (inactive_list r). }
    simpl. rewrite (reclaim_spec MAX) by done. done.
Qed.

Lemma inserted_safe MAX p s n r :
  bs_ok MAX (buddy_system r) → length (inactive_list r) ≤ size_inactive r →
  bs_ok MAX (buddy_system (inserted p s n r)) ∧
  length (inactive_list (inserted p s n r)) ≤ size_inactive r ∧
  length (active_list (inserted p s n r)) ≤ length (active_list r) ∧
  size_inactive (inserted p s n r) = size_inactive r ∧
  size_active (inserted p s n r) = size_active r.
Proof.
  intros Hok Hcap. unfold inserted. case_decide as Hlt.
  - simpl. rewrite length_app. simpl. split_and!; try done. lia.
  - destruct (inactive_list r ++ [(p, s, n)]) as [|nd l] eqn:E.
    { by destruct (inactive_list r). }
    apply (f_equal length) in E. rewrite length_app in E. simpl in E.
    split; [apply (reclaimed_bs_ok MAX); exact Hok|].
    split; [etrans; [apply reclaimed_inactive_length|simpl; lia]|].
    split; [apply (reclaimed_active_length _ _ _ (set_inactive_list l r))|done].
Qed.

Lemma find_pos_Some p l k i :
  find_pos p l k = Some i →
  ∃ nd, k ≤ i ∧ l !! (i - k) = Some nd ∧ page_id_of nd = p.
Proof.
  revert k. induction l as [|nd l IH]; intros k; [done|]. simpl.
  case_bool_decide as Hp.
  - intros [= <-]. exists nd. rewrite Nat.sub_diag. done.
  - intros (nd' & Hk & Hl & Hnd')%IH. exists nd'. split; [lia|]. split; [|done].
    by replace (i - k) with (S (i - S k)) by lia.
Qed.

Lemma find_pos_None p l k :
  find_pos p l k = None ↔ ∀ nd, nd ∈ l → page_id_of nd ≠ p.
Proof.
  revert k. induction l as [|nd l IH]; intros k; simpl.
  - split; [|done]. by intros _ nd ?%elem_of_nil.
  - case_bool_decide as Hp.
    + split; [done|]. intros Hall. destruct (Hall nd); [left|done].
    + rewrite IH. split.
      * intros Hall nd' [->|?]%elem_of_cons; [done|by apply Hall].
      * intros Hall nd' ?. apply Hall. by right.
Qed.

Lemma find_pos_app p l1 nd l2 k :
  (∀ x, x ∈ l1 → page_id_of x ≠ p) → page_id_of nd = p →
  find_pos p (l1 ++ nd :: l2) k = Some (k + length l1).
Proof.
  revert k. induction l1 as [|x l1 IH]; intros k Hl1 Hp; simpl.
  - rewrite bool_decide_eq_true_2 by done. f_equal. lia.
  - rewrite bool_decide_eq_false_2 by (apply Hl1; left).
    rewrite IH; [f_equal; lia| |done]. intros y Hy. apply Hl1. by right.
Qed.

Lemma promote_spec p r : capacity r → promote p r = Ok (promoted p r).
Proof.
  intros [Hact Hina]. unfold promote, promoted, find_index.
  destruct (find_pos p (inactive_list r) 0) as [i|] eqn:E.
  - apply find_pos_Some in E as (nd & _ & Hnd & _). rewrite Nat.sub_0_r in Hnd.
    rewrite bool_decide_eq_true_2 by done. rewrite Nat2Z.id.
    unfold pop_at. rewrite Hnd. simpl. rewrite length_app. simpl.
    case_decide as Hfull; [|done].
    replace (length (active_list r) + 1 - size_active r) with 1 by lia.
    destruct (active_list r ++ [nd]) as [|hd tl] eqn:Eact.
    { by destruct (active_list r). }
    simpl. rewrite insert_inactive_room.
    + by destruct hd as [[hp hs] hn].
    + simpl. rewrite length_delete by done.
      apply lookup_lt_Some in Hnd. lia.
  - destruct (find_pos p (active_list r) 0); by rewrite bool_decide_eq_false_2.
Qed.

Lemma promoted_buddy_system p r : buddy_system (promoted p r) = buddy_system r.
Proof.
  unfold promoted. repeat (case_match; try done).
Qed.

Lemma promoted_sizes p r :
  size_active (promoted p r) = size_active r ∧
  size_inactive (promoted p r) = size_inactive r.
Proof.
  unfold promoted. repeat (case_match; try done).
Qed.

Lemma promoted_nodes p r : nodes (promoted p r) ≡ₚ nodes r.
Proof.
  unfold promoted, nodes.
  destruct (find_pos p (inactive_list r) 0) as [i|]; [|done].
  destruct (inactive_list r !! i) as [nd|] eqn:Hnd; [|done].
  assert (Hsplit : inactive_list r ≡ₚ nd :: base.delete i (inactive_list r)).
  { by apply delete_Permutation. }
  revert Hsplit. generalize (base.delete i (inactive_list r)). intros D Hsplit.
  case_decide.
  - destruct (active_list r ++ [nd]) as [|hd tl] eqn:Eact; [done|]. simpl.
    rewrite <-app_assoc. simpl. rewrite <-Eact, Hsplit. simpl.
    by rewrite app_assoc, <-Permutation_cons_append.
  - simpl. rewrite Hsplit. simpl.
    by rewrite app_assoc, <-Permutation_cons_append.
Qed.

Lemma promoted_capacity p r : capacity r → capacity (promoted p r).
Proof.
  intros [Hact Hina]. unfold promoted, capacity.
  destruct (find_pos p (inactive_list r) 0) as [i|]; [|done].
  destruct (inactive_list r !! i) as [nd|] eqn:Hnd; [|done].
  pose proof (lookup_lt_Some _ _ _ Hnd) as Hi.
  case_decide as Hfull.
  - destruct (active_list r ++ [nd]) as [|hd tl] eqn:Eact; [done|].
    apply (f_equal length) in Eact. rewrite length_app in Eact. simpl in *.
    rewrite length_app, length_delete by done. simpl. lia.
  - simpl in *. rewrite length_delete by done. lia.
Qed.

(** ** Safety of the compound operations *)

Lemma shrinks_refl r : shrinks r r.
Proof. by repeat split. Qed.

Lemma shrinks_trans r1 r2 r3 : shrinks r1 r2 → shrinks r2 r3 → shrinks r1 r3.
Proof.
  intros (? & ? & ? & ?) (? & ? & ? & ?). repeat split; [congruence..|lia|lia].
Qed.

Lemma shrinks_capacity r r' : capacity r → shrinks r r' → capacity r'.
Proof. intros [? ?] (Ha & Hi & ? & ?). unfold capacity. rewrite Ha, Hi. lia. Qed.

Lemma reclaimed_shrinks p s n r : shrinks r (reclaimed p s n r).
Proof.
  repeat split; [apply reclaimed_active_length|apply reclaimed_inactive_length].
Qed.

Lemma reclaim_loop_spec MAX n locals r :
  bs_ok MAX (buddy_system r) →
  n = 0 ∨ locals ≠ None ∨ nodes r ≠ [] →
  ∃ r', reclaim_loop n locals r = Ok r' ∧ bs_ok MAX (buddy_system r') ∧
        shrinks r r' ∧ (0 < n → synced (buddy_system r')).
Proof.
  revert locals r. induction n as [|n IH]; intros locals r Hok Hne.
  - exists r. split; [done|]. split; [done|]. split; [apply shrinks_refl|lia].
  - simpl.
    assert (Hgo : ∀ nd r1, bs_ok MAX (buddy_system r1) → shrinks r r1 →
      ∃ r', (reclaim (page_id_of nd) (seqno_of nd) (num_of nd) r1
             ≫= λ r2, reclaim_loop n (Some nd) r2) = Ok r' ∧
            bs_ok MAX (buddy_system r') ∧ shrinks r r' ∧
            (0 < S n → synced (buddy_system r'))).
    { intros nd r1 Hok1 Hsh. rewrite (reclaim_spec MAX) by done. simpl.
      destruct (IH (Some nd) (reclaimed (page_id_of nd) (seqno_of nd) (num_of nd) r1))
        as (r' & Hr' & Hok' & Hsh' & Hsync); [by apply reclaimed_bs_ok|by right; left|].
      exists r'. split; [done|]. split; [done|]. split.
      - eapply shrinks_trans; [done|]. eapply shrinks_trans; [|done].
        apply reclaimed_shrinks.
      - intros _. destruct n as [|n']; [|apply Hsync; lia].
        simpl in Hr'. injection Hr' as <-. done. }
    destruct (inactive_list r) as [|nd l] eqn:Ei.
    + destruct (active_list r) as [|nd l] eqn:Ea.
      * destruct locals as [nd|].
        -- apply Hgo; [done|apply shrinks_refl].
        -- destruct Hne as [?|[?|Hne]]; [done|done|].
           unfold nodes in Hne. by rewrite Ei, Ea in Hne.
      * apply Hgo; [done|]. repeat split; simpl; rewrite ?Ea, ?Ei; simpl; lia.
    + apply Hgo; [done|]. repeat split; simpl; rewrite ?Ei; simpl; lia.
Qed.

Lemma reclaim_loop_unbound n r :
  0 < n → nodes r = [] → reclaim_loop n None r = Err UnboundLocalError.
Proof.
  intros Hn Hr. destruct n as [|n]; [lia|]. simpl.
  apply app_eq_nil in Hr as [-> ->]. done.
Qed.

Lemma reclaim_n_pages_safe MAX n r r' :
  bs_ok MAX (buddy_system r) → reclaim_n_pages n r = Ok r' →
  bs_ok MAX (buddy_system r') ∧ shrinks r r' ∧ (0 < n → synced (buddy_system r')).
Proof.
  intros Hok Hr. unfold reclaim_n_pages in Hr.
  destruct (decide (n = 0 ∨ nodes r ≠ [])) as [Hne|Hne].
  - destruct (reclaim_loop_spec MAX n None r Hok) as (r'' & Hr'' & H); [destruct Hne; auto|].
    rewrite Hr in Hr''. by injection Hr'' as <-.
  - rewrite reclaim_loop_unbound in Hr; [done|lia|].
    destruct (nodes r); [done|]. destruct Hne. by right.
Qed.

Lemma inserted_synced p s n r :
  synced (buddy_system r) → synced (buddy_system (inserted p s n r)).
Proof.
  intros Hs. unfold inserted. case_decide; [done|].
  by destruct (inactive_list r ++ [(p, s, n)]).
Qed.

Lemma insert_pages_spec MAX idxs s r :
  safe MAX r →
  ∃ r', insert_pages idxs s r = Ok r' ∧ safe MAX r' ∧
        size_active r' = size_active r ∧ size_inactive r' = size_inactive r ∧
        (synced (buddy_system r) → synced (buddy_system r')).
Proof.
  revert r. induction idxs as [|idx idxs IH]; intros r Hsafe; simpl.
  - by exists r.
  - destruct (allocated_pages (buddy_system r) !! s ≫= λ l, l !! idx) as [p|]; [|by exists r].
    destruct Hsafe as [Hok [Hact Hina]].
    rewrite (insert_inactive_spec MAX) by done. simpl.
    destruct (inserted_safe MAX p s idx r Hok Hina) as (Hok' & Hi' & Ha' & Hsi & Hsa).
    destruct (IH (inserted p s idx r)) as (r' & Hr' & Hsafe' & Hsa' & Hsi' & Hsync).
    { split; [done|]. unfold capacity. rewrite Hsi, Hsa. lia. }
    exists r'. split; [done|]. split; [done|]. split; [congruence|]. split; [congruence|].
    intros Hs. by apply Hsync, inserted_synced.
Qed.

Lemma reclaim_and_request_safe MAX s k r ids r1 :
  safe MAX r → reclaim_and_request s k r = Ok (ids, r1) →
  ∃ r0, bs_ok MAX (buddy_system r0) ∧ shrinks r r0 ∧ 1 ≤ k ∧
        requested s k ids (buddy_system r0) (buddy_system r1) ∧
        r1 = set_buddy_system (buddy_system r1) r0.
Proof.
  intros [Hok Hcap] Hr. unfold reclaim_and_request in Hr.
  inv_bind Hr. rename x into r0.
  assert (bs_ok MAX (buddy_system r0) ∧ shrinks r r0) as [Hok0 Hsh].
  { case_decide.
    - injection Hx as <-. split; [done|apply shrinks_refl].
    - apply (reclaim_n_pages_safe MAX) in Hx as (? & ? & _); done. }
  inv_bind Hr. destruct x as [ids' b]. injection Hr as -> <-.
  destruct (decide (k = 0)) as [->|Hk].
  { unfold request_pages in Hx0. done. }
  destruct (request_pages_spec MAX s k (buddy_system r0)) as (ids' & b' & Hreq & Hspec);
    [done|lia|].
  rewrite Hx0 in Hreq. injection Hreq as <- <-.
  exists r0. split; [done|]. split; [done|]. split; [lia|]. split; done.
Qed.

Lemma allocate_ok MAX ids s b :
  bs_ok MAX b → Forall (λ p, (0 ≤ p < Z.of_nat (length (pages b)))%Z) ids →
  bs_ok MAX (allocate ids s b).
Proof.
  intros (Hs & Hfree & Hids) Hin. split; [done|]. split; [done|].
  intros s' l p. simpl. intros Hl Hp.
  destruct (decide (s' = s)) as [->|Hne].
  - rewrite lookup_insert_eq in Hl. injection Hl as <-.
    rewrite Forall_forall in Hin. specialize (Hin p Hp). lia.
  - rewrite lookup_insert_ne in Hl by done. by eapply Hids.
Qed.

Lemma allocate_at_ok MAX ids s n b b' :
  bs_ok MAX b → Forall (λ p, (0 ≤ p < Z.of_nat (length (pages b)))%Z) ids →
  allocate_at ids s n b = Ok b' →
  bs_ok MAX b' ∧ buddy_lists b' = buddy_lists b ∧ pages b' = pages b ∧
  buddy_count b' = buddy_count b.
Proof.
  intros (Hs & Hfree & Hids) Hin Hb. unfold allocate_at in Hb.
  destruct (last ids) as [p|] eqn:Hlast; [|done].
  destruct (allocated_pages b !! s) as [l|] eqn:Hl; [|done].
  case_decide; [|done]. injection Hb as <-.
  split; [|done]. split; [done|]. split; [done|].
  intros s' l' q. simpl. intros Hl' Hq.
  destruct (decide (s' = s)) as [->|Hne].
  - rewrite lookup_insert_eq in Hl'. injection Hl' as <-.
    apply list_elem_of_lookup in Hq as [i Hi].
    apply list_lookup_insert_Some in Hi as [(_ & Hqe & _)|[_ Hi]].
    + subst q. rewrite Forall_forall in Hin.
      specialize (Hin p). rewrite last_Some in Hlast. destruct Hlast as [l0 ->].
      specialize (Hin ltac:(apply elem_of_app; right; left)). lia.
    + eapply Hids; [done|]. by eapply list_elem_of_lookup_2.
  - rewrite lookup_insert_ne in Hl' by done. by eapply Hids.
Qed.

Lemma delete_shrinks p r : shrinks r (delete p r).
Proof. repeat split; simpl; apply delete_in_length. Qed.

Lemma step_safe MAX r i r' :
  safe MAX r → tidy (buddy_system r) → step r i = Ok r' →
  safe MAX r' ∧ synced (buddy_system r') ∧
  size_active r' = size_active r ∧ size_inactive r' = size_inactive r.
Proof.
  intros Hsafe Htidy Hstep. pose proof Hsafe as [Hok Hcap].
  unfold step in Hstep. destruct (act i).
  - (* A *)
    inv_bind Hstep. destruct x as [ids r1].
    apply (reclaim_and_request_safe MAX) in Hx as (r0 & Hok0 & Hsh & Hk & Hreq & Hr1); [|done].
    destruct (requested_ok MAX _ _ _ _ _ Hok0 Hreq) as (Hok1 & Hsync & Halloc & Hin).
    destruct (insert_pages_spec MAX (seq 0 (length ids)) (seqno i)
                (set_buddy_system (allocate ids (seqno i) (buddy_system r1)) r1))
      as (r'' & Hr'' & Hsafe'' & Hsa & Hsi & Hsync'').
    { split; [by apply allocate_ok|].
      rewrite Hr1. apply (shrinks_capacity r); [done|]. apply Hsh. }
    rewrite Hstep in Hr''. injection Hr'' as <-.
    split; [done|]. split; [by apply Hsync''|].
    rewrite Hsa, Hsi, Hr1. simpl. split; apply Hsh.
  - (* X *)
    case_bool_decide as Hres.
    + rewrite promote_spec in Hstep by done. injection Hstep as <-.
      destruct (promoted_sizes (access (seqno i) (num i) (buddy_system r)) r) as [Hsa Hsi].
      split; [split|].
      * by rewrite promoted_buddy_system.
      * by apply promoted_capacity.
      * rewrite promoted_buddy_system. split; [|done].
        destruct Htidy as [?|Hempty]; [done|].
        unfold access in Hres. rewrite Hempty, lookup_empty in Hres. lia.
    + unfold page_fault in Hstep. inv_bind Hstep. destruct x as [ids r1].
      apply (reclaim_and_request_safe MAX) in Hx as (r0 & Hok0 & Hsh & Hk & Hreq & Hr1); [|done].
      destruct (requested_ok MAX _ _ _ _ _ Hok0 Hreq) as (Hok1 & Hsync & Halloc & Hin).
      inv_bind Hstep. rename x into b.
      apply (allocate_at_ok MAX) in Hx as (Hokb & Hbl & Hbp & Hbc); [|done..].
      destruct (last ids) as [p|]; [|done].
      assert (Hina : length (inactive_list (set_buddy_system b r1))
                     ≤ size_inactive (set_buddy_system b r1)).
      { rewrite Hr1. simpl. destruct Hsh as (? & -> & ? & ?). destruct Hcap. lia. }
      rewrite (insert_inactive_spec MAX) in Hstep by done. injection Hstep as <-.
      destruct (inserted_safe MAX p (seqno i) (num i) (set_buddy_system b r1) Hokb Hina)
        as (Hok' & Hi' & Ha' & Hsi & Hsa).
      assert (Hsz : size_active r1 = size_active r ∧ size_inactive r1 = size_inactive r
                    ∧ length (active_list r1) ≤ length (active_list r)).
      { rewrite Hr1. simpl. destruct Hsh as (? & ? & ? & ?). done. }
      destruct Hsz as (Hsz1 & Hsz2 & Hsz3). simpl in *.
      split; [split; [done|]|].
      * unfold capacity. rewrite Hsi, Hsa. simpl. destruct Hcap. lia.
      * split; [|by rewrite Hsi, Hsa].
        apply inserted_synced. simpl. unfold synced. by rewrite Hbl, Hbp, Hbc.
  - (* F *)
    rewrite (deallocate_spec MAX) in Hstep by done. simpl in Hstep.
    injection Hstep as <-. split; [split|done].
    + simpl. by apply deallocated_ok.
    + eapply shrinks_capacity; [done|].
      apply (delete_shrinks _ (set_buddy_system _ r)).
Qed.

Lemma blocks_from_elem k lists c :
  c ∈ blocks_from k lists →
  ∃ l, k ≤ c.1 ∧ lists !! (c.1 - k) = Some l ∧ c.2 ∈ l.
Proof.
  revert k. induction lists as [|l0 lists IH]; intros k; simpl.
  - by intros ?%elem_of_nil.
  - intros [Hc|Hc]%elem_of_app.
    + apply list_elem_of_fmap in Hc as (s & -> & Hs). simpl.
      exists l0. by rewrite Nat.sub_diag.
    + apply IH in Hc as (l & Hk & Hl & Hc). exists l. split; [lia|]. split; [|done].
      by replace (c.1 - k) with (S (c.1 - S k)) by lia.
Qed.

Lemma simulator_safe MAX sa si r :
  simulator MAX sa si = Ok r →
  safe MAX r ∧ allocated_pages (buddy_system r) = ∅ ∧
  size_active r = sa ∧ size_inactive r = si ∧ nodes r = [].
Proof.
  unfold simulator, BuddySystem_init. case_decide as HM; [done|]. simpl.
  intros [= <-]. simpl. split; [|done]. split; [|by split; simpl; lia].
  split; [|split].
  - repeat split; simpl.
    + lia.
    + by rewrite length_replicate.
    + by rewrite length_insert, length_replicate.
    + apply Forall_replicate. lia.
  - intros c p Hc Hp. simpl in *.
    apply blocks_from_elem in Hc as (l & _ & Hl & Hc). rewrite Nat.sub_0_r in Hl.
    apply list_lookup_insert_Some in Hl as [(Hi & <- & _)|[_ Hl]].
    + apply list_elem_of_singleton in Hc. unfold block_range in Hp.
      apply elem_of_seq in Hp. rewrite Hc in Hp. rewrite <-Hi in Hp.
      replace (Nat.log2 MAX + 1 - 1) with (Nat.log2 MAX) in Hp by lia.
      pose proof (Nat.log2_spec MAX ltac:(lia)) as [Hlog _].
      unfold free_at. apply lookup_replicate_2. lia.
    + apply lookup_replicate in Hl as [-> _]. by apply elem_of_nil in Hc.
  - intros s l p. simpl. by rewrite lookup_empty.
Qed.

Lemma run_safe MAX r trace r' :
  safe MAX r → tidy (buddy_system r) → run r trace = Ok r' →
  safe MAX r' ∧ tidy (buddy_system r') ∧
  (trace ≠ [] → synced (buddy_system r')) ∧
  size_active r' = size_active r ∧ size_inactive r' = size_inactive r.
Proof.
  revert r. induction trace as [|i trace IH]; intros r Hsafe Htidy Hrun; simpl in Hrun.
  - injection Hrun as <-. done.
  - inv_bind Hrun. rename x into r1.
    apply (step_safe MAX) in Hx as (Hsafe1 & Hsync1 & Hsa1 & Hsi1); [|done..].
    destruct (IH r1) as (Hsafe' & Htidy' & Hsync' & Hsa' & Hsi'); [done|by left|done|].
    split; [done|]. split; [done|]. split; [|by rewrite Hsa', Hsi'].
    intros _. destruct trace as [|j trace]; [|by apply Hsync'].
    simpl in Hrun. by injection Hrun as <-.
Qed.

(** * Properties of the specification *)

Example placement_example :
  placement 4 [3; -1; -1; -1; -1; -1; -1; 2]%Z = [[]; [1]; [3]; []].
Proof. reflexivity. Qed.

(** C1. Partition invariant: after processing any event of a trace, the
    pages [s, s + 2^i) of the start ids [s] recorded in the free list of
    order [i] are exactly the slots of the page array marked free, and no
    page is covered twice. *)
Theorem partition_invariant_after_event MAX sa si trace r :
  trace ≠ [] → simulate MAX sa si trace = Ok r →
  partition_invariant (buddy_system r).
Proof.
  intros Hne Hsim. unfold simulate in Hsim. inv_bind Hsim. rename x into r0.
  apply simulator_safe in Hx as (Hsafe & Hempty & _).
  apply (run_safe MAX) in Hsim as ([[Hshape _] _] & _ & Hsync & _); [|done|by right].
  apply (synced_partition MAX); [done|by apply Hsync].
Qed.

Lemma partition_invariant_after_event_witness :
  ∃ r, simulate 8 2 2 [mkInstr A 1 4; mkInstr X 1 2; mkInstr F 1 3] = Ok r ∧
       partition_invariant (buddy_system r).
Proof.
  eexists. split; [vm_compute; reflexivity|].
  apply (partition_invariant_after_event 8 2 2
           [mkInstr A 1 4; mkInstr X 1 2; mkInstr F 1 3]);
    [discriminate|vm_compute; reflexivity].
Defined.

(** C4. Placement rule of the free-list rebuild: the rebuild registers, for
    every maximal run of free slots from left to right, one block per set
    bit of the run length, least significant bit first, each block starting
    right after the previous one; the free list of order [i] holds the
    start ids of the chunks of order [i] in that order; the chunks of a run
    come in increasing order of size and cover the run exactly, lowest
    addresses first. *)
Theorem rebuild_placement_rule MAX b :
  shape MAX b →
  update_buddy_lists b
  = Ok (set_buddy_lists (placement (buddy_count b) (pages b)) b) ∧
  (∀ i, i < buddy_count b →
     placement (buddy_count b) (pages b) !! i
     = Some (snd <$> filter (λ c, c.1 = i) (free_runs (pages b) ≫= chunks))) ∧
  ∀ s len, fst <$> chunks (s, len) = set_bits len ∧
           chunks (s, len) ≫= block_range = seq s len.
Proof.
  intros Hs. split; [by apply (update_buddy_lists_spec MAX)|].
  split; [intros i Hi; by apply placement_lookup|].
  intros s len. split; [|apply chunks_cover].
  unfold chunks. simpl. generalize (set_bits len). intros orders. revert s.
  induction orders as [|j orders IH]; intros s; [done|].
  simpl. f_equal. apply IH.
Qed.

Lemma rebuild_placement_rule_witness :
  update_buddy_lists
    (mkBuddySystem 4 [[0]; []; []; [5]] [3; -1; -1; -1; -1; -1; -1; 2]%Z ∅)
  = Ok (mkBuddySystem 4 [[]; [1]; [3]; []] [3; -1; -1; -1; -1; -1; -1; 2]%Z ∅).
Proof.
  refine (proj1 (rebuild_placement_rule 8
            (mkBuddySystem 4 [[0]; []; []; [5]] [3; -1; -1; -1; -1; -1; -1; 2]%Z ∅) _)).
  repeat split; simpl; try lia.
  repeat (constructor; [lia|]). constructor.
Defined.

(** C6. List capacity invariant: after processing any event of a trace
    the active list holds at most [size_active] nodes and the inactive list
    at most [size_inactive]. *)
Theorem list_capacity_invariant MAX sa si trace r :
  simulate MAX sa si trace = Ok r →
  length (active_list r) ≤ sa ∧ length (inactive_list r) ≤ si.
Proof.
  intros Hsim. unfold simulate in Hsim. inv_bind Hsim. rename x into r0.
  apply simulator_safe in Hx as (Hsafe & Hempty & Hsa & Hsi & _).
  apply (run_safe MAX) in Hsim as ([_ [Ha Hi]] & _ & _ & Hsa' & Hsi'); [|done|by right].
  rewrite <-Hsa, <-Hsi, <-Hsa', <-Hsi'. done.
Qed.

Lemma list_capacity_invariant_witness :
  ∃ r, simulate 8 1 2 [mkInstr A 1 4; mkInstr X 1 2; mkInstr X 1 3; mkInstr A 2 3] = Ok r ∧
       length (active_list r) ≤ 1 ∧ length (inactive_list r) ≤ 2.
Proof.
  eexists. split; [vm_compute; reflexivity|].
  apply (list_capacity_invariant 8 1 2
           [mkInstr A 1 4; mkInstr X 1 2; mkInstr X 1 3; mkInstr A 2 3]).
  vm_compute; reflexivity.
Defined.

(** C10. [promote] of a page id that no node of either list carries (in
    particular of [-1]) leaves both lists and the buddy system unchanged. *)
Theorem promote_absent_noop p r :
  (∀ nd, nd ∈ inactive_list r ++ active_list r → page_id_of nd ≠ p) →
  promote p r = Ok r.
Proof.
  intros Habs. unfold promote, find_index.
  assert (Hi : find_pos p (inactive_list r) 0 = None).
  { apply find_pos_None. intros nd Hnd. apply Habs, elem_of_app. by left. }
  assert (Ha : find_pos p (active_list r) 0 = None).
  { apply find_pos_None. intros nd Hnd. apply Habs, elem_of_app. by right. }
  by rewrite Hi, Ha.
Qed.

Lemma promote_absent_noop_witness :
  promote (-1) (mkLRU [(3%Z, 1, 0)] [(5%Z, 2, 1)] 2 2
                  (mkBuddySystem 1 [[]] [] ∅))
  = Ok (mkLRU [(3%Z, 1, 0)] [(5%Z, 2, 1)] 2 2 (mkBuddySystem 1 [[]] [] ∅)).
Proof.
  apply promote_absent_noop. simpl.
  intros nd Hnd. apply elem_of_cons in Hnd as [->|Hnd]; [done|].
  apply elem_of_cons in Hnd as [->|Hnd]; [done|]. by apply elem_of_nil in Hnd.
Defined.

(** ** Re-access of a resident page *)

Lemma find_index_active p r :
  (find_index p r).1 = 1%Z ↔
  find_pos p (inactive_list r) 0 = None ∧ find_pos p (active_list r) 0 ≠ None.
Proof.
  unfold find_index.
  destruct (find_pos p (inactive_list r) 0); simpl; [by split; [|intros []]|].
  destruct (find_pos p (active_list r) 0); simpl; split; try done.
  by intros [_ ?].
Qed.

Lemma promoted_active_noop p r : (find_index p r).1 = 1%Z → promoted p r = r.
Proof.
  intros [Hi _]%find_index_active. unfold promoted. by rewrite Hi.
Qed.

Lemma promoted_finds_active p r :
  capacity r → 1 ≤ size_active r →
  NoDup (page_id_of <$> nodes r) → p ∈ page_id_of <$> nodes r →
  (find_index p (promoted p r)).1 = 1%Z.
Proof.
  intros [Hact Hina] Hsz Hnd Hin. apply find_index_active. unfold promoted, nodes in *.
  destruct (find_pos p (inactive_list r) 0) as [i|] eqn:Hfind.
  - apply find_pos_Some in Hfind as (nd & _ & Hi & Hp). rewrite Nat.sub_0_r in Hi.
    rewrite Hi.
    assert (Hsplit : inactive_list r ≡ₚ nd :: base.delete i (inactive_list r)).
    { by apply delete_Permutation. }
    revert Hsplit. generalize (base.delete i (inactive_list r)). intros D Hsplit.
    rewrite Hsplit in Hnd. rewrite fmap_app, fmap_cons in Hnd. simpl in Hnd.
    apply NoDup_cons in Hnd as [Hfresh _]. rewrite Hp in Hfresh.
    assert (HD : ∀ nd', nd' ∈ D → page_id_of nd' ≠ p).
    { intros nd' Hnd' Heq. apply Hfresh, elem_of_app. left.
      apply list_elem_of_fmap. eauto. }
    assert (HA : ∀ nd', nd' ∈ active_list r → page_id_of nd' ≠ p).
    { intros nd' Hnd' Heq. apply Hfresh, elem_of_app. right.
      apply list_elem_of_fmap. eauto. }
    case_decide as Hfull.
    + rewrite length_app in Hfull. simpl in Hfull.
      destruct (active_list r) as [|hd tl] eqn:Eact; [simpl in *; lia|].
      simpl. split.
      * apply find_pos_None. intros nd' [Hnd'|Hnd']%elem_of_app; [by apply HD|].
        apply list_elem_of_singleton in Hnd' as ->. apply HA. left.
      * intros Hnone. rewrite find_pos_None in Hnone.
        apply (Hnone nd); [|done]. apply elem_of_app. right. left.
    + simpl. split; [by apply find_pos_None|].
      intros Hnone. rewrite find_pos_None in Hnone.
      apply (Hnone nd); [|done]. apply elem_of_app. right. left.
  - rewrite Hfind. split; [done|]. intros Hnone.
    rewrite find_pos_None in Hfind, Hnone.
    apply list_elem_of_fmap in Hin as (nd & -> & [Hin|Hin]%elem_of_app).
    + by apply (Hfind nd).
    + by apply (Hnone nd).
Qed.

(** ** The link between nodes, allocation record and page array *)

Lemma entry_fun b s n p q : entry b s n p → entry b s n q → p = q.
Proof. intros (l & Hl & Hp) (l' & Hl' & Hq). congruence. Qed.

Lemma entry_access b s n p : entry b s n p → access s n b = p.
Proof. intros (l & Hl & Hp). unfold access. by rewrite Hl, Hp. Qed.

Lemma access_entry b s n : (0 ≤ access s n b)%Z → entry b s n (access s n b).
Proof. apply access_nonneg. Qed.

Lemma entry_freed b s n s' n' q :
  (0 ≤ access s n b)%Z →
  entry (freed s n b) s' n' q ↔
  if decide (s' = s ∧ n' = n) then q = (-1)%Z else entry b s' n' q.
Proof.
  intros Hres. destruct (access_entry b s n Hres) as (l & Hl & Hn).
  unfold freed. rewrite bool_decide_eq_true_2 by done. unfold entry. simpl.
  destruct (decide (s' = s)) as [->|Hs].
  - rewrite lookup_alter_eq, Hl. simpl. destruct (decide (n' = n)) as [->|Hn'].
    + rewrite decide_True by done. split.
      * intros (l' & [= <-] & Hq).
        rewrite list_lookup_insert_eq in Hq by (by eapply lookup_lt_Some). congruence.
      * intros ->. eexists. split; [done|].
        by rewrite list_lookup_insert_eq by (by eapply lookup_lt_Some).
    + rewrite decide_False by (by intros [_ ?]). split.
      * intros (l' & [= <-] & Hq). rewrite list_lookup_insert_ne in Hq by done. eauto.
      * intros (l' & [= <-] & Hq). eexists. split; [done|].
        by rewrite list_lookup_insert_ne.
  - rewrite decide_False by (by intros [? _]). by rewrite lookup_alter_ne.
Qed.

Lemma freed_absent b s n : ¬ (0 ≤ access s n b)%Z → freed s n b = b.
Proof. intros H. unfold freed. by rewrite bool_decide_eq_false_2. Qed.

Lemma linked_perm pend L L' b : L ≡ₚ L' → linked pend L b → linked pend L' b.
Proof.
  intros HL [H1 H2 H3 H4 H5 H6 H7]. split; try done.
  - by rewrite <-HL.
  - intros p s n Hin. apply H2. by rewrite HL.
  - intros s n p He Hp. destruct (H3 s n p He Hp); [by left|right]. by rewrite <-HL.
Qed.

Lemma linked_ext pend L b b' :
  pages b' = pages b → allocated_pages b' = allocated_pages b →
  linked pend L b → linked pend L b'.
Proof.
  intros Hp Ha [H1 H2 H3 H4 H5 H6 H7].
  assert (He : ∀ s n p, entry b' s n p ↔ entry b s n p).
  { intros s n p. unfold entry. by rewrite Ha. }
  split; try done.
  - intros p s n Hin. rewrite He. by apply H2.
  - intros s n p. rewrite He. apply H3.
  - intros s n p. rewrite He. apply H4.
  - intros s n p. rewrite He, Hp. apply H5.
  - intros s n s' n' p. rewrite !He. apply H6.
  - intros p v. rewrite Hp. intros Hv Hv'. destruct (H7 p v Hv Hv') as [n Hn].
    exists n. by rewrite He.
Qed.

Lemma linked_pend_iff pend pend' L b :
  (∀ s n, pend s n ↔ pend' s n) → linked pend L b → linked pend' L b.
Proof.
  intros Hiff [H1 H2 H3 H4 H5 H6 H7]. split; try done.
  - intros p s n Hin. rewrite <-Hiff. by apply H2.
  - intros s n p He Hp. rewrite <-Hiff. by apply H3.
  - intros s n p He Hpend. apply (H4 s n p He). by apply Hiff.
Qed.

Lemma linked_pend_vacuous pend L b :
  (∀ s n p, pend s n → ¬ entry b s n p) → linked pend L b → linked no_pending L b.
Proof.
  intros Hvac [H1 H2 H3 H4 H5 H6 H7]. split; try done.
  - intros p s n Hin. destruct (H2 p s n Hin) as (? & ? & ?).
    split; [done|]. split; [done|]. by intros [].
  - intros s n p He Hp. destruct (H3 s n p He Hp) as [Hpend|?]; [|by right].
    by destruct (Hvac s n p Hpend).
Qed.

Lemma linked_evict pend nd L b :
  linked pend (nd :: L) b →
  access (seqno_of nd) (num_of nd) b = page_id_of nd ∧
  (∀ nd', nd' ∈ L → page_id_of nd' ≠ page_id_of nd) ∧
  linked pend L (rebuilt (freed (seqno_of nd) (num_of nd) b)).
Proof.
  intros [H1 H2 H3 H4 H5 H6 H7]. destruct nd as [[p s] n].
  unfold page_id_of, seqno_of, num_of in *. simpl in *.
  destruct (H2 p s n ltac:(left)) as (Hp & He & Hnp).
  pose proof (entry_access _ _ _ _ He) as Hacc.
  apply NoDup_cons in H1 as [Hfresh Hnd].
  assert (Hother : ∀ nd', nd' ∈ L → nd'.1.1 ≠ p).
  { intros nd' Hin Heq. apply Hfresh, list_elem_of_fmap. eauto. }
  split; [done|]. split; [done|].
  apply (linked_ext _ _ (freed s n b)); [done..|].
  assert (Hres : (0 ≤ access s n b)%Z) by lia.
  assert (Hold : ∀ s' n' q, entry (freed s n b) s' n' q → (0 ≤ q)%Z →
                   entry b s' n' q ∧ ¬ (s' = s ∧ n' = n)).
  { intros s' n' q Hq Hq0. rewrite entry_freed in Hq by done.
    case_decide; [lia|done]. }
  assert (Hpages : pages (freed s n b) = <[Z.to_nat p := (-1)%Z]> (pages b)).
  { unfold freed. rewrite bool_decide_eq_true_2 by done. by rewrite Hacc. }
  split.
  - done.
  - intros q s' n' Hin. destruct (H2 q s' n' ltac:(by right)) as (Hq & Heq & Hnq).
    split; [done|]. split; [|done].
    rewrite entry_freed by done. case_decide as Hsame; [|done].
    destruct Hsame as [-> ->]. destruct (Hother _ Hin). simpl.
    by eapply entry_fun.
  - intros s' n' q Hq Hq0. destruct (Hold _ _ _ Hq Hq0) as [Heq Hne].
    destruct (H3 s' n' q Heq Hq0) as [?|Hin]; [by left|right].
    apply elem_of_cons in Hin as [[= -> -> ->]|Hin]; [by destruct Hne|done].
  - intros s' n' q Hq Hpend. rewrite entry_freed in Hq by done.
    case_decide as Hsame; [|by eapply H4].
    destruct Hsame as [-> ->]. done.
  - intros s' n' q Hq Hq0. destruct (Hold _ _ _ Hq Hq0) as [Heq Hne].
    rewrite Hpages. rewrite list_lookup_insert_ne; [by eapply H5|].
    intros Hpq. assert (q = p) as -> by lia.
    destruct (H6 s' n' s n p Heq He Hp) as [-> ->]. by destruct Hne.
  - intros s1 n1 s2 n2 q Hq1 Hq2 Hq0.
    destruct (Hold _ _ _ Hq1 Hq0) as [Heq1 _]. destruct (Hold _ _ _ Hq2 Hq0) as [Heq2 _].
    by eapply H6.
  - intros q v Hv Hv0. rewrite Hpages in Hv.
    apply list_lookup_insert_Some in Hv as [(_ & <- & _)|[Hne Hv]]; [lia|].
    destruct (H7 q v Hv Hv0) as [n' Hn']. exists n'.
    rewrite entry_freed by done. case_decide as Hsame; [|done].
    destruct Hsame as [Hs ->]. rewrite Hs in Hn'.
    pose proof (entry_fun _ _ _ _ _ He Hn'). lia.
Qed.

Lemma linked_insert pend L b p s n :
  linked pend L b → pend s n → entry b s n p →
  linked (λ s' n', pend s' n' ∧ ¬ (s' = s ∧ n' = n)) (L ++ [(p, s, n)]) b.
Proof.
  intros [H1 H2 H3 H4 H5 H6 H7] Hpend He.
  pose proof (H4 s n p He Hpend) as Hp.
  split; try done.
  - rewrite fmap_app. simpl. apply NoDup_app. split; [done|]. split; [|apply NoDup_singleton].
    intros q Hq Hq'. apply list_elem_of_singleton in Hq'. unfold page_id_of in Hq'. simpl in Hq'. subst q.
    apply list_elem_of_fmap in Hq as ([[q s'] n'] & Heq & Hin).
    unfold page_id_of in Heq. simpl in Heq. subst q.
    destruct (H2 p s' n' Hin) as (_ & He' & Hnp).
    destruct (H6 s n s' n' p He He' Hp) as [-> ->]. done.
  - intros q s' n' [Hin|Hin]%elem_of_app.
    + destruct (H2 q s' n' Hin) as (? & ? & ?). split; [done|]. split; [done|].
      by intros [? _].
    + apply list_elem_of_singleton in Hin as [= -> -> ->].
      split; [done|]. split; [done|]. by intros [_ []].
  - intros s' n' q He' Hq. destruct (decide (s' = s ∧ n' = n)) as [[-> ->]|Hne].
    + right. apply elem_of_app. right. rewrite (entry_fun _ _ _ _ _ He' He). left.
    + destruct (H3 s' n' q He' Hq) as [?|?]; [by left|right].
      apply elem_of_app. by left.
  - intros s' n' q He' [Hpend' _]. by eapply H4.
Qed.

Lemma linked_empty_access b s n : linked no_pending [] b → ¬ (0 ≤ access s n b)%Z.
Proof.
  intros [H1 H2 H3 H4 H5 H6 H7] Hres.
  destruct (H3 s n _ (access_entry b s n Hres) Hres) as [[]|Hin].
  by apply elem_of_nil in Hin.
Qed.

Lemma requested_pages s k ids b b1 :
  requested s k ids b b1 →
  ∃ idl, ids = Z.of_nat <$> idl ∧ NoDup idl ∧ Forall (free_at (pages b)) idl ∧
         length idl ≤ k ∧ (length idl = k ∨ ∀ p, ¬ free_at (pages b1) p) ∧
         pages b1 = mark_all s idl (pages b) ∧
         allocated_pages b1 = allocated_pages b.
Proof.
  intros (idl & -> & Hnd & Hfr & Hle & Hend & ->). exists idl. by split_and!.
Qed.

Lemma marked_lookup_old s idl ps q v :
  Forall (free_at ps) idl → ps !! q = Some v → (0 ≤ v)%Z →
  mark_all s idl ps !! q = Some v.
Proof.
  intros Hfr Hq Hv. rewrite mark_all_lookup by (by eapply lookup_lt_Some).
  rewrite decide_False; [done|]. intros Hin.
  rewrite Forall_forall in Hfr. specialize (Hfr q Hin). unfold free_at in Hfr.
  rewrite Hq in Hfr. injection Hfr as ->. lia.
Qed.

Lemma marked_lookup_inv s idl ps q v :
  mark_all s idl ps !! q = Some v →
  (q ∈ idl ∧ v = Z.of_nat s) ∨ (¬ q ∈ idl ∧ ps !! q = Some v).
Proof.
  intros Hq. pose proof (lookup_lt_Some _ _ _ Hq) as Hlt.
  rewrite mark_all_length in Hlt. rewrite mark_all_lookup in Hq by done.
  case_decide; [left|right]; [|done]. split; [done|congruence].
Qed.

Lemma linked_allocate L b s k ids b1 :
  linked no_pending L b → allocated_pages b !! s = None →
  requested s k ids b b1 →
  linked (pending s 0 (length ids)) L (allocate ids s b1).
Proof.
  intros [H1 H2 H3 H4 H5 H6 H7] Hfresh Hreq.
  apply requested_pages in Hreq as (idl & -> & Hnd & Hfr & _ & _ & Hpg & Hal).
  assert (Hin_ids : ∀ n q, (Z.of_nat <$> idl) !! n = Some q →
                      ∃ i, q = Z.of_nat i ∧ idl !! n = Some i ∧ free_at (pages b) i).
  { intros n q Hq. rewrite list_lookup_fmap in Hq.
    destruct (idl !! n) as [i|] eqn:Ei; [|done]. injection Hq as <-.
    exists i. split; [done|]. split; [done|].
    rewrite Forall_forall in Hfr. apply Hfr. by eapply list_elem_of_lookup_2. }
  assert (Hnew : ∀ n q, entry (allocate (Z.of_nat <$> idl) s b1) s n q ↔
                        (Z.of_nat <$> idl) !! n = Some q).
  { intros n q. unfold entry. simpl. rewrite lookup_insert_eq. split.
    - by intros (l & [= <-] & ?).
    - intros ?. eauto. }
  assert (Hold : ∀ s' n q, s' ≠ s →
                   entry (allocate (Z.of_nat <$> idl) s b1) s' n q ↔ entry b s' n q).
  { intros s' n q Hne. unfold entry. simpl. rewrite lookup_insert_ne by done.
    by rewrite Hal. }
  assert (Hknown : ∀ s' n q, entry b s' n q → s' ≠ s).
  { intros s' n q (l & Hl & _) ->. congruence. }
  split.
  - done.
  - intros p s' n Hin. destruct (H2 p s' n Hin) as (Hp & He & _).
    pose proof (Hknown _ _ _ He) as Hne.
    split; [done|]. split; [by apply Hold|]. by intros [? _].
  - intros s' n p He Hp. destruct (decide (s' = s)) as [->|Hne].
    + left. split; [done|]. apply Hnew in He. apply lookup_lt_Some in He. lia.
    + apply Hold in He; [|done]. destruct (H3 s' n p He Hp) as [[]|?]. by right.
  - intros s' n p He [-> _]. apply Hnew in He.
    apply Hin_ids in He as (i & -> & _). lia.
  - intros s' n p He Hp. simpl. rewrite Hpg. destruct (decide (s' = s)) as [->|Hne].
    + apply Hnew in He. apply Hin_ids in He as (i & -> & Hi & Hfree).
      rewrite Nat2Z.id. rewrite mark_all_lookup by (by eapply lookup_lt_Some).
      rewrite decide_True; [done|]. by eapply list_elem_of_lookup_2.
    + apply Hold in He; [|done]. apply marked_lookup_old; [done| |lia].
      by eapply H5.
  - intros s1 n1 s2 n2 p He1 He2 Hp.
    destruct (decide (s1 = s)) as [->|Hne1]; destruct (decide (s2 = s)) as [->|Hne2].
    + split; [done|]. apply Hnew in He1, He2.
      apply Hin_ids in He1 as (i1 & -> & Hi1 & _). apply Hin_ids in He2 as (i2 & Heq & Hi2 & _).
      assert (i1 = i2) as -> by lia. by eapply NoDup_lookup.
    + apply Hnew in He1. apply Hin_ids in He1 as (i & -> & _ & Hfree).
      apply Hold in He2; [|done]. pose proof (H5 _ _ _ He2 Hp) as Hown.
      rewrite Nat2Z.id in Hown. unfold free_at in Hfree. rewrite Hown in Hfree.
      injection Hfree as ?. lia.
    + apply Hnew in He2. apply Hin_ids in He2 as (i & -> & _ & Hfree).
      apply Hold in He1; [|done]. pose proof (H5 _ _ _ He1 Hp) as Hown.
      rewrite Nat2Z.id in Hown. unfold free_at in Hfree. rewrite Hown in Hfree.
      injection Hfree as ?. lia.
    + apply Hold in He1, He2; [|done..]. by eapply H6.
  - intros p v Hv Hv0. simpl in Hv. rewrite Hpg in Hv.
    apply marked_lookup_inv in Hv as [[Hin ->]|[Hnin Hv]].
    + rewrite Nat2Z.id. apply list_elem_of_lookup in Hin as [n Hn]. exists n.
      apply Hnew. by rewrite list_lookup_fmap, Hn.
    + destruct (H7 p v Hv Hv0) as [n Hn]. exists n. apply Hold; [|done].
      by eapply Hknown.
Qed.

Lemma linked_fault L b s n ids b1 b2 :
  linked no_pending L b → ¬ (0 ≤ access s n b)%Z →
  requested s 1 ids b b1 → allocate_at ids s n b1 = Ok b2 →
  ∃ q, last ids = Some q ∧ entry b2 s n q ∧
       pages b2 = pages b1 ∧ buddy_lists b2 = buddy_lists b1 ∧
       buddy_count b2 = buddy_count b1 ∧ same_keys b b2 ∧
       linked (pending s n (S n)) L b2.
Proof.
  intros [H1 H2 H3 H4 H5 H6 H7] Hmiss Hreq Hat.
  apply requested_pages in Hreq as (idl & -> & Hnd & Hfr & Hlen & _ & Hpg & Hal).
  unfold allocate_at in Hat.
  destruct (last (Z.of_nat <$> idl)) as [q|] eqn:Hlast; [|done].
  destruct (allocated_pages b1 !! s) as [l|] eqn:Hl; [|done].
  case_decide as Hn; [|done]. injection Hat as <-.
  assert (∃ i, idl = [i] ∧ q = Z.of_nat i) as (i & -> & ->).
  { destruct idl as [|i [|j idl]]; simpl in *; [done| |lia].
    injection Hlast as <-. eauto. }
  rewrite Forall_singleton in Hfr.
  rewrite Hal in Hl.
  set (b2 := set_allocated_pages (<[s:=<[n:=Z.of_nat i]> l]> (allocated_pages b1)) b1).
  assert (Hnew : ∀ n' p, entry b2 s n' p ↔
                  if decide (n' = n) then p = Z.of_nat i else entry b s n' p).
  { intros n' p. unfold entry, b2. simpl. rewrite lookup_insert_eq. split.
    - intros (l' & [= <-] & Hp). case_decide as Hn'.
      + subst n'. rewrite list_lookup_insert_eq in Hp by done. congruence.
      + rewrite list_lookup_insert_ne in Hp by done. eauto.
    - case_decide as Hn'.
      + intros ->. subst n'. eexists. split; [done|]. by rewrite list_lookup_insert_eq.
      + intros (l' & Hl' & Hp). rewrite Hl in Hl'. injection Hl' as <-.
        eexists. split; [done|]. by rewrite list_lookup_insert_ne. }
  assert (Hold : ∀ s' n' p, s' ≠ s → entry b2 s' n' p ↔ entry b s' n' p).
  { intros s' n' p Hne. unfold entry, b2. simpl. rewrite lookup_insert_ne by done.
    by rewrite Hal. }
  assert (Hcases : ∀ s' n' p, entry b2 s' n' p →
            (s' = s ∧ n' = n ∧ p = Z.of_nat i) ∨ (¬ (s' = s ∧ n' = n) ∧ entry b s' n' p)).
  { intros s' n' p He. destruct (decide (s' = s)) as [->|Hne].
    - apply Hnew in He. case_decide; [by left|right]. split; [|done]. by intros [_ ?].
    - right. split; [by intros [? _]|]. by apply Hold. }
  assert (Hkeep : ∀ s' n' p, entry b s' n' p → (0 ≤ p)%Z →
            entry b2 s' n' p ∧ ¬ (s' = s ∧ n' = n)).
  { intros s' n' p He Hp.
    assert (Hne : ¬ (s' = s ∧ n' = n)).
    { intros [-> ->]. apply Hmiss. by rewrite (entry_access _ _ _ _ He). }
    split; [|done]. destruct (decide (s' = s)) as [->|Hs].
    - apply Hnew. rewrite decide_False; [done|]. intros ->. by apply Hne.
    - by apply Hold. }
  assert (Hfree_owned : ∀ s' n', ¬ entry b s' n' (Z.of_nat i)).
  { intros s' n' He. pose proof (H5 _ _ _ He ltac:(lia)) as Hown.
    rewrite Nat2Z.id in Hown. unfold free_at in Hfr. rewrite Hown in Hfr.
    injection Hfr as ?. lia. }
  exists (Z.of_nat i). split; [done|]. split.
  { apply Hnew. by rewrite decide_True. }
  split; [done|]. split; [done|]. split; [done|]. split.
  { intros s'. unfold b2. simpl. rewrite Hal. destruct (decide (s' = s)) as [->|Hs].
    - rewrite lookup_insert_eq, Hl. done.
    - by rewrite lookup_insert_ne. }
  split.
  - done.
  - intros p s' n' Hin. destruct (H2 p s' n' Hin) as (Hp & He & _).
    destruct (Hkeep _ _ _ He Hp) as [He' Hne].
    split; [done|]. split; [done|]. intros [-> ?]. apply Hne. split; [done|lia].
  - intros s' n' p He Hp. apply Hcases in He as [(-> & -> & ->)|[Hne He]].
    + left. split; [done|lia].
    + destruct (H3 s' n' p He Hp) as [[]|?]. by right.
  - intros s' n' p He [-> Hn']. assert (n' = n) as -> by lia.
    apply Hnew in He. rewrite decide_True in He by done. lia.
  - intros s' n' p He Hp. simpl. rewrite Hpg.
    apply Hcases in He as [(-> & -> & ->)|[Hne He]].
    + rewrite Nat2Z.id. rewrite mark_all_lookup by (by eapply lookup_lt_Some).
      rewrite decide_True; [done|left].
    + apply marked_lookup_old; [by apply Forall_singleton| |lia]. by eapply H5.
  - intros s1 n1 s2 n2 p He1 He2 Hp.
    apply Hcases in He1 as [(-> & -> & ->)|[Hne1 He1]];
      apply Hcases in He2 as [(-> & -> & Heq)|[Hne2 He2]].
    + done.
    + by destruct (Hfree_owned s2 n2).
    + subst p. by destruct (Hfree_owned s1 n1).
    + by eapply H6.
  - intros p v Hv Hv0. simpl in Hv. rewrite Hpg in Hv.
    apply marked_lookup_inv in Hv as [[Hin ->]|[Hnin Hv]].
    + apply list_elem_of_singleton in Hin as ->. rewrite Nat2Z.id. exists n.
      apply Hnew. by rewrite decide_True.
    + destruct (H7 p v Hv Hv0) as [n' Hn']. exists n'.
      apply (Hkeep _ _ _ Hn'). lia.
Qed.

(** [delete] on lists whose nodes carry distinct page ids. *)
Lemma filter_all {A} (P : A → Prop) `{!∀ x, Decision (P x)} (l : list A) :
  (∀ x, x ∈ l → P x) → filter P l = l.
Proof.
  induction l as [|x l IH]; intros Hall; [done|].
  rewrite filter_cons, decide_True by (apply Hall; left).
  f_equal. apply IH. intros y Hy. apply Hall. by right.
Qed.

Lemma delete_absent_nodes p r :
  (∀ nd, nd ∈ nodes r → page_id_of nd ≠ p) → nodes (delete p r) = nodes r.
Proof. intros H. by rewrite delete_absent. Qed.

Lemma remove_first_filter nd l :
  NoDup (page_id_of <$> l) → nd ∈ l →
  remove_first nd l = filter (λ x, page_id_of x ≠ page_id_of nd) l.
Proof.
  induction l as [|y l IH]; intros Hnd Hin; [by apply elem_of_nil in Hin|].
  rewrite fmap_cons in Hnd. apply NoDup_cons in Hnd as [Hy Hnd].
  simpl. rewrite filter_cons. case_decide as Heq.
  - subst y. rewrite decide_False by (by intros ?).
    symmetry. apply filter_all. intros x Hx Hpx. apply Hy.
    rewrite <-Hpx. apply list_elem_of_fmap. eauto.
  - apply elem_of_cons in Hin as [->|Hin]; [done|].
    rewrite decide_True.
    + f_equal. by apply IH.
    + intros Hpy. apply Hy. rewrite Hpy. apply list_elem_of_fmap. eauto.
Qed.

Lemma delete_loop_filter fuel i p l :
  NoDup (page_id_of <$> l) →
  (∀ j nd, j < i → l !! j = Some nd → page_id_of nd ≠ p) →
  length l ≤ fuel + i →
  delete_loop fuel i p l = filter (λ x, page_id_of x ≠ p) l.
Proof.
  revert i. induction fuel as [|fuel IH]; intros i Hnd Hpre Hlen.
  - simpl. symmetry. apply filter_all. intros x Hx.
    apply list_elem_of_lookup in Hx as [j Hj]. apply (Hpre j); [|done].
    apply lookup_lt_Some in Hj. lia.
  - simpl. destruct (l !! i) as [nd|] eqn:Ei.
    + case_bool_decide as Hp.
      * subst p. rewrite <-remove_first_filter; [|done|by eapply list_elem_of_lookup_2].
        apply delete_loop_absent. intros x Hx.
        rewrite remove_first_filter in Hx; [|done|by eapply list_elem_of_lookup_2].
        by apply list_elem_of_filter in Hx as [? _].
      * apply IH; [done| |lia]. intros j x Hj Hx.
        destruct (decide (j = i)) as [->|Hne]; [congruence|].
        apply (Hpre j); [lia|done].
    + symmetry. apply filter_all. intros x Hx.
      apply list_elem_of_lookup in Hx as [j Hj]. apply (Hpre j); [|done].
      apply lookup_ge_None in Ei. apply lookup_lt_Some in Hj. lia.
Qed.

Lemma delete_in_filter p l :
  NoDup (page_id_of <$> l) → delete_in p l = filter (λ x, page_id_of x ≠ p) l.
Proof.
  intros Hnd. apply delete_loop_filter; [done| |lia]. intros j nd Hj. lia.
Qed.

Lemma delete_nodes_filter p r :
  NoDup (page_id_of <$> nodes r) →
  nodes (delete p r) = filter (λ x, page_id_of x ≠ p) (nodes r).
Proof.
  unfold nodes. rewrite fmap_app. intros (Hi & _ & Ha)%NoDup_app. simpl.
  by rewrite !delete_in_filter, filter_app.
Qed.

Lemma filter_out_Permutation nd (L : list node) :
  NoDup (page_id_of <$> L) → nd ∈ L →
  L ≡ₚ nd :: filter (λ x, page_id_of x ≠ page_id_of nd) L.
Proof.
  induction L as [|y L IH]; intros Hnd Hin; [by apply elem_of_nil in Hin|].
  rewrite fmap_cons in Hnd. apply NoDup_cons in Hnd as [Hy Hnd].
  rewrite filter_cons. destruct (decide (y = nd)) as [->|Hne].
  - rewrite decide_False by (by intros ?). rewrite filter_all; [done|].
    intros x Hx Hpx. apply Hy. rewrite <-Hpx. apply list_elem_of_fmap. eauto.
  - apply elem_of_cons in Hin as [->|Hin]; [done|].
    rewrite decide_True.
    + rewrite (IH Hnd Hin) at 1. apply perm_swap.
    + intros Hpy. apply Hy. rewrite Hpy. apply list_elem_of_fmap. eauto.
Qed.

(** ** Preservation of the link by the LRU operations *)

Lemma same_keys_refl b : same_keys b b.
Proof. by intros s. Qed.

Lemma same_keys_trans b1 b2 b3 : same_keys b1 b2 → same_keys b2 b3 → same_keys b1 b3.
Proof. intros H12 H23 s. etrans; [apply H23|apply H12]. Qed.

Lemma freed_same_keys s n b : same_keys b (freed s n b).
Proof.
  intros s'. unfold freed. case_bool_decide; [|done]. simpl.
  destruct (decide (s' = s)) as [->|Hne].
  - rewrite lookup_alter_eq. by destruct (allocated_pages b !! s).
  - by rewrite lookup_alter_ne.
Qed.

Lemma freed_free_at s n b q :
  free_at (pages b) q → free_at (pages (freed s n b)) q.
Proof.
  unfold freed, free_at. case_bool_decide; [|done]. simpl. intros Hq.
  destruct (decide (q = Z.to_nat (access s n b))) as [->|Hne].
  - by rewrite list_lookup_insert_eq by (by eapply lookup_lt_Some).
  - by rewrite list_lookup_insert_ne.
Qed.

Lemma reclaimed_linked pend nd r :
  linked pend (nd :: nodes r) (buddy_system r) →
  let r' := reclaimed (page_id_of nd) (seqno_of nd) (num_of nd) r in
  nodes r' = nodes r ∧ linked pend (nodes r') (buddy_system r') ∧
  free_at (pages (buddy_system r')) (Z.to_nat (page_id_of nd)).
Proof.
  intros Hl. destruct (linked_evict _ _ _ _ Hl) as (Hacc & Hother & Hl').
  simpl. unfold reclaimed.
  assert (Hn : nodes (delete (page_id_of nd) r) = nodes r) by by apply delete_absent_nodes.
  split; [done|]. split.
  - unfold nodes in *. simpl in *. rewrite Hn. done.
  - simpl. unfold freed. rewrite Hacc.
    destruct (lk_node _ _ _ Hl (page_id_of nd) (seqno_of nd) (num_of nd)) as (Hp & He & _).
    { destruct nd as [[? ?] ?]. left. }
    rewrite bool_decide_eq_true_2 by done. simpl. unfold free_at.
    apply list_lookup_insert_eq.
    pose proof (lk_owner _ _ _ Hl _ _ _ He Hp) as Hown. by eapply lookup_lt_Some.
Qed.

Lemma inserted_linked MAX pend p s n r :
  bs_ok MAX (buddy_system r) →
  linked pend (nodes r) (buddy_system r) → pend s n → entry (buddy_system r) s n p →
  linked (λ s' n', pend s' n' ∧ ¬ (s' = s ∧ n' = n))
    (nodes (inserted p s n r)) (buddy_system (inserted p s n r)) ∧
  same_keys (buddy_system r) (buddy_system (inserted p s n r)).
Proof.
  intros Hok Hl Hpend He.
  pose proof (linked_insert _ _ _ _ _ _ Hl Hpend He) as Hl'.
  unfold inserted. case_decide as Hroom.
  - split; [|apply same_keys_refl]. simpl. eapply linked_perm; [|done].
    unfold nodes. simpl. rewrite <-!app_assoc. apply Permutation_app_head, Permutation_app_comm.
  - destruct (inactive_list r ++ [(p, s, n)]) as [|nd l] eqn:E.
    { by destruct (inactive_list r). }
    destruct (reclaimed_linked (λ s' n', pend s' n' ∧ ¬ (s' = s ∧ n' = n)) nd
                (set_inactive_list l r)) as (Hn & Hl'' & _).
    { eapply linked_perm; [|done]. unfold nodes. simpl.
      change (nd :: l ++ active_list r) with ((nd :: l) ++ active_list r).
      rewrite <-E, <-!app_assoc. apply Permutation_app_head, Permutation_app_comm. }
    split; [done|]. simpl. apply freed_same_keys.
Qed.

Lemma reclaim_loop_linked MAX n locals r r' :
  bs_ok MAX (buddy_system r) → linked no_pending (nodes r) (buddy_system r) →
  reclaim_loop n locals r = Ok r' →
  linked no_pending (nodes r') (buddy_system r') ∧
  same_keys (buddy_system r) (buddy_system r') ∧
  (∀ q, free_at (pages (buddy_system r)) q → free_at (pages (buddy_system r')) q) ∧
  (0 < n → nodes r ≠ [] → ∃ q, free_at (pages (buddy_system r')) q).
Proof.
  revert locals r. induction n as [|n IH]; intros locals r Hok Hl Hr.
  - simpl in Hr. injection Hr as <-. split; [done|]. split; [apply same_keys_refl|].
    split; [done|lia].
  - simpl in Hr.
    assert (Hgo : ∀ nd r1, nodes r ≡ₚ nd :: nodes r1 → buddy_system r1 = buddy_system r →
      (reclaim (page_id_of nd) (seqno_of nd) (num_of nd) r1
       ≫= λ r2, reclaim_loop n (Some nd) r2) = Ok r' →
      linked no_pending (nodes r') (buddy_system r') ∧
      same_keys (buddy_system r) (buddy_system r') ∧
      (∀ q, free_at (pages (buddy_system r)) q → free_at (pages (buddy_system r')) q) ∧
      (0 < S n → nodes r ≠ [] → ∃ q, free_at (pages (buddy_system r')) q)).
    { intros nd r1 Hperm Hbs Hr1. rewrite (reclaim_spec MAX) in Hr1 by by rewrite Hbs.
      simpl in Hr1.
      destruct (reclaimed_linked no_pending nd r1) as (Hn & Hl1 & Hfree).
      { rewrite Hbs. by eapply linked_perm. }
      apply IH in Hr1 as (Hl' & Hk' & Hmono & _); [|by apply reclaimed_bs_ok; rewrite Hbs|done].
      split; [done|]. split.
      { eapply same_keys_trans; [|done]. simpl. rewrite Hbs. apply freed_same_keys. }
      split.
      { intros q Hq. apply Hmono. simpl. rewrite Hbs. by apply freed_free_at. }
      intros _ _. eauto. }
    destruct (inactive_list r) as [|nd l] eqn:Ei.
    + destruct (active_list r) as [|nd l] eqn:Ea.
      * destruct locals as [nd|]; [|done].
        assert (Hnil : nodes r = []) by (unfold nodes; by rewrite Ei, Ea).
        rewrite (reclaim_spec MAX) in Hr by done. simpl in Hr.
        assert (Hsame : nodes (reclaimed (page_id_of nd) (seqno_of nd) (num_of nd) r) = []
                  ∧ freed (seqno_of nd) (num_of nd) (buddy_system r) = buddy_system r).
        { split.
          - unfold reclaimed. simpl. unfold nodes in *. simpl.
            rewrite Ei, Ea. done.
          - apply freed_absent. rewrite Hnil in Hl. by apply linked_empty_access. }
        destruct Hsame as [Hn Hf].
        apply IH in Hr as (Hl' & Hk' & Hmono & _).
        -- split; [done|]. split.
           { eapply same_keys_trans; [|done]. simpl. rewrite Hf. by intros ?. }
           split; [|by intros _ []].
           intros q Hq. apply Hmono. simpl. by rewrite Hf.
        -- by apply reclaimed_bs_ok.
        -- rewrite Hn. simpl. rewrite Hf. rewrite Hnil in Hl.
           by apply (linked_ext _ _ (buddy_system r)).
      * apply (Hgo nd (set_active_list l r)); [|done..].
        unfold nodes. simpl. rewrite Ei, Ea. done.
    + apply (Hgo nd (set_inactive_list l r)); [|done..].
      unfold nodes. simpl. rewrite Ei. done.
Qed.

Lemma insert_pages_linked MAX s len m k r r' :
  k + m = len → safe MAX r →
  linked (pending s k len) (nodes r) (buddy_system r) →
  insert_pages (seq k m) s r = Ok r' →
  linked no_pending (nodes r') (buddy_system r') ∧
  same_keys (buddy_system r) (buddy_system r').
Proof.
  revert k r. induction m as [|m IH]; intros k r Hlen Hsafe Hl Hr; simpl in Hr.
  - injection Hr as <-. split; [|apply same_keys_refl].
    eapply linked_pend_vacuous; [|done]. intros s' n p [_ ?]. lia.
  - destruct (allocated_pages (buddy_system r) !! s ≫= λ l, l !! k) as [p|] eqn:Hlook.
    + assert (He : entry (buddy_system r) s k p).
      { destruct (allocated_pages (buddy_system r) !! s) as [l|] eqn:El; [|done].
        exists l. done. }
      destruct Hsafe as [Hok [Hact Hina]].
      rewrite (insert_inactive_spec MAX) in Hr by done. simpl in Hr.
      destruct (inserted_linked MAX (pending s k len) p s k r Hok Hl) as [Hl1 Hk1];
        [split; [done|lia]|done|].
      destruct (inserted_safe MAX p s k r Hok Hina) as (Hok' & Hi' & Ha' & Hsi & Hsa).
      apply IH in Hr as [Hl' Hk']; [| lia | |].
      * split; [done|]. by eapply same_keys_trans.
      * split; [done|]. unfold capacity. rewrite Hsi, Hsa. lia.
      * eapply linked_pend_iff; [|done]. intros s' n'. unfold pending. simpl.
        split; [intros [[-> ?] Hne]|intros [-> ?]].
        -- split; [done|]. destruct (decide (n' = k)) as [->|]; [by destruct Hne|lia].
        -- split; [split; [done|lia]|]. intros [_ ->]. lia.
    + injection Hr as <-. split; [|apply same_keys_refl].
      eapply linked_pend_vacuous; [|done].
      intros s' n p [-> Hn] (l & El & Hp). rewrite El in Hlook. simpl in Hlook.
      apply lookup_ge_None in Hlook. apply lookup_lt_Some in Hp. lia.
Qed.

Lemma freed_fades s n b s' n' p :
  entry (freed s n b) s' n' p → (0 ≤ p)%Z → entry b s' n' p.
Proof.
  intros He Hp. destruct (decide (0 ≤ access s n b)%Z) as [Hres|Hres].
  - rewrite entry_freed in He by done. case_decide; [lia|done].
  - by rewrite freed_absent in He.
Qed.

Lemma reclaim_loop_fades MAX n locals r r' :
  bs_ok MAX (buddy_system r) → reclaim_loop n locals r = Ok r' →
  ∀ s' n' p, entry (buddy_system r') s' n' p → (0 ≤ p)%Z →
             entry (buddy_system r) s' n' p.
Proof.
  revert locals r. induction n as [|n IH]; intros locals r Hok Hr s' n' p He Hp.
  - simpl in Hr. by injection Hr as <-.
  - simpl in Hr.
    assert (Hgo : ∀ nd r1, buddy_system r1 = buddy_system r →
      (reclaim (page_id_of nd) (seqno_of nd) (num_of nd) r1
       ≫= λ r2, reclaim_loop n (Some nd) r2) = Ok r' →
      entry (buddy_system r) s' n' p).
    { intros nd r1 Hbs Hr1. rewrite (reclaim_spec MAX) in Hr1 by by rewrite Hbs.
      simpl in Hr1. eapply IH in Hr1; [| by apply reclaimed_bs_ok; rewrite Hbs |done..].
      unfold reclaimed in Hr1. simpl in Hr1. rewrite Hbs in Hr1.
      apply (freed_fades (seqno_of nd) (num_of nd)); [exact Hr1|done]. }
    destruct (inactive_list r) as [|nd l]; [destruct (active_list r) as [|nd l]|].
    + destruct locals as [nd|]; [|done]. by apply (Hgo nd r).
    + by apply (Hgo nd (set_active_list l r)).
    + by apply (Hgo nd (set_inactive_list l r)).
Qed.

Lemma count_free_pages_pos b : 0 < count_free_pages b → ∃ q, free_at (pages b) q.
Proof.
  unfold count_free_pages. intros Hpos.
  destruct (filter (λ s : Z, s = (-1)%Z) (pages b)) as [|v l] eqn:E; [simpl in Hpos; lia|].
  assert (Hv : v ∈ filter (λ s : Z, s = (-1)%Z) (pages b)) by (rewrite E; left).
  apply list_elem_of_filter in Hv as [-> Hv]. apply list_elem_of_lookup in Hv as [q Hq].
  by exists q.
Qed.

Lemma count_free_pages_zero b q : count_free_pages b = 0 → ¬ free_at (pages b) q.
Proof.
  unfold count_free_pages. intros Hz Hq. apply length_zero_iff_nil in Hz.
  assert (Hv : (-1)%Z ∈ filter (λ s : Z, s = (-1)%Z) (pages b)).
  { apply list_elem_of_filter. split; [done|]. by eapply list_elem_of_lookup_2. }
  rewrite Hz in Hv. by apply elem_of_nil in Hv.
Qed.

Lemma reclaim_and_request_linked MAX s k r ids r1 :
  safe MAX r → linked no_pending (nodes r) (buddy_system r) →
  reclaim_and_request s k r = Ok (ids, r1) →
  ∃ r0, bs_ok MAX (buddy_system r0) ∧ shrinks r r0 ∧ 1 ≤ k ∧
        requested s k ids (buddy_system r0) (buddy_system r1) ∧
        r1 = set_buddy_system (buddy_system r1) r0 ∧
        linked no_pending (nodes r0) (buddy_system r0) ∧
        same_keys (buddy_system r) (buddy_system r0) ∧
        (∀ s' n' p, entry (buddy_system r0) s' n' p → (0 ≤ p)%Z →
                    entry (buddy_system r) s' n' p).
Proof.
  intros [Hok Hcap] Hl Hr. unfold reclaim_and_request in Hr.
  inv_bind Hr. rename x into r0.
  inv_bind Hr. destruct x as [ids' b]. injection Hr as -> <-.
  destruct (decide (k = 0)) as [->|Hk].
  { unfold request_pages in Hx0. done. }
  assert (bs_ok MAX (buddy_system r0) ∧ shrinks r r0 ∧
          linked no_pending (nodes r0) (buddy_system r0) ∧
          same_keys (buddy_system r) (buddy_system r0) ∧
          (∀ s' n' p, entry (buddy_system r0) s' n' p → (0 ≤ p)%Z →
                      entry (buddy_system r) s' n' p))
    as (Hok0 & Hsh & Hl0 & Hk0 & Hfade).
  { case_decide.
    - injection Hx as <-. split; [done|]. split; [apply shrinks_refl|].
      split; [done|]. split; [apply same_keys_refl|done].
    - pose proof (reclaim_n_pages_safe MAX _ _ _ Hok Hx) as (? & ? & _).
      unfold reclaim_n_pages in Hx.
      destruct (reclaim_loop_linked MAX _ _ _ _ Hok Hl Hx) as (? & ? & _ & _).
      split; [done|]. split; [done|]. split; [done|]. split; [done|].
      by eapply reclaim_loop_fades. }
  destruct (request_pages_spec MAX s k (buddy_system r0)) as (ids' & b' & Hreq & Hspec);
    [done|lia|].
  rewrite Hx0 in Hreq. injection Hreq as <- <-.
  exists r0. split; [done|]. split; [done|]. split; [lia|]. by split_and!.
Qed.

Lemma inserted_nodes_linked MAX p s n r :
  bs_ok MAX (buddy_system r) →
  linked (pending s n (S n)) (nodes r) (buddy_system r) → entry (buddy_system r) s n p →
  linked no_pending (nodes (inserted p s n r)) (buddy_system (inserted p s n r)) ∧
  same_keys (buddy_system r) (buddy_system (inserted p s n r)).
Proof.
  intros Hok Hl He.
  destruct (inserted_linked MAX (pending s n (S n)) p s n r Hok Hl) as [Hl' Hk];
    [split; [done|lia]|done|].
  split; [|done]. eapply linked_pend_iff; [|done].
  intros s' n'. unfold pending, no_pending. split; [|done].
  intros [[-> ?] Hne]. apply Hne. split; [done|lia].
Qed.

Lemma step_linked MAX r i r' :
  consistent MAX r →
  (act i = A → allocated_pages (buddy_system r) !! seqno i = None) →
  step r i = Ok r' →
  linked no_pending (nodes r') (buddy_system r') ∧
  (∀ s, allocated_pages (buddy_system r') !! s ≠ None →
        allocated_pages (buddy_system r) !! s ≠ None ∨ (act i = A ∧ s = seqno i)).
Proof.
  intros (Hsafe & Htidy & Hl) Hfresh Hstep. pose proof Hsafe as [Hok Hcap].
  unfold step in Hstep. destruct (act i) eqn:Hact.
  - (* A *)
    inv_bind Hstep. destruct x as [ids r1].
    apply (reclaim_and_request_linked MAX) in Hx
      as (r0 & Hok0 & Hsh & Hk & Hreq & Hr1 & Hl0 & Hk0 & _); [|done..].
    destruct (requested_ok MAX _ _ _ _ _ Hok0 Hreq) as (Hok1 & Hsync & Halloc & Hin).
    assert (Hfresh0 : allocated_pages (buddy_system r0) !! seqno i = None).
    { apply Hk0. by apply Hfresh. }
    pose proof (linked_allocate _ _ _ _ _ _ Hl0 Hfresh0 Hreq) as Hl2.
    apply (insert_pages_linked MAX (seqno i) (length ids)) in Hstep as [Hl' Hk']; [|lia| |].
    + split; [done|]. intros s Hs. destruct (decide (s = seqno i)) as [->|Hne]; [by right|left].
      intros Hnone. apply Hs, Hk'. simpl. rewrite lookup_insert_ne by done.
      rewrite Halloc. by apply Hk0.
    + split; [by apply allocate_ok|].
      rewrite Hr1. apply (shrinks_capacity r); [done|]. apply Hsh.
    + rewrite Hr1. apply Hl2.
  - (* X *)
    case_bool_decide as Hres.
    + rewrite promote_spec in Hstep by done. injection Hstep as <-.
      rewrite promoted_buddy_system. split; [|by left].
      eapply linked_perm; [|done]. by rewrite promoted_nodes.
    + unfold page_fault in Hstep. inv_bind Hstep. destruct x as [ids r1].
      apply (reclaim_and_request_linked MAX) in Hx
        as (r0 & Hok0 & Hsh & Hk & Hreq & Hr1 & Hl0 & Hk0 & Hfade); [|done..].
      destruct (requested_ok MAX _ _ _ _ _ Hok0 Hreq) as (Hok1 & Hsync & Halloc & Hin).
      inv_bind Hstep. rename x into b.
      pose proof (allocate_at_ok MAX _ _ _ _ _ Hok1 Hin Hx) as (Hokb & _).
      assert (Hmiss : ¬ (0 ≤ access (seqno i) (num i) (buddy_system r0))%Z).
      { intros Hres0. apply Hres.
        pose proof (Hfade _ _ _ (access_entry _ _ _ Hres0) Hres0) as He.
        by rewrite (entry_access _ _ _ _ He). }
      destruct (linked_fault _ _ _ _ _ _ _ Hl0 Hmiss Hreq Hx)
        as (q & Hlast & He & _ & _ & _ & Hkb & Hlb).
      rewrite Hlast in Hstep.
      assert (Hina : length (inactive_list (set_buddy_system b r1))
                     ≤ size_inactive (set_buddy_system b r1)).
      { rewrite Hr1. simpl. destruct Hsh as (? & -> & ? & ?). destruct Hcap. lia. }
      rewrite (insert_inactive_spec MAX) in Hstep by done. injection Hstep as <-.
      destruct (inserted_nodes_linked MAX q (seqno i) (num i) (set_buddy_system b r1))
        as [Hl' Hk']; [done| |done|].
      { rewrite Hr1. apply Hlb. }
      split; [done|]. intros s Hs. left. intros Hnone. apply Hs, Hk'. simpl.
      by apply Hkb, Hk0.
  - (* F *)
    rewrite (deallocate_spec MAX) in Hstep by done. simpl in Hstep.
    injection Hstep as <-.
    set (p := access (seqno i) (num i) (buddy_system r)).
    split.
    2:{ intros s Hs. left. intros Hnone. apply Hs. simpl.
        by apply (freed_same_keys (seqno i) (num i) (buddy_system r)). }
    simpl. destruct (decide (0 ≤ p)%Z) as [Hres|Hres].
    + pose proof (access_entry _ _ _ Hres) as He. fold p in He.
      destruct (lk_entry _ _ _ Hl _ _ _ He Hres) as [[]|Hin].
      pose proof (lk_nodup _ _ _ Hl) as Hnd.
      assert (Hnodes : nodes (delete p (set_buddy_system
                         (rebuilt (freed (seqno i) (num i) (buddy_system r))) r))
                       = filter (λ x, page_id_of x ≠ p) (nodes r)).
      { by apply (delete_nodes_filter p (set_buddy_system _ r)). }
      rewrite Hnodes.
      apply (linked_evict no_pending (p, seqno i, num i)).
      eapply linked_perm; [|done].
      by apply (filter_out_Permutation (p, seqno i, num i)).
    + rewrite freed_absent by done.
      assert (Hnodes : nodes (delete p (set_buddy_system (rebuilt (buddy_system r)) r))
                       = nodes r).
      { apply (delete_absent_nodes p (set_buddy_system _ r)).
        intros [[q s] n] Hin Hq. unfold page_id_of in Hq. simpl in Hq. subst q.
        destruct (lk_node _ _ _ Hl _ _ _ Hin) as (? & _). done. }
      rewrite Hnodes. by apply (linked_ext _ _ (buddy_system r)).
Qed.

Lemma step_consistent MAX r i r' :
  consistent MAX r →
  (act i = A → allocated_pages (buddy_system r) !! seqno i = None) →
  step r i = Ok r' →
  consistent MAX r' ∧
  (∀ s, allocated_pages (buddy_system r') !! s ≠ None →
        allocated_pages (buddy_system r) !! s ≠ None ∨ (act i = A ∧ s = seqno i)).
Proof.
  intros Hc Hfresh Hstep.
  destruct (step_linked MAX r i r' Hc Hfresh Hstep) as [Hl Hkeys].
  destruct Hc as (Hsafe & Htidy & _).
  destruct (step_safe MAX r i r' Hsafe Htidy Hstep) as (Hsafe' & Hsync & _).
  split; [|done]. split; [done|]. split; [by left|done].
Qed.

Lemma run_consistent MAX r trace r' :
  consistent MAX r → fresh_allocs trace →
  (∀ s, s ∈ allocated_seqnos trace → allocated_pages (buddy_system r) !! s = None) →
  run r trace = Ok r' → consistent MAX r'.
Proof.
  revert r. induction trace as [|i trace IH]; intros r Hc Hfresh Hnew Hrun; simpl in Hrun.
  - by injection Hrun as <-.
  - inv_bind Hrun. rename x into r1.
    unfold fresh_allocs, allocated_seqnos in *. rewrite filter_cons in Hfresh, Hnew.
    destruct (step_consistent MAX r i r1 Hc) as [Hc1 Hkeys]; [|done|].
    { intros Hact. apply Hnew. rewrite decide_True by done. left. }
    apply (IH r1); [done| | |done].
    + case_decide; [|done]. rewrite fmap_cons in Hfresh. by apply NoDup_cons in Hfresh as [_ ?].
    + intros s Hs. destruct (allocated_pages (buddy_system r1) !! s) as [l|] eqn:El; [|done].
      destruct (Hkeys s) as [Hold|[Hact ->]]; [by rewrite El| |].
      * destruct Hold. apply Hnew. case_decide; [by right|done].
      * rewrite decide_True in Hfresh by done. rewrite fmap_cons in Hfresh.
        by apply NoDup_cons in Hfresh as [? _].
Qed.

Lemma simulator_consistent MAX sa si r :
  simulator MAX sa si = Ok r → consistent MAX r.
Proof.
  intros Hsim. destruct (simulator_safe _ _ _ _ Hsim) as (Hsafe & Hempty & _ & _ & Hnil).
  split; [done|]. split; [by right|]. rewrite Hnil.
  assert (Hno : ∀ s n p, ¬ entry (buddy_system r) s n p).
  { intros s n p (l & Hl & _). by rewrite Hempty, lookup_empty in Hl. }
  split.
  - apply NoDup_nil_2.
  - by intros p s n ?%elem_of_nil.
  - intros s n p He. by destruct (Hno s n p).
  - intros s n p He. by destruct (Hno s n p).
  - intros s n p He. by destruct (Hno s n p).
  - intros s n s' n' p He. by destruct (Hno s n p).
  - intros p v Hv Hv0. unfold simulator, BuddySystem_init in Hsim.
    case_decide; [done|]. simpl in Hsim. injection Hsim as <-. simpl in Hv.
    apply lookup_replicate in Hv as [-> _]. lia.
Qed.

Lemma simulate_consistent MAX sa si trace r :
  simulate MAX sa si trace = Ok r → fresh_allocs trace → consistent MAX r.
Proof.
  intros Hsim Hfresh. unfold simulate in Hsim. inv_bind Hsim. rename x into r0.
  apply (run_consistent MAX r0 trace); [by eapply simulator_consistent|done| |done].
  intros s _. apply simulator_safe in Hx as (_ & -> & _). apply lookup_empty.
Qed.

Lemma linked_residency r :
  linked no_pending (nodes r) (buddy_system r) → residency_invariant r.
Proof.
  intros Hl. split.
  - intros s n p He Hp. destruct (lk_entry _ _ _ Hl _ _ _ He Hp) as [[]|Hin].
    pose proof (lk_nodup _ _ _ Hl) as Hnd. revert Hnd Hin.
    generalize (nodes r). intros L. induction L as [|y L IH]; intros Hnd Hin.
    { by apply elem_of_nil in Hin. }
    rewrite fmap_cons in Hnd. apply NoDup_cons in Hnd as [Hy Hnd].
    rewrite filter_cons. apply elem_of_cons in Hin as [<-|Hin].
    + rewrite decide_True by done. simpl. f_equal.
      rewrite (filter_none _ L); [done|]. intros x Hx Hpx. apply Hy.
      apply list_elem_of_fmap. exists x. by rewrite Hpx.
    + rewrite decide_False; [by apply IH|].
      intros Hpy. apply Hy. rewrite Hpy.
      apply list_elem_of_fmap. exists (p, s, n). done.
  - intros s n He [[q s'] n'] Hin. destruct (lk_node _ _ _ Hl _ _ _ Hin) as (Hq & He' & _).
    unfold page_id_of, seqno_of, num_of. simpl. split; [lia|].
    intros [-> ->]. pose proof (entry_fun _ _ _ _ _ He He'). lia.
Qed.

(** ** Completion of page faults and allocations *)

Lemma freed_layout s n b s' :
  length <$> allocated_pages (freed s n b) !! s' = length <$> allocated_pages b !! s'.
Proof.
  unfold freed. case_bool_decide; [|done]. simpl.
  destruct (decide (s' = s)) as [->|Hne].
  - rewrite lookup_alter_eq. destruct (allocated_pages b !! s); [|done].
    simpl. by rewrite length_insert.
  - by rewrite lookup_alter_ne.
Qed.

Lemma reclaim_loop_layout MAX n locals r r' :
  bs_ok MAX (buddy_system r) → reclaim_loop n locals r = Ok r' →
  ∀ s', length <$> allocated_pages (buddy_system r') !! s'
        = length <$> allocated_pages (buddy_system r) !! s'.
Proof.
  revert locals r. induction n as [|n IH]; intros locals r Hok Hr s'.
  - simpl in Hr. by injection Hr as <-.
  - simpl in Hr.
    assert (Hgo : ∀ nd r1, buddy_system r1 = buddy_system r →
      (reclaim (page_id_of nd) (seqno_of nd) (num_of nd) r1
       ≫= λ r2, reclaim_loop n (Some nd) r2) = Ok r' →
      length <$> allocated_pages (buddy_system r') !! s'
      = length <$> allocated_pages (buddy_system r) !! s').
    { intros nd r1 Hbs Hr1. rewrite (reclaim_spec MAX) in Hr1 by by rewrite Hbs.
      simpl in Hr1. eapply IH in Hr1; [|by apply reclaimed_bs_ok; rewrite Hbs].
      rewrite Hr1. unfold reclaimed. simpl. rewrite Hbs. apply freed_layout. }
    destruct (inactive_list r) as [|nd l]; [destruct (active_list r) as [|nd l]|].
    + destruct locals as [nd|]; [|done]. by apply (Hgo nd r).
    + by apply (Hgo nd (set_active_list l r)).
    + by apply (Hgo nd (set_inactive_list l r)).
Qed.

Lemma request_one MAX s b :
  bs_ok MAX b → (∃ q, free_at (pages b) q) →
  ∃ i b1, request_pages s 1 b = Ok ([Z.of_nat i], b1) ∧
          requested s 1 [Z.of_nat i] b b1 ∧ free_at (pages b) i ∧
          pages b1 !! i = Some (Z.of_nat s).
Proof.
  intros Hok [q Hq].
  destruct (request_pages_spec MAX s 1 b Hok) as (ids & b1 & Hreq & Hspec); [lia|].
  pose proof Hspec as (idl & -> & Hnd & Hfr & Hlen & Hend & Hb1).
  destruct idl as [|i [|j idl]]; [|clear Hend|simpl in Hlen; lia].
  - destruct Hend as [?|Hend]; [done|]. destruct (Hend q). by rewrite Hb1.
  - exists i, b1. split; [done|]. split; [done|].
    rewrite Forall_singleton in Hfr. split; [done|]. rewrite Hb1. simpl.
    by rewrite list_lookup_insert_eq by (by eapply lookup_lt_Some).
Qed.

Lemma consistent_free_or_resident MAX r :
  consistent MAX r → count_free_pages (buddy_system r) = 0 → nodes r ≠ [].
Proof.
  intros ([[Hs _] _] & _ & Hl) Hz Hnil. destruct Hs as (HM & Hlen & _ & _ & Hall).
  destruct (lookup_lt_is_Some_2 (pages (buddy_system r)) 0) as [v Hv]; [lia|].
  assert (0 ≤ v)%Z as Hv0.
  { rewrite Forall_forall in Hall. pose proof (Hall v (list_elem_of_lookup_2 _ _ _ Hv)).
    destruct (decide (v = (-1)%Z)) as [->|]; [|lia].
    by destruct (count_free_pages_zero _ 0 Hz). }
  destruct (lk_leak _ _ _ Hl 0 v Hv Hv0) as [n He].
  assert (0 ≤ Z.of_nat 0)%Z as H0 by lia.
  destruct (lk_entry _ _ _ Hl _ _ _ He H0) as [[]|Hin].
  rewrite Hnil in Hin. by apply elem_of_nil in Hin.
Qed.

Lemma fault_request MAX r s :
  consistent MAX r →
  ∃ i r1, reclaim_and_request s 1 r = Ok ([Z.of_nat i], r1) ∧
          pages (buddy_system r1) !! i = Some (Z.of_nat s) ∧
          bs_ok MAX (buddy_system r1) ∧ i < length (pages (buddy_system r1)) ∧
          length (inactive_list r1) ≤ size_inactive r1 ∧
          ∀ s', length <$> allocated_pages (buddy_system r1) !! s'
                = length <$> allocated_pages (buddy_system r) !! s'.
Proof.
  intros Hc. pose proof Hc as ([Hok [Hact Hina]] & _ & Hl). unfold reclaim_and_request.
  assert (∃ r0, (if decide (1 ≤ count_free_pages (buddy_system r)) then Ok r
                 else reclaim_n_pages (1 - count_free_pages (buddy_system r)) r) = Ok r0 ∧
            bs_ok MAX (buddy_system r0) ∧ shrinks r r0 ∧
            (∃ q, free_at (pages (buddy_system r0)) q) ∧
            ∀ s', length <$> allocated_pages (buddy_system r0) !! s'
                  = length <$> allocated_pages (buddy_system r) !! s')
    as (r0 & -> & Hok0 & Hsh & Hfree & Hlay).
  { case_decide as Hfree.
    - exists r. split; [done|]. split; [done|]. split; [apply shrinks_refl|].
      split; [|done]. apply count_free_pages_pos. lia.
    - assert (Hz : count_free_pages (buddy_system r) = 0) by lia.
      pose proof (consistent_free_or_resident MAX r Hc Hz) as Hne.
      rewrite Hz. unfold reclaim_n_pages.
      destruct (reclaim_loop_spec MAX 1 None r Hok) as (r0 & Hr0 & Hok0 & Hsh & _); [auto|].
      exists r0. split; [done|]. split; [done|]. split; [done|].
      destruct (reclaim_loop_linked MAX _ _ _ _ Hok Hl Hr0) as (_ & _ & _ & Hex).
      split; [apply Hex; [lia|done]|]. by eapply reclaim_loop_layout. }
  simpl.
  destruct (request_one MAX s (buddy_system r0) Hok0 Hfree) as (i & b1 & -> & Hreq & _ & Hi).
  simpl. exists i, (set_buddy_system b1 r0). split; [done|]. simpl.
  destruct (requested_ok MAX _ _ _ _ _ Hok0 Hreq) as (Hok1 & _ & Hal & _).
  split; [done|]. split; [done|]. split; [by eapply lookup_lt_Some|].
  split; [destruct Hsh as (_ & -> & _ & ?); lia|].
  intros s'. by rewrite Hal.
Qed.

Lemma page_fault_total MAX r s n :
  consistent MAX r → ¬ (0 ≤ access s n (buddy_system r))%Z →
  match allocated_pages (buddy_system r) !! s with
  | None => step r (mkInstr X s n) = Err KeyError
  | Some l =>
      if decide (n < length l) then fault_completes r s n
      else step r (mkInstr X s n) = Err IndexError
  end.
Proof.
  intros Hc Hmiss.
  destruct (fault_request MAX r s Hc) as (i & r1 & Hreq & Hown & Hok1 & Hi & Hcap1 & Hlay).
  assert (Hstep : step r (mkInstr X s n) = page_fault s n r).
  { unfold step. simpl. by rewrite bool_decide_eq_false_2. }
  specialize (Hlay s).
  destruct (allocated_pages (buddy_system r) !! s) as [l|] eqn:El.
  - destruct (allocated_pages (buddy_system r1) !! s) as [l1|] eqn:El1; [|done].
    simpl in Hlay. injection Hlay as Hlen.
    case_decide as Hn.
    + set (b := set_allocated_pages
                  (<[s := <[n := Z.of_nat i]> l1]> (allocated_pages (buddy_system r1)))
                  (buddy_system r1)).
      assert (Hat : allocate_at [Z.of_nat i] s n (buddy_system r1) = Ok b).
      { unfold allocate_at. simpl. rewrite El1. by rewrite decide_True by lia. }
      assert (Hin : Forall (λ p, (0 ≤ p < Z.of_nat (length (pages (buddy_system r1))))%Z)
                      [Z.of_nat i]).
      { apply Forall_singleton. lia. }
      destruct (allocate_at_ok MAX _ _ _ _ _ Hok1 Hin Hat) as (Hokb & _).
      exists (Z.of_nat i), r1, b, (inserted (Z.of_nat i) s n (set_buddy_system b r1)).
      assert (Hins : insert_inactive (Z.of_nat i) s n (set_buddy_system b r1)
                     = Ok (inserted (Z.of_nat i) s n (set_buddy_system b r1))).
      { by apply (insert_inactive_spec MAX). }
      split; [done|]. split; [lia|]. split; [done|]. split.
      { exists (<[n := Z.of_nat i]> l1). unfold b. simpl. rewrite lookup_insert_eq.
        split; [done|]. apply list_lookup_insert_eq. lia. }
      split; [by rewrite Nat2Z.id|]. split; [done|].
      rewrite Hstep. unfold page_fault. rewrite Hreq. simpl. rewrite Hat. simpl. done.
    + rewrite Hstep. unfold page_fault. rewrite Hreq. simpl.
      unfold allocate_at. simpl. rewrite El1. by rewrite decide_False by lia.
  - destruct (allocated_pages (buddy_system r1) !! s) as [l1|] eqn:El1; [done|].
    rewrite Hstep. unfold page_fault. rewrite Hreq. simpl.
    unfold allocate_at. simpl. by rewrite El1.
Qed.

(** * Properties that hold in a narrower form than specified *)

(** C2, as stated, fails: after [A 1 2], [A 2 1], [A 1 2] position 1 of the
    record of seqno 1 holds the sentinel and yet the inactive list has the
    node [(-1, 1, 1)]. *)
Lemma residency_invariant_counterexample :
  ∃ r, simulate 8 2 2 [mkInstr A 1 2; mkInstr A 2 1; mkInstr A 1 2] = Ok r ∧
       entry (buddy_system r) 1 1 (-1)%Z ∧ ((-1)%Z, 1, 1) ∈ inactive_list r ∧
       ¬ residency_invariant r.
Proof.
  eexists. split; [vm_compute; reflexivity|].
  assert (He : entry (buddy_system (mkLRU [] [(4%Z, 1, 0); ((-1)%Z, 1, 1)] 2 2
                        (mkBuddySystem 4 [[0; 5]; [2; 6]; []; []]
                           [-1; 1; -1; -1; 1; -1; -1; -1]%Z
                           (<[1 := [4; -1]%Z]> (<[2 := [(-1)%Z]]> ∅))))) 1 1 (-1)%Z).
  { exists [4; -1]%Z. split; [vm_compute; reflexivity|done]. }
  split; [exact He|]. split; [right; left|].
  intros [_ Hsent]. destruct (Hsent 1 1 He ((-1)%Z, 1, 1)) as [Hne _]; [right; left|].
  by apply Hne.
Defined.

(** C2, amended. Residency/LRU invariant: after processing any event of a
    trace in which no seqno is allocated twice, every page id stored as a
    non-sentinel entry of the allocation record is the page id of exactly
    one node of the inactive and active lists together, and no sentinel
    entry has a node. *)
Theorem residency_invariant_fresh MAX sa si trace r :
  fresh_allocs trace → simulate MAX sa si trace = Ok r → residency_invariant r.
Proof.
  intros Hfresh Hsim. apply linked_residency.
  by destruct (simulate_consistent MAX sa si trace r Hsim Hfresh) as (_ & _ & ?).
Qed.

Lemma residency_invariant_fresh_witness :
  ∃ r, simulate 8 2 2 [mkInstr A 1 4; mkInstr X 1 2; mkInstr F 1 3; mkInstr A 2 3;
                       mkInstr X 1 0] = Ok r ∧
       residency_invariant r.
Proof.
  eexists. split; [vm_compute; reflexivity|].
  apply (residency_invariant_fresh 8 2 2
           [mkInstr A 1 4; mkInstr X 1 2; mkInstr F 1 3; mkInstr A 2 3; mkInstr X 1 0]).
  - apply (bool_decide_unpack _). vm_compute. exact I.
  - vm_compute. reflexivity.
Defined.



(** C5, as stated, fails: an Access to a seqno that was never allocated
    raises [KeyError], and one beyond the length of the record raises
    [IndexError]. *)
Lemma access_page_fault_counterexample :
  simulate 8 2 2 [mkInstr X 1 0] = Err KeyError ∧
  simulate 8 2 2 [mkInstr A 1 2; mkInstr X 1 5] = Err IndexError.
Proof. split; vm_compute; reflexivity. Qed.

(** C5, amended. After a trace in which no seqno is allocated twice, an
    Access event on a [(seqno, num)] that is not resident, where the record
    of [seqno] is longer than [num], completes as a page fault: pages are
    reclaimed if none is free, one page is requested, position [num] of the
    record is overwritten with it, and it is inserted into the inactive
    list.  When [seqno] was never allocated the event raises [KeyError];
    when [num] is beyond the length of the record, [IndexError]. *)
Theorem access_page_fault MAX sa si trace r s n :
  fresh_allocs trace → simulate MAX sa si trace = Ok r →
  ¬ (0 ≤ access s n (buddy_system r))%Z →
  match allocated_pages (buddy_system r) !! s with
  | None => step r (mkInstr X s n) = Err KeyError
  | Some l =>
      if decide (n < length l) then fault_completes r s n
      else step r (mkInstr X s n) = Err IndexError
  end.
Proof.
  intros Hfresh Hsim Hmiss. apply (page_fault_total MAX); [|done].
  by eapply simulate_consistent.
Qed.

Lemma access_page_fault_witness :
  ∃ r, simulate 8 2 2 [mkInstr A 1 2; mkInstr F 1 0] = Ok r ∧ fault_completes r 1 0.
Proof.
  eexists. split; [vm_compute; reflexivity|].
  match goal with
  | |- fault_completes ?r _ _ =>
      refine (access_page_fault 8 2 2 [mkInstr A 1 2; mkInstr F 1 0] r 1 0 _ _ _)
  end.
  - apply (bool_decide_unpack _). vm_compute. exact I.
  - vm_compute. reflexivity.
  - vm_compute. intros H. by apply H.
Defined.


Lemma simulate_synced MAX sa si trace r :
  trace ≠ [] → simulate MAX sa si trace = Ok r →
  safe MAX r ∧ synced (buddy_system r).
Proof.
  intros Hne Hsim. unfold simulate in Hsim. inv_bind Hsim. rename x into r0.
  apply simulator_safe in Hx as (Hsafe & Hempty & _).
  apply (run_safe MAX) in Hsim as (Hsafe' & _ & Hsync & _); [|done|by right].
  split; [done|by apply Hsync].
Qed.

Lemma simulate_safe MAX sa si trace r :
  simulate MAX sa si trace = Ok r → safe MAX r.
Proof.
  intros Hsim. unfold simulate in Hsim. inv_bind Hsim. rename x into r0.
  apply simulator_safe in Hx as (Hsafe & Hempty & _).
  by apply (run_safe MAX) in Hsim as (Hsafe' & _); [|done|by right].
Qed.

Lemma simulate_sizes MAX sa si trace r :
  simulate MAX sa si trace = Ok r → size_active r = sa ∧ size_inactive r = si.
Proof.
  intros Hsim. unfold simulate in Hsim. inv_bind Hsim. rename x into r0.
  apply simulator_safe in Hx as (Hsafe0 & Hempty & Hsa & Hsi & _).
  apply (run_safe MAX) in Hsim as (_ & _ & _ & Hsa' & Hsi'); [|done|by right].
  split; congruence.
Qed.




(** ** Re-access on reached states *)

Lemma promoted_no_active nd r :
  capacity r → size_active r = 0 →
  NoDup (page_id_of <$> inactive_list r) → nd ∈ inactive_list r →
  active_list (promoted (page_id_of nd) r) = [] ∧
  (∃ l, inactive_list (promoted (page_id_of nd) r) = l ++ [nd]) ∧
  promoted (page_id_of nd) (promoted (page_id_of nd) r) = promoted (page_id_of nd) r.
Proof.
  intros [Hact _] Hsz Hnd Hin.
  destruct r as [act ina sa si b]. simpl in *. subst sa.
  destruct act as [|? ?]; [|simpl in Hact; lia].
  apply list_elem_of_split in Hin as (l1 & l2 & ->).
  rewrite fmap_app, fmap_cons in Hnd.
  apply NoDup_app in Hnd as (_ & Hn12 & Hn2). apply NoDup_cons in Hn2 as [Hn2 _].
  assert (H1 : ∀ x, x ∈ l1 → page_id_of x ≠ page_id_of nd).
  { intros x Hx Hpx. apply (Hn12 (page_id_of nd)); [|left].
    rewrite <-Hpx. apply list_elem_of_fmap. eauto. }
  assert (H2 : ∀ x, x ∈ l2 → page_id_of x ≠ page_id_of nd).
  { intros x Hx Hpx. apply Hn2. rewrite <-Hpx. apply list_elem_of_fmap. eauto. }
  assert (H12 : ∀ x, x ∈ l1 ++ l2 → page_id_of x ≠ page_id_of nd).
  { intros x [?|?]%elem_of_app; [by apply H1|by apply H2]. }
  assert (E : promoted (page_id_of nd) (mkLRU [] (l1 ++ nd :: l2) 0 si b)
              = mkLRU [] ((l1 ++ l2) ++ [nd]) 0 si b).
  { unfold promoted. simpl.
    rewrite (find_pos_app (page_id_of nd) l1 nd l2 0) by done. simpl.
    rewrite list_lookup_middle by done. by rewrite delete_middle. }
  rewrite E. simpl. split; [done|]. split; [by eexists|].
  unfold promoted. simpl.
  rewrite (find_pos_app (page_id_of nd) (l1 ++ l2) nd [] 0) by done. simpl.
  rewrite list_lookup_middle by done. rewrite delete_middle.
  by rewrite app_nil_r.
Qed.

(** C8, as stated, fails.  After a trace that allocates seqno 1 twice, page
    2 is resident for position 0 of seqno 3 while a stale node of seqno 1
    carries the same page id: the first access promotes the stale node, and
    the second access still finds the page in the inactive list and moves
    its node into the active list. *)
Lemma reaccess_idempotent_counterexample :
  ∃ r r1 r2,
    simulate 8 2 4 [mkInstr A 1 2; mkInstr A 1 2; mkInstr A 2 1; mkInstr A 3 1] = Ok r ∧
    access 3 0 (buddy_system r) = 2%Z ∧
    pages (buddy_system r) !! 2 = Some 3%Z ∧
    step r (mkInstr X 3 0) = Ok r1 ∧ step r1 (mkInstr X 3 0) = Ok r2 ∧
    inactive_list r1 = [(3%Z, 1, 1); (4%Z, 2, 0); (2%Z, 3, 0)] ∧
    active_list r1 = [(2%Z, 1, 0)] ∧
    inactive_list r2 = [(3%Z, 1, 1); (4%Z, 2, 0)] ∧
    active_list r2 = [(2%Z, 1, 0); (2%Z, 3, 0)].
Proof.
  do 3 eexists. split; [vm_compute; reflexivity|].
  split; [vm_compute; reflexivity|]. split; [vm_compute; reflexivity|].
  split; [vm_compute; reflexivity|]. split; [vm_compute; reflexivity|].
  split; [reflexivity|]. split; [reflexivity|]. split; reflexivity.
Qed.

(** C8, amended.  In every state that a trace reaches, two consecutive
    Access events on a resident [(seqno, num)] complete and leave the page
    array, the free lists and the allocation record unchanged; the LRU
    lists keep their nodes, only their order and placement may differ.
    When no seqno was allocated twice, the second access changes nothing
    at all: with [size_active >= 1] the node of the position is then in the
    active list and no inactive node carries its page id; with
    [size_active = 0] the active list is empty and the node is the tail of
    the inactive list. *)
Theorem reaccess_idempotent_fresh MAX sa si trace r s n :
  simulate MAX sa si trace = Ok r →
  (0 ≤ access s n (buddy_system r))%Z →
  ∃ r1 r2,
    step r (mkInstr X s n) = Ok r1 ∧ step r1 (mkInstr X s n) = Ok r2 ∧
    buddy_system r1 = buddy_system r ∧ buddy_system r2 = buddy_system r ∧
    nodes r1 ≡ₚ nodes r ∧ nodes r2 ≡ₚ nodes r ∧
    (fresh_allocs trace →
     r2 = r1 ∧
     (1 ≤ sa →
      (access s n (buddy_system r), s, n) ∈ active_list r1 ∧
      ∀ nd, nd ∈ inactive_list r1 → page_id_of nd ≠ access s n (buddy_system r)) ∧
     (sa = 0 →
      active_list r1 = [] ∧
      ∃ l, inactive_list r1 = l ++ [(access s n (buddy_system r), s, n)])).
Proof.
  intros Hsim Hres. set (p := access s n (buddy_system r)) in *.
  pose proof (simulate_safe _ _ _ _ _ Hsim) as [_ Hcap].
  destruct (simulate_sizes _ _ _ _ _ Hsim) as [Hsa _].
  exists (promoted p r), (promoted p (promoted p r)).
  assert (Hstep1 : step r (mkInstr X s n) = Ok (promoted p r)).
  { unfold step. simpl. fold p. rewrite bool_decide_eq_true_2 by done.
    by apply promote_spec. }
  assert (Hstep2 : step (promoted p r) (mkInstr X s n) = Ok (promoted p (promoted p r))).
  { unfold step. simpl. rewrite promoted_buddy_system. fold p.
    rewrite bool_decide_eq_true_2 by done.
    by apply promote_spec, promoted_capacity. }
  split; [done|]. split; [done|].
  split; [apply promoted_buddy_system|].
  split; [by rewrite !promoted_buddy_system|].
  split; [apply promoted_nodes|].
  split; [by rewrite !promoted_nodes|].
  intros Hfresh.
  pose proof (simulate_consistent _ _ _ _ _ Hsim Hfresh) as (_ & _ & Hl).
  pose proof (access_entry _ _ _ Hres) as He. fold p in He.
  destruct (lk_entry _ _ _ Hl _ _ _ He Hres) as [[]|Hin].
  pose proof (lk_nodup _ _ _ Hl) as Hnd.
  destruct (decide (1 ≤ sa)) as [Hpos|Hzero].
  - assert (Hfa : (find_index p (promoted p r)).1 = 1%Z).
    { apply promoted_finds_active; [done|lia|done|].
      apply list_elem_of_fmap. by exists (p, s, n). }
    split; [by apply promoted_active_noop|].
    split; [|intros ?; lia]. intros _.
    apply find_index_active in Hfa as [Hnone _]. rewrite find_pos_None in Hnone.
    split; [|done].
    assert (Hin1 : (p, s, n) ∈ nodes (promoted p r)) by by rewrite promoted_nodes.
    unfold nodes in Hin1. apply elem_of_app in Hin1 as [Hi|Ha]; [|done].
    by destruct (Hnone _ Hi).
  - assert (Hempty : active_list r = []).
    { destruct Hcap as [Hact _]. apply nil_length_inv. lia. }
    unfold nodes in Hin, Hnd. rewrite Hempty, app_nil_r in Hin, Hnd.
    destruct (promoted_no_active (p, s, n) r) as (Ha & Hl' & Hidem); [done|lia|done|done|].
    change (page_id_of (p, s, n)) with p in *.
    split; [done|]. split; [intros ?; lia|]. intros _. done.
Qed.

Lemma reaccess_idempotent_fresh_witness :
  (∃ r r1, simulate 8 2 2 [mkInstr A 1 2] = Ok r ∧
     step r (mkInstr X 1 0) = Ok r1 ∧ step r1 (mkInstr X 1 0) = Ok r1 ∧
     buddy_system r1 = buddy_system r ∧ nodes r1 ≡ₚ nodes r ∧
     (access 1 0 (buddy_system r), 1, 0) ∈ active_list r1) ∧
  (∃ r r1, simulate 8 0 2 [mkInstr A 1 2] = Ok r ∧
     step r (mkInstr X 1 0) = Ok r1 ∧ step r1 (mkInstr X 1 0) = Ok r1 ∧
     buddy_system r1 = buddy_system r ∧ active_list r1 = [] ∧
     ∃ l, inactive_list r1 = l ++ [(access 1 0 (buddy_system r), 1, 0)]).
Proof.
  assert (Hfresh : fresh_allocs [mkInstr A 1 2]).
  { apply (bool_decide_unpack _). vm_compute. exact I. }
  split.
  - assert (∃ r, simulate 8 2 2 [mkInstr A 1 2] = Ok r ∧
                 (0 ≤ access 1 0 (buddy_system r))%Z) as (r & Hsim & Hres).
    { eexists. split; [vm_compute; reflexivity|vm_compute; discriminate]. }
    destruct (reaccess_idempotent_fresh 8 2 2 [mkInstr A 1 2] r 1 0 Hsim Hres)
      as (r1 & r2 & H1 & H2 & Hb & _ & Hn & _ & Hf).
    destruct (Hf Hfresh) as (-> & Hact & _). destruct Hact as [Hin _]; [lia|].
    exists r, r1. split; [done|]. split; [done|]. split; [done|]. split; [done|].
    split; done.
  - assert (∃ r, simulate 8 0 2 [mkInstr A 1 2] = Ok r ∧
                 (0 ≤ access 1 0 (buddy_system r))%Z) as (r & Hsim & Hres).
    { eexists. split; [vm_compute; reflexivity|vm_compute; discriminate]. }
    destruct (reaccess_idempotent_fresh 8 0 2 [mkInstr A 1 2] r 1 0 Hsim Hres)
      as (r1 & r2 & H1 & H2 & Hb & _ & _ & _ & Hf).
    destruct (Hf Hfresh) as (-> & _ & Hzero). destruct Hzero as [Ha Hl]; [done|].
    exists r, r1. split; [done|]. split; [done|]. split; [done|]. split; [done|].
    split; done.
Defined.




(** * Further properties of the code *)

(** ** Counting free slots *)

Lemma count_free_pages_free_count b : count_free_pages b = free_count (pages b).
Proof. done. Qed.

Lemma free_count_free_ids_from pre ps :
  free_count ps
  = length (filter (free_at (pre ++ ps)) (seq (length pre) (length ps))).
Proof.
  revert pre. induction ps as [|v ps IH]; intros pre; [done|].
  unfold free_count in *. simpl seq. rewrite !filter_cons.
  specialize (IH (pre ++ [v])). rewrite <-app_assoc, length_app in IH. simpl in IH.
  rewrite Nat.add_1_r in IH.
  assert (Hv : free_at (pre ++ v :: ps) (length pre) ↔ v = (-1)%Z).
  { unfold free_at. rewrite list_lookup_middle by done.
    split; [by intros [= ->] | by intros ->]. }
  destruct (decide (v = (-1)%Z)) as [Hfree|Hfree].
  - rewrite decide_True by by apply Hv. simpl. by rewrite IH.
  - rewrite decide_False by by rewrite Hv. done.
Qed.

Lemma free_count_free_ids ps : free_count ps = length (free_ids ps).
Proof. apply (free_count_free_ids_from [] ps). Qed.

Lemma free_count_none ps : (∀ p, ¬ free_at ps p) → free_count ps = 0.
Proof.
  intros Hnone. rewrite free_count_free_ids. unfold free_ids.
  rewrite filter_none; [done|]. intros p _. apply Hnone.
Qed.

Lemma free_count_insert ps i v w :
  ps !! i = Some v →
  free_count (<[i := w]> ps) + (if decide (v = (-1)%Z) then 1 else 0)
  = free_count ps + (if decide (w = (-1)%Z) then 1 else 0).
Proof.
  intros Hi. pose proof (lookup_lt_Some _ _ _ Hi) as Hlt.
  rewrite insert_take_drop by done.
  rewrite <-(take_drop_middle ps i v Hi) at 3.
  unfold free_count. rewrite !filter_app, !filter_cons, !length_app.
  destruct (decide (v = (-1)%Z)); destruct (decide (w = (-1)%Z)); simpl; lia.
Qed.

Lemma free_count_mark_all s idl ps :
  NoDup idl → Forall (free_at ps) idl →
  free_count (mark_all s idl ps) + length idl = free_count ps.
Proof.
  revert ps. induction idl as [|i idl IH]; intros ps Hnd Hfr; [simpl; lia|].
  apply NoDup_cons in Hnd as [Hi Hnd]. apply Forall_cons in Hfr as [Hfi Hfr].
  rewrite mark_all_cons. simpl length.
  pose proof (free_count_insert ps i (-1)%Z (Z.of_nat s) Hfi) as Hins.
  rewrite decide_True in Hins by done. rewrite decide_False in Hins by lia.
  specialize (IH (<[i := Z.of_nat s]> ps) Hnd).
  rewrite <-IH in Hins.
  - lia.
  - rewrite Forall_forall in Hfr |- *. intros j Hj. specialize (Hfr j Hj).
    unfold free_at in *. rewrite list_lookup_insert_ne; [done|]. intros ->. done.
Qed.

(** ** The constructor *)

Lemma blocks_from_single k j n :
  j < n → blocks_from k (<[j := [0]]> (replicate n [])) = [(k + j, 0)].
Proof.
  revert k j. induction n as [|n IH]; intros k j Hj; [lia|].
  destruct j as [|j]; simpl.
  - by rewrite blocks_from_replicate, Nat.add_0_r.
  - rewrite IH by lia. by replace (S k + j) with (k + S j) by lia.
Qed.

(** X1. The constructor rejects a page count of zero with [ValueError];
    for a positive count it yields an array of free pages and a single
    free block at page 0 of [2^floor(log2 MAX_PAGENO)] pages, so that the
    partition invariant holds from the start exactly when the page count
    is a power of two. *)
Theorem init_partition MAX :
  0 < MAX →
  BuddySystem_init 0 = Err ValueError ∧
  ∃ b, BuddySystem_init MAX = Ok b ∧
       count_free_pages b = MAX ∧ allocated_pages b = ∅ ∧
       blocks (buddy_lists b) = [(Nat.log2 MAX, 0)] ∧
       (partition_invariant b ↔ MAX = 2 ^ Nat.log2 MAX).
Proof.
  intros HM. split; [done|]. unfold BuddySystem_init.
  rewrite decide_False by lia. eexists. split; [done|]. simpl.
  assert (Hblocks : blocks (<[Nat.log2 MAX + 1 - 1 := [0]]>
                              (replicate (Nat.log2 MAX + 1) []))
                    = [(Nat.log2 MAX, 0)]).
  { unfold blocks. rewrite blocks_from_single by lia. f_equal. f_equal. lia. }
  split.
  { rewrite count_free_pages_free_count. simpl. unfold free_count.
    rewrite filter_all; [by rewrite length_replicate|].
    by intros v [-> _]%elem_of_replicate. }
  split; [done|]. split; [done|].
  unfold partition_invariant, covered. simpl. rewrite Hblocks.
  rewrite bind_singleton. unfold block_range. simpl.
  pose proof (Nat.log2_spec MAX HM) as [Hlo _].
  assert (Hfree : ∀ p, free_at (replicate MAX (-1)%Z) p ↔ p < MAX).
  { intros p. unfold free_at. rewrite lookup_replicate.
    split; [by intros [_ ?]|done]. }
  split.
  - intros [_ Hcov]. destruct (decide (MAX = 2 ^ Nat.log2 MAX)) as [|Hne]; [done|].
    assert (Hin : 2 ^ Nat.log2 MAX ∈ seq 0 (2 ^ Nat.log2 MAX)).
    { apply Hcov, Hfree. lia. }
    apply elem_of_seq in Hin. lia.
  - intros Heq. split; [apply NoDup_seq|].
    intros p. rewrite Hfree, elem_of_seq. lia.
Qed.

Lemma init_partition_witness :
  BuddySystem_init 0 = Err ValueError ∧
  ∃ b, BuddySystem_init 6 = Ok b ∧
       count_free_pages b = 6 ∧ allocated_pages b = ∅ ∧
       blocks (buddy_lists b) = [(Nat.log2 6, 0)] ∧
       (partition_invariant b ↔ 6 = 2 ^ Nat.log2 6).
Proof. apply (init_partition 6). lia. Defined.

(** ** The free lists account for the free pages *)

Lemma covered_length k lists :
  length (blocks_from k lists ≫= block_range) = capacity_from k lists.
Proof.
  revert k. induction lists as [|l lists IH]; intros k; [done|].
  simpl. rewrite bind_app, length_app, IH. f_equal.
  induction l as [|s l IHl]; [done|].
  rewrite fmap_cons, bind_cons, length_app, IHl. unfold block_range. simpl.
  rewrite length_seq. lia.
Qed.

(** X2. After any event of a trace, the start ids of the free lists stand
    for exactly [count_free_pages()] pages, counting [2^i] pages for every
    start id of the list of order [i]. *)
Theorem free_lists_account MAX sa si trace r :
  trace ≠ [] → simulate MAX sa si trace = Ok r →
  capacity_from 0 (buddy_lists (buddy_system r)) = count_free_pages (buddy_system r).
Proof.
  intros Hne Hsim.
  destruct (simulate_synced _ _ _ _ _ Hne Hsim) as [[[Hs _] _] Hsync].
  rewrite <-covered_length. fold (blocks (buddy_lists (buddy_system r))).
  fold (covered (buddy_lists (buddy_system r))). rewrite Hsync.
  rewrite placement_covered by by eapply shape_log2.
  by rewrite count_free_pages_free_count, free_count_free_ids.
Qed.

Lemma free_lists_account_witness :
  ∃ r, simulate 8 2 2 [mkInstr A 1 3; mkInstr F 1 1] = Ok r ∧
       capacity_from 0 (buddy_lists (buddy_system r))
       = count_free_pages (buddy_system r).
Proof.
  eexists. split; [vm_compute; reflexivity|].
  apply (free_lists_account 8 2 2 [mkInstr A 1 3; mkInstr F 1 1]).
  - discriminate.
  - vm_compute. reflexivity.
Defined.

(** ** Requests *)

Lemma requested_fill MAX s num ids b b' :
  bs_ok MAX b → requested s num ids b b' →
  ∃ idl, ids = Z.of_nat <$> idl ∧
         length idl = num `min` count_free_pages b ∧ NoDup idl ∧
         Forall (free_at (pages b)) idl ∧
         pages b' = mark_all s idl (pages b) ∧
         count_free_pages b' + length idl = count_free_pages b.
Proof.
  intros Hok (idl & -> & Hnd & Hfr & Hle & Hend & ->).
  pose proof (free_count_mark_all s idl (pages b) Hnd Hfr) as Hcount.
  exists idl. split; [done|]. rewrite !count_free_pages_free_count. simpl.
  split; [|by split_and!].
  destruct Hend as [Heq|Hnone]; [lia|].
  simpl in Hnone. rewrite (free_count_none _ Hnone) in Hcount. lia.
Qed.

(** X3. In every state that a trace reaches, [request_pages(seqno, num)]
    with [num >= 1] returns [min(num, count_free_pages())] distinct page
    ids, all of them free before the call; afterwards exactly these slots
    hold [seqno], every other slot and the allocation record are unchanged,
    the number of free pages has dropped by the number of ids, and the free
    lists again partition the free slots.  In particular a request beyond
    the free pages is under-filled without an error. *)
Theorem request_pages_fill MAX sa si trace r s num :
  simulate MAX sa si trace = Ok r → 1 ≤ num →
  ∃ idl b',
    request_pages s num (buddy_system r) = Ok (Z.of_nat <$> idl, b') ∧
    length idl = num `min` count_free_pages (buddy_system r) ∧
    NoDup idl ∧ Forall (free_at (pages (buddy_system r))) idl ∧
    length (pages b') = length (pages (buddy_system r)) ∧
    (∀ q, q < length (pages (buddy_system r)) →
          pages b' !! q = if decide (q ∈ idl) then Some (Z.of_nat s)
                          else pages (buddy_system r) !! q) ∧
    count_free_pages b' + length idl = count_free_pages (buddy_system r) ∧
    allocated_pages b' = allocated_pages (buddy_system r) ∧
    partition_invariant b'.
Proof.
  intros Hsim Hnum. pose proof (simulate_safe _ _ _ _ _ Hsim) as [Hok _].
  destruct (request_pages_spec MAX s num (buddy_system r) Hok Hnum)
    as (ids & b' & Hreq & Hspec).
  destruct (requested_ok MAX _ _ _ _ _ Hok Hspec) as ([Hs' _] & Hsync & Hal & _).
  destruct (requested_fill MAX _ _ _ _ _ Hok Hspec)
    as (idl & -> & Hlen & Hnd & Hfr & Hpg & Hcount).
  exists idl, b'. split; [done|]. split; [done|]. split; [done|]. split; [done|].
  split; [by rewrite Hpg, mark_all_length|].
  split; [intros q Hq; rewrite Hpg; by apply mark_all_lookup|].
  split; [done|]. split; [done|]. by apply (synced_partition MAX).
Qed.

Lemma request_pages_fill_witness :
  ∃ r, simulate 8 4 4 [mkInstr A 1 3] = Ok r ∧
  ∃ idl b',
    request_pages 2 7 (buddy_system r) = Ok (Z.of_nat <$> idl, b') ∧
    length idl = 7 `min` count_free_pages (buddy_system r) ∧
    NoDup idl ∧ Forall (free_at (pages (buddy_system r))) idl ∧
    length (pages b') = length (pages (buddy_system r)) ∧
    (∀ q, q < length (pages (buddy_system r)) →
          pages b' !! q = if decide (q ∈ idl) then Some (Z.of_nat 2)
                          else pages (buddy_system r) !! q) ∧
    count_free_pages b' + length idl = count_free_pages (buddy_system r) ∧
    allocated_pages b' = allocated_pages (buddy_system r) ∧
    partition_invariant b'.
Proof.
  eexists. split; [vm_compute; reflexivity|].
  apply (request_pages_fill 8 4 4 [mkInstr A 1 3]); [vm_compute; reflexivity|lia].
Defined.

Lemma find_block_first lo m lists i start rest :
  lo ≤ i < lo + m →
  (∀ j, lo ≤ j < i → lists !! j = Some []) →
  lists !! i = Some (start :: rest) →
  find_block (seq lo m) lists = Ok (Some (i, start, <[i := rest]> lists)).
Proof.
  revert lo. induction m as [|m IH]; intros lo Hi Hempty Hl; [lia|].
  simpl. destruct (decide (lo = i)) as [->|Hne].
  - by rewrite Hl.
  - rewrite Hempty by lia. apply IH; [lia| |done].
    intros j Hj. apply Hempty. lia.
Qed.

(** X4. In every state that a trace reaches, when the first non-empty free
    list of order at least [ceil(log2 num)] is the one of order [i] and its
    first start id is [start], [request_pages(seqno, num)] returns the
    contiguous pages [start, ..., start + num - 1]. *)
Theorem request_pages_contiguous MAX sa si trace r s num i start rest :
  simulate MAX sa si trace = Ok r → 1 ≤ num → Nat.log2_up num ≤ i →
  (∀ j, Nat.log2_up num ≤ j < i → buddy_lists (buddy_system r) !! j = Some []) →
  buddy_lists (buddy_system r) !! i = Some (start :: rest) →
  ∃ b', request_pages s num (buddy_system r) = Ok (Z.of_nat <$> seq start num, b') ∧
        pages b' = mark_all s (seq start num) (pages (buddy_system r)).
Proof.
  intros Hsim Hnum Hi Hempty Hl.
  pose proof (simulate_safe _ _ _ _ _ Hsim) as [(Hs & Hfree & Hids) _].
  assert (Hlen : length (buddy_lists (buddy_system r)) = buddy_count (buddy_system r))
    by apply Hs.
  pose proof (lookup_lt_Some _ _ _ Hl) as Hlt.
  unfold request_pages. rewrite decide_False by lia.
  rewrite (find_block_first _ _ _ i start rest); [|lia|done|done]. simpl.
  rewrite mark_pages_spec.
  - simpl. rewrite (update_buddy_lists_spec MAX).
    + simpl. eauto.
    + apply (marked_shape MAX s (seq start num)
               (set_buddy_lists (<[i:=rest]> (buddy_lists (buddy_system r)))
                  (buddy_system r))).
      destruct Hs as (? & ? & ? & ? & ?). repeat split; simpl; try done.
      by rewrite length_insert.
  - intros p Hp%elem_of_seq.
    assert (Hfp : free_at (pages (buddy_system r)) p).
    { apply (Hfree (i, start)).
      - apply (blocks_from_lookup 0 _ _ _ _ Hl). left.
      - apply elem_of_seq. simpl.
        pose proof (log2_up_pow2 num Hnum).
        assert (2 ^ Nat.log2_up num ≤ 2 ^ i) by (apply Nat.pow_le_mono_r; lia).
        lia. }
    by eapply lookup_lt_Some.
Qed.

Lemma request_pages_contiguous_witness :
  ∃ r, simulate 8 4 4 [mkInstr A 1 1] = Ok r ∧
  ∃ b', request_pages 2 2 (buddy_system r) = Ok (Z.of_nat <$> seq 2 2, b') ∧
        pages b' = mark_all 2 (seq 2 2) (pages (buddy_system r)).
Proof.
  eexists. split; [vm_compute; reflexivity|].
  apply (request_pages_contiguous 8 4 4 [mkInstr A 1 1] _ 2 2 1 2 []).
  - vm_compute. reflexivity.
  - lia.
  - vm_compute. lia.
  - intros j Hj. change (Nat.log2_up 2) with 1 in Hj. lia.
  - vm_compute. reflexivity.
Defined.

(** ** Deallocation *)

Lemma access_freed_ne b s n s' n' :
  ¬ (s' = s ∧ n' = n) → access s' n' (freed s n b) = access s' n' b.
Proof.
  intros Hne. unfold freed. case_bool_decide; [|done]. unfold access. simpl.
  destruct (decide (s' = s)) as [->|Hs].
  - rewrite lookup_alter_eq. destruct (allocated_pages b !! s) as [l|]; [|done]. simpl.
    rewrite list_lookup_insert_ne; [done|]. intros ->. by apply Hne.
  - by rewrite lookup_alter_ne.
Qed.

(** X5. After a trace in which no seqno is allocated twice,
    [deallocate(seqno, num)] of a resident position returns its page id,
    frees exactly that slot (one more free page), leaves the sentinel at
    the position and every other position as it was, and rebuilds the free
    lists into a partition of the free slots. *)
Theorem deallocate_resident MAX sa si trace r s n :
  fresh_allocs trace → simulate MAX sa si trace = Ok r →
  (0 ≤ access s n (buddy_system r))%Z →
  ∃ b', deallocate s n (buddy_system r) = Ok (access s n (buddy_system r), b') ∧
        access s n b' = (-1)%Z ∧
        pages b' = <[Z.to_nat (access s n (buddy_system r)) := (-1)%Z]>
                     (pages (buddy_system r)) ∧
        count_free_pages b' = count_free_pages (buddy_system r) + 1 ∧
        (∀ s' n', ¬ (s' = s ∧ n' = n) →
                  access s' n' b' = access s' n' (buddy_system r)) ∧
        partition_invariant b'.
Proof.
  intros Hfresh Hsim Hres.
  pose proof (simulate_consistent _ _ _ _ _ Hsim Hfresh) as ([Hok _] & _ & Hl).
  exists (rebuilt (freed s n (buddy_system r))).
  split; [by apply (deallocate_spec MAX)|].
  pose proof (access_entry _ _ _ Hres) as He.
  assert (Hpg : pages (freed s n (buddy_system r))
                = <[Z.to_nat (access s n (buddy_system r)) := (-1)%Z]>
                    (pages (buddy_system r))).
  { unfold freed. by rewrite bool_decide_eq_true_2. }
  split.
  { apply (entry_access (rebuilt (freed s n (buddy_system r)))).
    apply (entry_freed (buddy_system r) s n s n); [done|]. by rewrite decide_True. }
  split; [done|]. split.
  { rewrite !count_free_pages_free_count. simpl. rewrite Hpg.
    pose proof (lk_owner _ _ _ Hl _ _ _ He Hres) as Hown.
    pose proof (free_count_insert _ _ _ (-1)%Z Hown) as Hins.
    rewrite decide_False in Hins by lia. rewrite decide_True in Hins by done. lia. }
  split; [intros s' n' Hne; by apply access_freed_ne|].
  apply (synced_partition MAX); [|done].
  apply rebuilt_shape, freed_shape, Hok.
Qed.

Lemma deallocate_resident_witness :
  ∃ r, simulate 8 4 4 [mkInstr A 1 3] = Ok r ∧
  ∃ b', deallocate 1 1 (buddy_system r) = Ok (access 1 1 (buddy_system r), b') ∧
        access 1 1 b' = (-1)%Z ∧
        pages b' = <[Z.to_nat (access 1 1 (buddy_system r)) := (-1)%Z]>
                     (pages (buddy_system r)) ∧
        count_free_pages b' = count_free_pages (buddy_system r) + 1 ∧
        (∀ s' n', ¬ (s' = 1 ∧ n' = 1) →
                  access s' n' b' = access s' n' (buddy_system r)) ∧
        partition_invariant b'.
Proof.
  eexists. split; [vm_compute; reflexivity|].
  apply (deallocate_resident 8 4 4 [mkInstr A 1 3]).
  - apply (bool_decide_unpack _). vm_compute. exact I.
  - vm_compute. reflexivity.
  - vm_compute. discriminate.
Defined.

(** ** Allocating and freeing again *)

Lemma insert_mark_all_free s i idl ps :
  i ∉ idl → ps !! i = Some (-1)%Z →
  <[i := (-1)%Z]> (mark_all s (i :: idl) ps) = mark_all s idl ps.
Proof.
  intros Hi Hfree. apply list_eq. intros q.
  destruct (decide (q < length ps)) as [Hq|Hq].
  - destruct (decide (q = i)) as [->|Hne].
    + rewrite list_lookup_insert_eq by by rewrite mark_all_length.
      rewrite mark_all_lookup by done. by rewrite decide_False.
    + rewrite list_lookup_insert_ne by done. rewrite !mark_all_lookup by done.
      destruct (decide (q ∈ idl)) as [Hin|Hin].
      * rewrite decide_True; [done|by right].
      * rewrite decide_False; [done|]. by intros [?|?]%elem_of_cons.
  - rewrite !lookup_ge_None_2; [done|rewrite ?mark_all_length; lia|].
    rewrite length_insert, mark_all_length. lia.
Qed.

Lemma deallocate_all_roundtrip MAX s k idl b ps m :
  bs_ok MAX b → NoDup idl → Forall (free_at ps) idl →
  pages b = mark_all s idl ps →
  allocated_pages b = <[s := replicate k (-1)%Z ++ (Z.of_nat <$> idl)]> m →
  ∃ b', deallocate_all (seq k (length idl)) s b = Ok b' ∧ bs_ok MAX b' ∧
        pages b' = ps ∧
        allocated_pages b' = <[s := replicate (k + length idl) (-1)%Z]> m ∧
        buddy_count b' = buddy_count b ∧
        (idl ≠ [] → synced b').
Proof.
  revert k b. induction idl as [|i idl IH]; intros k b Hok Hnd Hfr Hpg Hal.
  - exists b. simpl. rewrite Nat.add_0_r. rewrite app_nil_r in Hal. by split_and!.
  - apply NoDup_cons in Hnd as [Hi Hnd]. apply Forall_cons in Hfr as [Hfi Hfr].
    simpl deallocate_all. rewrite (deallocate_spec MAX) by done. simpl.
    assert (Hacc : access s k b = Z.of_nat i).
    { unfold access. rewrite Hal, lookup_insert_eq.
      rewrite lookup_app_r by (rewrite length_replicate; lia).
      by rewrite length_replicate, Nat.sub_diag. }
    assert (Hfreed : freed s k b
              = set_allocated_pages
                  (<[s := replicate (S k) (-1)%Z ++ (Z.of_nat <$> idl)]> m)
                  (set_pages (mark_all s idl ps) b)).
    { unfold freed. rewrite Hacc, bool_decide_eq_true_2 by lia.
      rewrite Nat2Z.id, Hpg, Hal. f_equal.
      - rewrite alter_insert_eq. f_equal.
        rewrite insert_app_r_alt by (rewrite length_replicate; lia).
        rewrite length_replicate, Nat.sub_diag. simpl.
        by rewrite cons_middle, app_assoc, <-replicate_S_end.
      - f_equal. by apply insert_mark_all_free. }
    destruct (IH (S k) (rebuilt (freed s k b))) as (b' & Hb' & Hok' & Hpg' & Hal' & Hc' & _).
    + by apply deallocated_ok.
    + done.
    + done.
    + by rewrite Hfreed.
    + by rewrite Hfreed.
    + exists b'. split; [done|]. split; [done|]. split; [done|].
      split; [by replace (k + S (length idl)) with (S k + length idl) by lia|].
      split; [by rewrite Hc', Hfreed|]. intros _.
      destruct idl as [|j idl].
      * simpl in Hb'. injection Hb' as <-. done.
      * destruct (IH (S k) (rebuilt (freed s k b))) as (b'' & Hb'' & _ & _ & _ & _ & Hs'');
          [by apply deallocated_ok|done|done|by rewrite Hfreed|by rewrite Hfreed|].
        rewrite Hb' in Hb''. injection Hb'' as <-. by apply Hs''.
Qed.

(** X6. Round trip: in a state reached after at least one event,
    requesting [num >= 1] pages for a seqno, recording them with [allocate]
    and deallocating every position again restores the page array and the
    free lists exactly; the record of the seqno is left as a list of
    sentinels. *)
Theorem allocate_free_roundtrip MAX sa si trace r s num :
  trace ≠ [] → simulate MAX sa si trace = Ok r → 1 ≤ num →
  ∃ ids b1 b2,
    request_pages s num (buddy_system r) = Ok (ids, b1) ∧
    deallocate_all (seq 0 (length ids)) s (allocate ids s b1) = Ok b2 ∧
    pages b2 = pages (buddy_system r) ∧
    buddy_lists b2 = buddy_lists (buddy_system r) ∧
    allocated_pages b2
    = <[s := replicate (length ids) (-1)%Z]> (allocated_pages (buddy_system r)).
Proof.
  intros Hne Hsim Hnum.
  destruct (simulate_synced _ _ _ _ _ Hne Hsim) as [[Hok _] Hsync].
  destruct (request_pages_spec MAX s num (buddy_system r) Hok Hnum)
    as (ids & b1 & Hreq & Hspec).
  destruct (requested_ok MAX _ _ _ _ _ Hok Hspec) as (Hok1 & Hsync1 & Hal1 & Hin).
  pose proof Hspec as (idl & -> & Hnd & Hfr & _ & _ & Hb1).
  destruct (deallocate_all_roundtrip MAX s 0 idl (allocate (Z.of_nat <$> idl) s b1)
              (pages (buddy_system r)) (allocated_pages (buddy_system r)))
    as (b2 & Hb2 & Hok2 & Hpg2 & Hal2 & Hc2 & Hs2); [by apply allocate_ok|done|done|..].
  { by rewrite Hb1. }
  { simpl. by rewrite Hal1. }
  exists (Z.of_nat <$> idl), b1, b2. rewrite length_fmap.
  split; [done|]. split; [done|]. split; [done|]. split; [|done].
  destruct idl as [|i idl].
  - simpl in Hb2. injection Hb2 as <-. simpl. rewrite Hb1. simpl.
    by rewrite Hsync.
  - rewrite Hs2 by done. rewrite Hpg2, Hc2. simpl. rewrite Hb1. simpl. by rewrite Hsync.
Qed.

Lemma allocate_free_roundtrip_witness :
  ∃ r, simulate 8 4 4 [mkInstr A 1 3; mkInstr F 1 1] = Ok r ∧
  ∃ ids b1 b2,
    request_pages 2 3 (buddy_system r) = Ok (ids, b1) ∧
    deallocate_all (seq 0 (length ids)) 2 (allocate ids 2 b1) = Ok b2 ∧
    pages b2 = pages (buddy_system r) ∧
    buddy_lists b2 = buddy_lists (buddy_system r) ∧
    allocated_pages b2
    = <[2 := replicate (length ids) (-1)%Z]> (allocated_pages (buddy_system r)).
Proof.
  eexists. split; [vm_compute; reflexivity|].
  apply (allocate_free_roundtrip 8 4 4 [mkInstr A 1 3; mkInstr F 1 1]).
  - discriminate.
  - vm_compute. reflexivity.
  - lia.
Defined.

(** ** Reclaiming a given number of pages *)

Lemma evict_count pend nd L b :
  linked pend (nd :: L) b →
  count_free_pages (rebuilt (freed (seqno_of nd) (num_of nd) b))
  = count_free_pages b + 1.
Proof.
  intros Hl. destruct (linked_evict _ _ _ _ Hl) as (Hacc & _ & _).
  destruct (lk_node _ _ _ Hl (page_id_of nd) (seqno_of nd) (num_of nd)) as (Hp & He & _).
  { destruct nd as [[? ?] ?]. left. }
  pose proof (lk_owner _ _ _ Hl _ _ _ He Hp) as Hown.
  rewrite !count_free_pages_free_count. simpl. unfold freed.
  rewrite Hacc, bool_decide_eq_true_2 by done. simpl.
  pose proof (free_count_insert _ _ _ (-1)%Z Hown) as Hins.
  rewrite decide_False in Hins by lia. rewrite decide_True in Hins by done. lia.
Qed.

Lemma access_range MAX b s n : bs_ok MAX b → (-1 ≤ access s n b)%Z.
Proof.
  intros (_ & _ & Hids). unfold access.
  destruct (allocated_pages b !! s) as [l|] eqn:El; [|lia].
  destruct (l !! n) as [p|] eqn:Ep; [|lia].
  specialize (Hids s l p El (list_elem_of_lookup_2 _ _ _ Ep)). lia.
Qed.

Lemma reclaim_loop_exact MAX n locals r :
  bs_ok MAX (buddy_system r) → linked no_pending (nodes r) (buddy_system r) →
  n ≤ length (nodes r) →
  ∃ r', reclaim_loop n locals r = Ok r' ∧
        inactive_list r' = drop n (inactive_list r) ∧
        active_list r' = drop (n - length (inactive_list r)) (active_list r) ∧
        count_free_pages (buddy_system r') = count_free_pages (buddy_system r) + n ∧
        (∀ nd, nd ∈ take n (nodes r) →
               access (seqno_of nd) (num_of nd) (buddy_system r') = (-1)%Z).
Proof.
  revert locals r. induction n as [|n IH]; intros locals r Hok Hl Hn.
  - exists r. simpl. rewrite !drop_0, Nat.add_0_r. split_and!; try done.
    by intros nd ?%elem_of_nil.
  - simpl reclaim_loop.
    assert (Hgo : ∀ nd r1, nodes r = nd :: nodes r1 → buddy_system r1 = buddy_system r →
      ∃ r', (reclaim (page_id_of nd) (seqno_of nd) (num_of nd) r1
             ≫= λ r2, reclaim_loop n (Some nd) r2) = Ok r' ∧
            inactive_list r' = drop n (inactive_list r1) ∧
            active_list r' = drop (n - length (inactive_list r1)) (active_list r1) ∧
            count_free_pages (buddy_system r')
            = count_free_pages (buddy_system r) + S n ∧
            (∀ nd', nd' ∈ take (S n) (nodes r) →
                    access (seqno_of nd') (num_of nd') (buddy_system r') = (-1)%Z)).
    { intros nd r1 Hnodes Hbs. rewrite Hnodes in Hl, Hn. simpl in Hn.
      assert (Hok1 : bs_ok MAX (buddy_system r1)) by by rewrite Hbs.
      assert (Hl1 : linked no_pending (nd :: nodes r1) (buddy_system r1)) by by rewrite Hbs.
      rewrite (reclaim_spec MAX) by done. simpl.
      destruct (linked_evict _ _ _ _ Hl1) as (Hacc & Hother & Hl').
      assert (Hrec : reclaimed (page_id_of nd) (seqno_of nd) (num_of nd) r1
                     = set_buddy_system
                         (rebuilt (freed (seqno_of nd) (num_of nd) (buddy_system r1))) r1).
      { unfold reclaimed. by rewrite delete_absent. }
      rewrite Hrec.
      destruct (IH (Some nd) (set_buddy_system
                  (rebuilt (freed (seqno_of nd) (num_of nd) (buddy_system r1))) r1))
        as (r' & Hr' & Hi' & Ha' & Hc' & Hacc');
        [by apply deallocated_ok|done|unfold nodes in *; simpl in *; lia|].
      exists r'. split; [done|]. split; [done|]. split; [done|]. split.
      { rewrite Hc'. simpl. rewrite (evict_count _ _ _ _ Hl1), Hbs. lia. }
      rewrite Hnodes. simpl. intros nd' [->|Hin]%elem_of_cons; [|by apply Hacc'].
      assert (Hfade := reclaim_loop_fades MAX _ _ _ _
                         (deallocated_ok MAX _ _ _ Hok1 : bs_ok MAX (buddy_system
                            (set_buddy_system (rebuilt (freed (seqno_of nd) (num_of nd)
                               (buddy_system r1))) r1))) Hr').
      assert (Hok' : bs_ok MAX (buddy_system r')).
      { destruct (reclaim_loop_spec MAX n (Some nd)
                    (set_buddy_system (rebuilt (freed (seqno_of nd) (num_of nd)
                       (buddy_system r1))) r1)) as (r'' & Hr'' & Hok'' & _);
          [by apply deallocated_ok|by right; left|].
        rewrite Hr' in Hr''. by injection Hr'' as <-. }
      pose proof (access_range MAX _ (seqno_of nd) (num_of nd) Hok') as Hge.
      destruct (decide (0 ≤ access (seqno_of nd) (num_of nd) (buddy_system r'))%Z)
        as [Hres|Hres]; [|lia].
      pose proof (Hfade _ _ _ (access_entry _ _ _ Hres) Hres) as He. simpl in He.
      assert (Hres1 : (0 ≤ access (seqno_of nd) (num_of nd) (buddy_system r1))%Z).
      { rewrite Hacc. destruct nd as [[p s] k].
        by destruct (lk_node _ _ _ Hl1 p s k ltac:(left)) as (? & _). }
      apply (entry_freed _ _ _ _ _ _ Hres1) in He.
      rewrite decide_True in He by done. lia. }
    destruct (inactive_list r) as [|nd l] eqn:Ei.
    + destruct (active_list r) as [|nd l] eqn:Ea.
      * unfold nodes in Hn. rewrite Ei, Ea in Hn. simpl in Hn. lia.
      * destruct (Hgo nd (set_active_list l r)) as (r' & Hr' & Hi' & Ha' & Hc' & Hacc').
        { unfold nodes. simpl. by rewrite Ei, Ea. } { done. }
        exists r'. split; [done|]. simpl in *. rewrite Ei in Hi', Ha'.
        rewrite Hi', Ha', drop_nil. simpl. rewrite Nat.sub_0_r. by split_and!.
      + destruct (Hgo nd (set_inactive_list l r)) as (r' & Hr' & Hi' & Ha' & Hc' & Hacc').
        { unfold nodes. simpl. by rewrite Ei. } { done. }
        exists r'. split; [done|]. simpl in *. by split_and!.
Qed.

(** X7. After a trace in which no seqno is allocated twice,
    [reclaim_n_pages(n)] with [n] at most the number of nodes evicts exactly
    [n] nodes in LRU order: the inactive list loses its first [n] nodes, the
    active list the rest of the demand, every evicted position reads [-1]
    afterwards, and exactly [n] more pages are free. *)
Theorem reclaim_n_pages_exact MAX sa si trace r n :
  fresh_allocs trace → simulate MAX sa si trace = Ok r →
  n ≤ length (inactive_list r) + length (active_list r) →
  ∃ r', reclaim_n_pages n r = Ok r' ∧
        inactive_list r' = drop n (inactive_list r) ∧
        active_list r' = drop (n - length (inactive_list r)) (active_list r) ∧
        count_free_pages (buddy_system r') = count_free_pages (buddy_system r) + n ∧
        (∀ nd, nd ∈ take n (inactive_list r ++ active_list r) →
               access (seqno_of nd) (num_of nd) (buddy_system r') = (-1)%Z).
Proof.
  intros Hfresh Hsim Hn.
  pose proof (simulate_consistent _ _ _ _ _ Hsim Hfresh) as ([Hok _] & _ & Hl).
  apply (reclaim_loop_exact MAX); [done|done|].
  unfold nodes. by rewrite length_app.
Qed.

Lemma reclaim_n_pages_exact_witness :
  ∃ r, simulate 8 2 3 [mkInstr A 1 3; mkInstr X 1 0; mkInstr X 1 1] = Ok r ∧
  ∃ r', reclaim_n_pages 2 r = Ok r' ∧
        inactive_list r' = drop 2 (inactive_list r) ∧
        active_list r' = drop (2 - length (inactive_list r)) (active_list r) ∧
        count_free_pages (buddy_system r') = count_free_pages (buddy_system r) + 2 ∧
        (∀ nd, nd ∈ take 2 (inactive_list r ++ active_list r) →
               access (seqno_of nd) (num_of nd) (buddy_system r') = (-1)%Z).
Proof.
  eexists. split; [vm_compute; reflexivity|].
  apply (reclaim_n_pages_exact 8 2 3 [mkInstr A 1 3; mkInstr X 1 0; mkInstr X 1 1]).
  - apply (bool_decide_unpack _). vm_compute. exact I.
  - vm_compute. reflexivity.
  - simpl. lia.
Defined.

(** ** Searching and deleting nodes *)

Lemma find_pos_first p l k i :
  find_pos p l k = Some i →
  ∀ j nd, j < i - k → l !! j = Some nd → page_id_of nd ≠ p.
Proof.
  revert k. induction l as [|x l IH]; intros k; [done|]. simpl.
  case_bool_decide as Hp.
  - intros [= <-] j nd Hj. lia.
  - intros Hfind j nd Hj Hnd. destruct j as [|j].
    + by injection Hnd as <-.
    + apply (IH (S k) Hfind j nd); [|done].
      apply find_pos_Some in Hfind as (_ & ? & _). lia.
Qed.

(** X8. [find_index] reports the first node of the inactive list that
    carries the page id; when the inactive list has none, the first such
    node of the active list; and [(-1, -1)] exactly when no node of either
    list carries it. *)
Theorem find_index_spec p r :
  let '(list_id, idx) := find_index p r in
  (list_id = 0%Z ∧ (0 ≤ idx)%Z ∧
   (∃ nd, inactive_list r !! Z.to_nat idx = Some nd ∧ page_id_of nd = p) ∧
   (∀ j nd, j < Z.to_nat idx → inactive_list r !! j = Some nd → page_id_of nd ≠ p)) ∨
  (list_id = 1%Z ∧ (0 ≤ idx)%Z ∧
   (∀ nd, nd ∈ inactive_list r → page_id_of nd ≠ p) ∧
   (∃ nd, active_list r !! Z.to_nat idx = Some nd ∧ page_id_of nd = p) ∧
   (∀ j nd, j < Z.to_nat idx → active_list r !! j = Some nd → page_id_of nd ≠ p)) ∨
  (list_id = (-1)%Z ∧ idx = (-1)%Z ∧
   ∀ nd, nd ∈ inactive_list r ++ active_list r → page_id_of nd ≠ p).
Proof.
  unfold find_index.
  destruct (find_pos p (inactive_list r) 0) as [i|] eqn:Ei.
  - left. split; [done|]. split; [lia|]. rewrite Nat2Z.id.
    pose proof (find_pos_first _ _ _ _ Ei) as Hfirst.
    apply find_pos_Some in Ei as (nd & _ & Hnd & Hp). rewrite Nat.sub_0_r in *.
    split; [eauto|done].
  - rewrite find_pos_None in Ei.
    destruct (find_pos p (active_list r) 0) as [i|] eqn:Ea.
    + right. left. split; [done|]. split; [lia|]. rewrite Nat2Z.id.
      pose proof (find_pos_first _ _ _ _ Ea) as Hfirst.
      apply find_pos_Some in Ea as (nd & _ & Hnd & Hp). rewrite Nat.sub_0_r in *.
      split; [done|]. split; [eauto|done].
    + right. right. split; [done|]. split; [done|].
      rewrite find_pos_None in Ea.
      intros nd [?|?]%elem_of_app; [by apply Ei|by apply Ea].
Qed.

Lemma find_pos_delete p l k i :
  find_pos p l k = Some i → NoDup (page_id_of <$> l) →
  base.delete (i - k) l = filter (λ x, page_id_of x ≠ p) l.
Proof.
  revert k. induction l as [|x l IH]; intros k; [done|]. simpl find_pos.
  rewrite fmap_cons, filter_cons. intros Hfind [Hx Hnd]%NoDup_cons.
  case_bool_decide as Hp.
  - injection Hfind as <-. rewrite Nat.sub_diag. simpl.
    rewrite decide_False by (by intros ?).
    symmetry. apply filter_all. intros y Hy Hpy. apply Hx.
    rewrite Hp, <-Hpy. apply list_elem_of_fmap. eauto.
  - rewrite decide_True by done.
    pose proof (find_pos_Some _ _ _ _ Hfind) as (_ & Hk & _).
    replace (i - k) with (S (i - S k)) by lia. simpl. f_equal. by apply IH.
Qed.

(** X9. On lists whose nodes carry distinct page ids, [delete_old]
    completes and has the same effect as [delete]. *)
Theorem delete_old_delete p r :
  NoDup (page_id_of <$> inactive_list r ++ active_list r) →
  delete_old p r = Ok (delete p r).
Proof.
  intros Hnd. pose proof Hnd as Hnd'. rewrite fmap_app in Hnd'.
  apply NoDup_app in Hnd' as (Hi & Hdisj & Ha).
  unfold delete_old, delete, find_index.
  rewrite !delete_in_filter by done.
  destruct (find_pos p (inactive_list r) 0) as [i|] eqn:Ei.
  - rewrite bool_decide_eq_true_2 by done. rewrite Nat2Z.id.
    pose proof (find_pos_delete _ _ _ _ Ei Hi) as Hdel. rewrite Nat.sub_0_r in Hdel.
    apply find_pos_Some in Ei as (nd & _ & Hnd0 & Hp). rewrite Nat.sub_0_r in Hnd0.
    unfold pop_at. rewrite Hnd0. simpl. rewrite Hdel.
    rewrite (filter_all _ (active_list r)).
    + by destruct r.
    + intros y Hy Hpy. apply (Hdisj p).
      * rewrite <-Hp. apply list_elem_of_fmap. exists nd. split; [done|].
        by eapply list_elem_of_lookup_2.
      * rewrite <-Hpy. apply list_elem_of_fmap. eauto.
  - rewrite (filter_all _ (inactive_list r)) by exact (proj1 (find_pos_None _ _ _) Ei).
    destruct (find_pos p (active_list r) 0) as [i|] eqn:Ea.
    + rewrite bool_decide_eq_false_2 by done. rewrite bool_decide_eq_true_2 by done.
      rewrite Nat2Z.id.
      pose proof (find_pos_delete _ _ _ _ Ea Ha) as Hdel. rewrite Nat.sub_0_r in Hdel.
      apply find_pos_Some in Ea as (nd & _ & Hnd0 & Hp). rewrite Nat.sub_0_r in Hnd0.
      unfold pop_at. rewrite Hnd0. simpl. rewrite Hdel. by destruct r.
    + rewrite !bool_decide_eq_false_2 by done.
      rewrite (filter_all _ (active_list r)) by exact (proj1 (find_pos_None _ _ _) Ea).
      by destruct r.
Qed.

Lemma delete_old_delete_witness :
  delete_old 5 (mkLRU [(3%Z, 1, 0); (5%Z, 2, 1)] [(4%Z, 1, 1)] 2 2
                  (mkBuddySystem 1 [[]] [] ∅))
  = Ok (delete 5 (mkLRU [(3%Z, 1, 0); (5%Z, 2, 1)] [(4%Z, 1, 1)] 2 2
                    (mkBuddySystem 1 [[]] [] ∅))).
Proof.
  apply delete_old_delete. apply (bool_decide_unpack _). vm_compute. exact I.
Defined.

Lemma delete_loop_keeps_head fuel i p y l :
  1 ≤ i → y ∉ l → ∃ l', delete_loop fuel i p (y :: l) = y :: l'.
Proof.
  revert i l. induction fuel as [|fuel IH]; intros i l Hi Hy; [by exists l|].
  simpl. destruct ((y :: l) !! i) as [nd|] eqn:E; [|by exists l].
  case_bool_decide; [|apply IH; [lia|done]].
  destruct i as [|i]; [lia|]. simpl in E.
  assert (y ≠ nd).
  { intros ->. apply Hy. by eapply list_elem_of_lookup_2. }
  rewrite decide_False by done. apply IH; [lia|].
  intros Hin. apply Hy.
  clear -Hin. induction l as [|z l IHl]; [done|]. simpl in Hin.
  case_decide; [by right|]. apply elem_of_cons in Hin as [->|Hin]; [left|right; by apply IHl].
Qed.

(** X10. [delete] removes nodes while it iterates over the list, so it
    skips the node that follows a removed one: when the first two nodes of
    the inactive list both carry the page id, the second one is still in
    the list afterwards. *)
Theorem delete_skips_next p x y l r :
  inactive_list r = x :: y :: l → page_id_of x = p → page_id_of y = p → y ∉ l →
  ∃ l', inactive_list (delete p r) = y :: l'.
Proof.
  intros Hr Hx Hy Hnin. unfold delete.
  cbn [inactive_list set_active_list set_inactive_list]. rewrite Hr. unfold delete_in.
  change (delete_loop (length (x :: y :: l)) 0 p (x :: y :: l))
    with (if bool_decide (page_id_of x = p)
          then delete_loop (S (length l)) 1 p (remove_first x (x :: y :: l))
          else delete_loop (S (length l)) 1 p (x :: y :: l)).
  rewrite bool_decide_eq_true_2 by done.
  change (remove_first x (x :: y :: l))
    with (if decide (x = x) then y :: l else x :: remove_first x (y :: l)).
  rewrite decide_True by done. by apply delete_loop_keeps_head.
Qed.

Lemma delete_skips_next_witness :
  ∃ l', inactive_list
          (delete 1 (mkLRU [] [(1%Z, 1, 0); (1%Z, 2, 0); (3%Z, 3, 0)] 3 3
                       (mkBuddySystem 1 [[]] [] ∅)))
        = (1%Z, 2, 0) :: l'.
Proof.
  apply (delete_skips_next 1 (1%Z, 1, 0) (1%Z, 2, 0) [(3%Z, 3, 0)]); try done.
  intros Hin. apply list_elem_of_singleton in Hin. discriminate.
Defined.

(** ** Recording and reading page ids *)

(** X11. Round trip of the allocation record: after [allocate(page_ids,
    seqno)], [access(seqno, num)] returns the [num]-th id, or [-1] beyond
    the list, and the positions of other seqnos read as before; after a
    successful positional [allocate(page_ids, seqno, idx)], [access(seqno,
    idx)] returns the last id and every other position reads as before. *)
Theorem allocate_access ids s b :
  (∀ s' n, access s' n (allocate ids s b)
           = if decide (s' = s) then default (-1)%Z (ids !! n) else access s' n b) ∧
  (∀ idx b', allocate_at ids s idx b = Ok b' →
     ∃ p, last ids = Some p ∧ access s idx b' = p ∧
          ∀ s' n, ¬ (s' = s ∧ n = idx) → access s' n b' = access s' n b).
Proof.
  split.
  - intros s' n. unfold access, allocate. simpl. case_decide as Hs.
    + subst s'. rewrite lookup_insert_eq. by destruct (ids !! n).
    + by rewrite lookup_insert_ne.
  - intros idx b' Hat. unfold allocate_at in Hat.
    destruct (last ids) as [p|]; [|done].
    destruct (allocated_pages b !! s) as [l|] eqn:El; [|done].
    case_decide; [|done]. injection Hat as <-.
    exists p. split; [done|]. unfold access. simpl. split.
    + by rewrite lookup_insert_eq, list_lookup_insert_eq.
    + intros s' n Hne. destruct (decide (s' = s)) as [->|Hs].
      * rewrite lookup_insert_eq, El. rewrite list_lookup_insert_ne; [done|].
        intros ->. by apply Hne.
      * by rewrite lookup_insert_ne.
Qed.

Lemma allocate_access_witness :
  ∃ b', allocate_at [7%Z] 1 0 (mkBuddySystem 1 [[]] [] {[1 := [3%Z; 4%Z]]}) = Ok b' ∧
  ∃ p, last [7%Z] = Some p ∧ access 1 0 b' = p ∧
       ∀ s' n, ¬ (s' = 1 ∧ n = 0) →
               access s' n b'
               = access s' n (mkBuddySystem 1 [[]] [] {[1 := [3%Z; 4%Z]]}).
Proof.
  eexists. split; [vm_compute; reflexivity|].
  apply (proj2 (allocate_access [7%Z] 1 (mkBuddySystem 1 [[]] [] {[1 := [3%Z; 4%Z]]}))).
  vm_compute. reflexivity.
Defined.

(** ** Ownership *)

(** X12. After a trace in which no seqno is allocated twice, the allocation
    record, the page array and the LRU nodes agree: a recorded page id is a
    slot owned by that seqno, no page id is recorded at two positions, every
    owned slot is recorded by its owner, and every node [(page_id, seqno,
    num)] is the current entry of position [num] of [seqno]. *)
Theorem record_pages_agree MAX sa si trace r :
  fresh_allocs trace → simulate MAX sa si trace = Ok r →
  (∀ s n p, entry (buddy_system r) s n p → (0 ≤ p)%Z →
            pages (buddy_system r) !! Z.to_nat p = Some (Z.of_nat s)) ∧
  (∀ s n s' n' p, entry (buddy_system r) s n p → entry (buddy_system r) s' n' p →
                  (0 ≤ p)%Z → s = s' ∧ n = n') ∧
  (∀ p v, pages (buddy_system r) !! p = Some v → (0 ≤ v)%Z →
          ∃ n, entry (buddy_system r) (Z.to_nat v) n (Z.of_nat p)) ∧
  (∀ p s n, (p, s, n) ∈ inactive_list r ++ active_list r →
            (0 ≤ p)%Z ∧ entry (buddy_system r) s n p).
Proof.
  intros Hfresh Hsim.
  pose proof (simulate_consistent _ _ _ _ _ Hsim Hfresh) as (_ & _ & Hl).
  split; [apply (lk_owner _ _ _ Hl)|]. split; [apply (lk_inj _ _ _ Hl)|].
  split; [apply (lk_leak _ _ _ Hl)|].
  intros p s n Hin. by destruct (lk_node _ _ _ Hl p s n Hin) as (? & ? & _).
Qed.

Lemma record_pages_agree_witness :
  ∃ r, simulate 8 2 2 [mkInstr A 1 4; mkInstr X 1 2; mkInstr F 1 3; mkInstr A 2 3] = Ok r ∧
  (∀ s n p, entry (buddy_system r) s n p → (0 ≤ p)%Z →
            pages (buddy_system r) !! Z.to_nat p = Some (Z.of_nat s)) ∧
  (∀ s n s' n' p, entry (buddy_system r) s n p → entry (buddy_system r) s' n' p →
                  (0 ≤ p)%Z → s = s' ∧ n = n') ∧
  (∀ p v, pages (buddy_system r) !! p = Some v → (0 ≤ v)%Z →
          ∃ n, entry (buddy_system r) (Z.to_nat v) n (Z.of_nat p)) ∧
  (∀ p s n, (p, s, n) ∈ inactive_list r ++ active_list r →
            (0 ≤ p)%Z ∧ entry (buddy_system r) s n p).
Proof.
  eexists. split; [vm_compute; reflexivity|].
  apply (record_pages_agree 8 2 2
           [mkInstr A 1 4; mkInstr X 1 2; mkInstr F 1 3; mkInstr A 2 3]).
  - apply (bool_decide_unpack _). vm_compute. exact I.
  - vm_compute. reflexivity.
Defined.

Lemma filter_complement_length {A} (P : A → Prop) `{!∀ x, Decision (P x)} (l : list A) :
  length (filter P l) + length (filter (λ x, ¬ P x) l) = length l.
Proof.
  induction l as [|x l IH]; [done|]. rewrite !filter_cons.
  destruct (decide (P x)).
  - rewrite decide_False by tauto. simpl. lia.
  - rewrite decide_True by done. simpl. lia.
Qed.

(** X13. Conservation of pages: after a trace in which no seqno is
    allocated twice, every page is either free or resident with exactly one
    node, so [count_free_pages()] plus the lengths of the two LRU lists is
    [MAX_PAGENO]; hence at least [MAX_PAGENO - size_active - size_inactive]
    pages are free. *)
Theorem pages_conserved MAX sa si trace r :
  fresh_allocs trace → simulate MAX sa si trace = Ok r →
  count_free_pages (buddy_system r)
  + (length (inactive_list r) + length (active_list r)) = MAX ∧
  MAX - (sa + si) ≤ count_free_pages (buddy_system r).
Proof.
  intros Hfresh Hsim.
  pose proof (simulate_consistent _ _ _ _ _ Hsim Hfresh)
    as ([[Hs _] _] & _ & Hl).
  destruct Hs as (HM & Hlen & _ & _ & Hall).
  set (ps := pages (buddy_system r)) in *.
  set (owned := filter (λ q, ¬ free_at ps q) (seq 0 (length ps))).
  assert (Hperm : page_id_of <$> nodes r ≡ₚ Z.of_nat <$> owned).
  { apply NoDup_Permutation.
    - apply (lk_nodup _ _ _ Hl).
    - apply NoDup_fmap; [apply Nat2Z.inj'|]. apply NoDup_filter, NoDup_seq.
    - intros x. rewrite !list_elem_of_fmap. split.
      + intros ([[p s] n] & -> & Hin).
        destruct (lk_node _ _ _ Hl p s n Hin) as (Hp & He & _).
        pose proof (lk_owner _ _ _ Hl _ _ _ He Hp) as Hown. fold ps in Hown.
        exists (Z.to_nat p). unfold page_id_of. simpl. split; [lia|].
        apply list_elem_of_filter. split.
        * unfold free_at. rewrite Hown. intros [= ?]. lia.
        * apply elem_of_seq. apply lookup_lt_Some in Hown. lia.
      + intros (q & -> & Hq). apply list_elem_of_filter in Hq as [Hnf Hq%elem_of_seq].
        destruct (lookup_lt_is_Some_2 ps q) as [v Hv]; [lia|].
        assert (0 ≤ v)%Z as Hv0.
        { rewrite Forall_forall in Hall.
          pose proof (Hall v (list_elem_of_lookup_2 _ _ _ Hv)).
          destruct (decide (v = (-1)%Z)) as [->|]; [by destruct Hnf|lia]. }
        destruct (lk_leak _ _ _ Hl q v Hv Hv0) as [n He].
        assert (0 ≤ Z.of_nat q)%Z as Hq0 by lia.
        destruct (lk_entry _ _ _ Hl _ _ _ He Hq0) as [[]|Hin].
        exists (Z.of_nat q, Z.to_nat v, n). done. }
  assert (Hcount : count_free_pages (buddy_system r)
                   + (length (inactive_list r) + length (active_list r)) = MAX).
  { apply Permutation_length in Hperm. rewrite !length_fmap in Hperm.
    unfold nodes in Hperm. rewrite length_app in Hperm. rewrite Hperm.
    rewrite count_free_pages_free_count, free_count_free_ids. fold ps.
    unfold free_ids, owned. rewrite filter_complement_length, length_seq. done. }
  split; [done|].
  pose proof (simulate_safe _ _ _ _ _ Hsim) as Hsafe.
  assert (Hcap : length (active_list r) ≤ sa ∧ length (inactive_list r) ≤ si).
  { unfold simulate in Hsim. inv_bind Hsim. rename x into r0.
    apply simulator_safe in Hx as (Hsafe0 & Hempty & Hsa & Hsi & _).
    apply (run_safe MAX) in Hsim as ([_ [Ha Hi]] & _ & _ & Hsa' & Hsi'); [|done|by right].
    rewrite <-Hsa, <-Hsi, <-Hsa', <-Hsi'. done. }
  lia.
Qed.

Lemma pages_conserved_witness :
  ∃ r, simulate 8 2 2 [mkInstr A 1 4; mkInstr X 1 2; mkInstr F 1 3; mkInstr A 2 3] = Ok r ∧
       count_free_pages (buddy_system r)
       + (length (inactive_list r) + length (active_list r)) = 8 ∧
       8 - (2 + 2) ≤ count_free_pages (buddy_system r).
Proof.
  eexists. split; [vm_compute; reflexivity|].
  apply (pages_conserved 8 2 2
           [mkInstr A 1 4; mkInstr X 1 2; mkInstr F 1 3; mkInstr A 2 3]).
  - apply (bool_decide_unpack _). vm_compute. exact I.
  - vm_compute. reflexivity.
Defined.

(** ** Effects of single operations and events *)

(** X14. After a trace in which no seqno is allocated twice,
    [insert_inactive] of a page id that no node carries appends the node at
    the tail of the inactive list and leaves the active list alone; when the
    inactive list was not full nothing else changes, and when it was full
    exactly one node is evicted, the head of the extended list, whose
    position is deallocated. *)
Theorem insert_inactive_effect MAX sa si trace r p s n :
  fresh_allocs trace → simulate MAX sa si trace = Ok r →
  (∀ nd, nd ∈ inactive_list r ++ active_list r → page_id_of nd ≠ p) →
  ∃ r', insert_inactive p s n r = Ok r' ∧ active_list r' = active_list r ∧
    ((length (inactive_list r) < si ∧
      inactive_list r' = inactive_list r ++ [(p, s, n)] ∧
      buddy_system r' = buddy_system r) ∨
     (length (inactive_list r) = si ∧
      ∃ nd l q, inactive_list r ++ [(p, s, n)] = nd :: l ∧ inactive_list r' = l ∧
                deallocate (seqno_of nd) (num_of nd) (buddy_system r)
                = Ok (q, buddy_system r'))).
Proof.
  intros Hfresh Hsim Hnew.
  pose proof (simulate_consistent _ _ _ _ _ Hsim Hfresh) as ([Hok [Hact Hina]] & _ & Hl).
  destruct (simulate_sizes _ _ _ _ _ Hsim) as [_ Hsi]. rewrite Hsi in Hina.
  rewrite (insert_inactive_spec MAX) by (done || by rewrite Hsi).
  eexists. split; [done|]. unfold inserted. rewrite Hsi. case_decide as Hroom.
  - split; [done|]. left. done.
  - destruct (inactive_list r ++ [(p, s, n)]) as [|nd l] eqn:E.
    { by destruct (inactive_list r). }
    assert (Hnd : NoDup (page_id_of <$> (nd :: l) ++ active_list r)).
    { rewrite <-E. rewrite <-app_assoc.
      rewrite (Permutation_app_comm [(p, s, n)]), app_assoc.
      rewrite fmap_app. apply NoDup_app. split; [apply (lk_nodup _ _ _ Hl)|].
      split; [|apply NoDup_singleton].
      intros q Hq Hq'. apply list_elem_of_singleton in Hq'. subst q.
      apply list_elem_of_fmap in Hq as (x & Hx & Hin). by destruct (Hnew x Hin). }
    simpl in Hnd. apply NoDup_cons in Hnd as [Hfirst _].
    assert (Hdel : delete (page_id_of nd) (set_inactive_list l r) = set_inactive_list l r).
    { apply delete_absent. intros x Hx Hpx. apply Hfirst. rewrite <-Hpx.
      apply list_elem_of_fmap. eauto. }
    unfold reclaimed. rewrite Hdel. simpl. split; [done|]. right.
    split; [lia|]. exists nd, l, (access (seqno_of nd) (num_of nd) (buddy_system r)).
    split; [done|]. split; [done|]. by apply (deallocate_spec MAX).
Qed.

Lemma insert_inactive_effect_witness :
  ∃ r, simulate 8 2 2 [mkInstr A 1 2] = Ok r ∧
  ∃ r', insert_inactive 5 3 0 r = Ok r' ∧ active_list r' = active_list r ∧
    ((length (inactive_list r) < 2 ∧
      inactive_list r' = inactive_list r ++ [(5%Z, 3, 0)] ∧
      buddy_system r' = buddy_system r) ∨
     (length (inactive_list r) = 2 ∧
      ∃ nd l q, inactive_list r ++ [(5%Z, 3, 0)] = nd :: l ∧ inactive_list r' = l ∧
                deallocate (seqno_of nd) (num_of nd) (buddy_system r)
                = Ok (q, buddy_system r'))).
Proof.
  eexists. split; [vm_compute; reflexivity|].
  apply (insert_inactive_effect 8 2 2 [mkInstr A 1 2]).
  - apply (bool_decide_unpack _). vm_compute. exact I.
  - vm_compute. reflexivity.
  - simpl. intros nd Hnd.
    apply elem_of_cons in Hnd as [->|Hnd]; [done|].
    apply elem_of_cons in Hnd as [->|Hnd]; [done|]. by apply elem_of_nil in Hnd.
Defined.

(** X15. In a state within its list capacities, [promote] of a page id
    whose first node [nd] is in the inactive list never touches the buddy
    system: it removes [nd] from the inactive list and appends it to the
    active list; when the active list was full, its head is popped and
    appended to the inactive list instead of being evicted. *)
Theorem promote_effect p r l1 nd l2 :
  capacity r → inactive_list r = l1 ++ nd :: l2 → page_id_of nd = p →
  (∀ x, x ∈ l1 → page_id_of x ≠ p) →
  ∃ r', promote p r = Ok r' ∧ buddy_system r' = buddy_system r ∧
    (length (active_list r) < size_active r →
     inactive_list r' = l1 ++ l2 ∧ active_list r' = active_list r ++ [nd]) ∧
    (length (active_list r) = size_active r →
     ∃ hd tl, active_list r ++ [nd] = hd :: tl ∧
              inactive_list r' = l1 ++ l2 ++ [hd] ∧ active_list r' = tl).
Proof.
  intros Hcap Hina Hp Hl1. rewrite promote_spec by done.
  eexists. split; [done|]. split; [apply promoted_buddy_system|].
  unfold promoted. rewrite Hina, (find_pos_app p l1 nd l2 0) by done. simpl.
  rewrite list_lookup_middle by done. rewrite delete_middle.
  rewrite length_app. simpl. split.
  - intros Hroom. by rewrite decide_False by lia.
  - intros Hfull. rewrite decide_True by lia.
    destruct (active_list r ++ [nd]) as [|hd tl] eqn:E.
    { by destruct (active_list r). }
    exists hd, tl. simpl. by rewrite <-app_assoc.
Qed.

Lemma promote_effect_witness :
  ∃ r', promote 5 (mkLRU [(3%Z, 1, 0)] [(4%Z, 1, 1); (5%Z, 2, 1)] 1 2
                     (mkBuddySystem 1 [[]] [] ∅)) = Ok r' ∧
    buddy_system r' = mkBuddySystem 1 [[]] [] ∅ ∧
    (1 < 1 → inactive_list r' = [(4%Z, 1, 1)] ++ [] ∧
             active_list r' = [(3%Z, 1, 0)] ++ [(5%Z, 2, 1)]) ∧
    (1 = 1 → ∃ hd tl, [(3%Z, 1, 0)] ++ [(5%Z, 2, 1)] = hd :: tl ∧
                      inactive_list r' = [(4%Z, 1, 1)] ++ [] ++ [hd] ∧
                      active_list r' = tl).
Proof.
  apply (promote_effect 5
           (mkLRU [(3%Z, 1, 0)] [(4%Z, 1, 1); (5%Z, 2, 1)] 1 2 (mkBuddySystem 1 [[]] [] ∅))
           [(4%Z, 1, 1)] (5%Z, 2, 1) []).
  - split; simpl; lia.
  - reflexivity.
  - reflexivity.
  - intros x Hx. apply list_elem_of_singleton in Hx as ->. discriminate.
Defined.

(** X16. After a trace in which no seqno is allocated twice, a Free event
    on a resident position completes: the node of its page leaves the LRU
    lists (all other nodes stay, in order), the position reads [-1], and
    one more page is free. *)
Theorem free_resident MAX sa si trace r s n :
  fresh_allocs trace → simulate MAX sa si trace = Ok r →
  (0 ≤ access s n (buddy_system r))%Z →
  ∃ r', step r (mkInstr F s n) = Ok r' ∧
    inactive_list r'
    = filter (λ x, page_id_of x ≠ access s n (buddy_system r)) (inactive_list r) ∧
    active_list r'
    = filter (λ x, page_id_of x ≠ access s n (buddy_system r)) (active_list r) ∧
    length (inactive_list r') + length (active_list r') + 1
    = length (inactive_list r) + length (active_list r) ∧
    access s n (buddy_system r') = (-1)%Z ∧
    count_free_pages (buddy_system r') = count_free_pages (buddy_system r) + 1.
Proof.
  intros Hfresh Hsim Hres.
  pose proof (simulate_consistent _ _ _ _ _ Hsim Hfresh) as ([Hok _] & _ & Hl).
  set (p := access s n (buddy_system r)) in *.
  pose proof (access_entry _ _ _ Hres) as He. fold p in He.
  destruct (lk_entry _ _ _ Hl _ _ _ He Hres) as [[]|Hin].
  pose proof (lk_nodup _ _ _ Hl) as Hnd.
  pose proof Hnd as Hnd'. unfold nodes in Hnd'. rewrite fmap_app in Hnd'.
  apply NoDup_app in Hnd' as (Hi & _ & Ha).
  unfold step. simpl. rewrite (deallocate_spec MAX) by done. simpl. fold p.
  eexists. split; [done|]. simpl. rewrite !delete_in_filter by done.
  split; [done|]. split; [done|].
  pose proof (filter_out_Permutation (p, s, n) (nodes r) Hnd Hin) as Hperm.
  apply Permutation_length in Hperm. unfold nodes in Hperm.
  rewrite filter_app in Hperm. simpl in Hperm. rewrite !length_app in Hperm.
  change (page_id_of (p, s, n)) with p in Hperm.
  split; [lia|].
  assert (Hlnk : linked no_pending ((p, s, n) :: filter (λ x, page_id_of x ≠ p) (nodes r))
                   (buddy_system r)).
  { eapply linked_perm; [|done]. by apply (filter_out_Permutation (p, s, n)). }
  split.
  - apply (entry_access (rebuilt (freed s n (buddy_system r)))).
    apply (entry_freed (buddy_system r) s n s n); [done|]. by rewrite decide_True.
  - apply (evict_count _ _ _ _ Hlnk).
Qed.

Lemma free_resident_witness :
  ∃ r, simulate 8 4 4 [mkInstr A 1 3; mkInstr X 1 0] = Ok r ∧
  ∃ r', step r (mkInstr F 1 1) = Ok r' ∧
    inactive_list r'
    = filter (λ x, page_id_of x ≠ access 1 1 (buddy_system r)) (inactive_list r) ∧
    active_list r'
    = filter (λ x, page_id_of x ≠ access 1 1 (buddy_system r)) (active_list r) ∧
    length (inactive_list r') + length (active_list r') + 1
    = length (inactive_list r) + length (active_list r) ∧
    access 1 1 (buddy_system r') = (-1)%Z ∧
    count_free_pages (buddy_system r') = count_free_pages (buddy_system r) + 1.
Proof.
  eexists. split; [vm_compute; reflexivity|].
  apply (free_resident 8 4 4 [mkInstr A 1 3; mkInstr X 1 0]).
  - apply (bool_decide_unpack _). vm_compute. exact I.
  - vm_compute. reflexivity.
  - vm_compute. discriminate.
Defined.

Lemma insert_pages_room ids s k m r :
  allocated_pages (buddy_system r) !! s = Some ids →
  length (inactive_list r) + m ≤ size_inactive r → k + m ≤ length ids →
  insert_pages (seq k m) s r
  = Ok (set_inactive_list
          (inactive_list r ++ ((λ idx, (default (-1)%Z (ids !! idx), s, idx)) <$> seq k m))
          r).
Proof.
  revert k r. induction m as [|m IH]; intros k r Hal Hroom Hk; simpl.
  - rewrite app_nil_r. by destruct r.
  - rewrite Hal. simpl.
    destruct (lookup_lt_is_Some_2 ids k) as [p Hp]; [lia|]. rewrite Hp. simpl.
    rewrite insert_inactive_room by lia. simpl.
    rewrite IH; simpl; [|done|rewrite length_app; simpl; lia|lia].
    by rewrite <-app_assoc.
Qed.

(** X17. In every state that a trace reaches, an Allocate event of [num]
    pages, with [num] pages free and room for [num] more nodes in the
    inactive list, evicts nothing: it records [num] distinct pages that
    were free, appends their nodes to the inactive list in positional order,
    leaves the active list alone and lowers the number of free pages by
    [num]. *)
Theorem allocate_without_pressure MAX sa si trace r s num :
  simulate MAX sa si trace = Ok r →
  1 ≤ num → num ≤ count_free_pages (buddy_system r) →
  length (inactive_list r) + num ≤ si →
  ∃ idl r',
    step r (mkInstr A s num) = Ok r' ∧
    length idl = num ∧ NoDup idl ∧ Forall (free_at (pages (buddy_system r))) idl ∧
    allocated_pages (buddy_system r')
    = <[s := Z.of_nat <$> idl]> (allocated_pages (buddy_system r)) ∧
    pages (buddy_system r') = mark_all s idl (pages (buddy_system r)) ∧
    inactive_list r'
    = inactive_list r
      ++ ((λ k, (default (-1)%Z ((Z.of_nat <$> idl) !! k), s, k)) <$> seq 0 num) ∧
    active_list r' = active_list r ∧
    count_free_pages (buddy_system r') + num = count_free_pages (buddy_system r).
Proof.
  intros Hsim Hnum Hfree Hroom.
  pose proof (simulate_safe _ _ _ _ _ Hsim) as [Hok _].
  destruct (simulate_sizes _ _ _ _ _ Hsim) as [_ Hsi].
  destruct (request_pages_spec MAX s num (buddy_system r) Hok Hnum)
    as (ids & b1 & Hreq & Hspec).
  destruct (requested_ok MAX _ _ _ _ _ Hok Hspec) as (_ & _ & Hal & _).
  destruct (requested_fill MAX _ _ _ _ _ Hok Hspec)
    as (idl & -> & Hlen & Hnd & Hfr & Hpg & Hcount).
  rewrite Nat.min_l in Hlen by done.
  exists idl. unfold step, reclaim_and_request. simpl.
  rewrite decide_True by done. simpl. rewrite Hreq. simpl.
  rewrite (insert_pages_room (Z.of_nat <$> idl)); simpl.
  - eexists. split; [done|]. simpl. rewrite length_fmap, Hlen, Hal.
    split; [done|]. split; [done|]. split; [done|]. split; [done|].
    split; [done|]. split; [done|]. split; [done|].
    change (count_free_pages (allocate (Z.of_nat <$> idl) s b1))
      with (count_free_pages b1). lia.
  - by rewrite lookup_insert_eq.
  - rewrite length_fmap, Hlen, Hsi. lia.
  - lia.
Qed.

Lemma allocate_without_pressure_witness :
  ∃ r, simulate 8 4 4 [mkInstr A 1 1] = Ok r ∧
  ∃ idl r',
    step r (mkInstr A 2 3) = Ok r' ∧
    length idl = 3 ∧ NoDup idl ∧ Forall (free_at (pages (buddy_system r))) idl ∧
    allocated_pages (buddy_system r')
    = <[2 := Z.of_nat <$> idl]> (allocated_pages (buddy_system r)) ∧
    pages (buddy_system r') = mark_all 2 idl (pages (buddy_system r)) ∧
    inactive_list r'
    = inactive_list r
      ++ ((λ k, (default (-1)%Z ((Z.of_nat <$> idl) !! k), 2, k)) <$> seq 0 3) ∧
    active_list r' = active_list r ∧
    count_free_pages (buddy_system r') + 3 = count_free_pages (buddy_system r).
Proof.
  eexists. split; [vm_compute; reflexivity|].
  apply (allocate_without_pressure 8 4 4 [mkInstr A 1 1]).
  - vm_compute. reflexivity.
  - lia.
  - vm_compute. lia.
  - simpl. lia.
Defined.
